(** * Path search on a networkx-style graph: DFS, BFS and Dijkstra

    Shallow embedding of [dfs_bfs_search.py] and [dijkstra_shortest_path.py].

    - Nodes are Python strings; a graph is the adjacency dictionary of a
      [networkx.Graph]: node |-> (neighbour |-> edge attributes), the inner
      dictionary kept as an association list in insertion order.
    - Python numbers are modelled by exact rationals ([Qc]); the value
      [float('infinity')] is a separate constructor.  This is Python's own
      arithmetic on [int] weights.  On [float] weights Python rounds every
      sum to binary64: module [Float64] embeds [dijkstra] on the kernel's
      binary64 floats, and the results that need exact sums are stated for
      integer weights.
    - A Python call either returns, raises, or (for a [while] loop run with
      an iteration budget) exhausts its budget: the type [result]. *)

From Stdlib Require Import QArith Qcanon Qround Lqa PrimFloat.
From stdpp Require Import base numbers gmap strings list sorting.

Set Warnings "-clear-no-such-hyp".
Set Warnings "-inexact-float".

Local Open Scope Qc_scope.

(** ** Results of Python calls *)

Inductive exn := KeyError | NetworkXError | RecursionError.

Inductive result (A : Type) : Type :=
  | Ok (a : A)
  | Raise (e : exn)
  | Timeout.
Arguments Ok {A} a.
Arguments Raise {A} e.
Arguments Timeout {A}.

Definition result_bind {A B} (f : A → result B) (m : result A) : result B :=
  match m with
  | Ok a => f a
  | Raise e => Raise e
  | Timeout => Timeout
  end.

#[global] Instance result_mbind : MBind result := @result_bind.
#[global] Instance result_mret : MRet result := @Ok.

(** ** Graphs *)

(** Edge attribute dictionary: the keys the code reads are ['line'] and
    ['weight']; either may be missing. *)
Record EdgeData := mkEdge { line : option string; weight : option Qc }.

Abbreviation Graph := (gmap string (list (string * EdgeData))).

(** [graph.neighbors(n)]: the keys of [graph._adj[n]]; networkx raises
    [NetworkXError] when [n] is not a node. *)
Definition neighbors (g : Graph) (n : string) : result (list string) :=
  match g !! n with
  | Some adj => Ok (adj.*1)
  | None => Raise NetworkXError
  end.

(** Dictionary lookup in an association list (first binding of the key). *)
Fixpoint assoc {A} (k : string) (l : list (string * A)) : option A :=
  match l with
  | [] => None
  | (k', a) :: l => if decide (k' = k) then Some a else assoc k l
  end.

(** [graph[u][v]] *)
Definition edge_data (g : Graph) (u v : string) : result EdgeData :=
  match g !! u with
  | Some adj =>
      match assoc v adj with
      | Some d => Ok d
      | None => Raise KeyError
      end
  | None => Raise KeyError
  end.

(** [data.get('weight', 1)] *)
Definition get_weight (d : EdgeData) : Qc := default 1 (weight d).

(** [v] is a neighbour of [u]. *)
Definition is_edge (g : Graph) (u v : string) : Prop :=
  ∃ adj, g !! u = Some adj ∧ v ∈ adj.*1.

(** Every neighbour is itself a node: an invariant of every networkx graph
    ([add_edge] creates both endpoints). *)
Definition nodes_closed (g : Graph) : Prop :=
  ∀ u v, is_edge g u v → v ∈ dom g.

(** Every consecutive pair of the sequence is an edge. *)
Fixpoint valid_path (g : Graph) (p : list string) : Prop :=
  match p with
  | x :: (y :: _) as t => is_edge g x y ∧ valid_path g t
  | _ => True
  end.

(** [p] leads from [a] to [b]. *)
Definition path_from_to (p : list string) (a b : string) : Prop :=
  head p = Some a ∧ last p = Some b.

(** ** Sorting node names *)

(** [sorted(xs)] on strings: ascending in the lexicographic order of the
    characters.  Equal strings are indistinguishable, so stability is not
    observable and [sorted(xs, reverse=True)] is the reversed list. *)
Definition sorted (l : list string) : list string :=
  merge_sort (λ a b : string, String.leb a b) l.

Definition sorted_reverse (l : list string) : list string :=
  reverse (sorted l).

(** ** Recursive depth-first search *)

(** Truth value of [new_path] in [if new_path:] ([None] and [[]] are false). *)
Definition truthy {A} (r : option (list A)) : bool :=
  match r with
  | Some (_ :: _) => true
  | _ => false
  end.

(** [dfs_path(graph, start, goal, path)].  [depth] is the number of stack
    frames still available: the interpreter raises [RecursionError] when
    none is left. *)
Fixpoint dfs_path_rec (depth : nat) (g : Graph) (start goal : string)
    (path : list string) : result (option (list string)) :=
  match depth with
  | 0 => Raise RecursionError
  | S depth =>
      let path := path ++ [start] in
      if decide (start = goal) then Ok (Some path)
      else if decide (start ∉ dom g) then Ok None
      else
        nbrs ← neighbors g start;
        (fix loop (nbrs : list string) : result (option (list string)) :=
           match nbrs with
           | [] => Ok None
           | neighbor :: rest =>
               if decide (neighbor ∉ path) then
                 new_path ← dfs_path_rec depth g neighbor goal path;
                 if truthy new_path then Ok new_path else loop rest
               else loop rest
           end) (sorted nbrs)
  end.

(** The call [dfs_path(graph, start, goal)] with the default [path=None]. *)
Definition dfs_path (depth : nat) (g : Graph) (start goal : string)
  : result (option (list string)) :=
  dfs_path_rec depth g start goal [].

(** ** Iterative depth-first search *)

(** One run of the [while stack:] loop per unit of [fuel]; the top of the
    stack is the head of the list. *)
Fixpoint dfs_iter_loop (fuel : nat) (g : Graph) (goal : string)
    (stack : list (string * list string)) (visited : gset string)
  : result (option (list string)) :=
  match fuel with
  | 0 => Timeout
  | S fuel =>
      match stack with
      | [] => Ok None
      | (current, path) :: stack =>
          if decide (current = goal) then Ok (Some path)
          else if decide (current ∈ visited) then
            dfs_iter_loop fuel g goal stack visited
          else
            let visited := visited ∪ {[current]} in
            nbrs ← neighbors g current;
            let stack :=
              foldl (λ st neighbor,
                       if decide (neighbor ∉ visited)
                       then (neighbor, path ++ [neighbor]) :: st
                       else st)
                    stack (sorted_reverse nbrs) in
            dfs_iter_loop fuel g goal stack visited
      end
  end.

Definition dfs_path_iterative_fuel (fuel : nat) (g : Graph)
    (start goal : string) : result (option (list string)) :=
  if decide (start ∉ dom g ∨ goal ∉ dom g) then Ok None
  else dfs_iter_loop fuel g goal [(start, [start])] ∅.

(** Total number of adjacency entries (twice the number of edges). *)
Definition degree_sum (g : Graph) : nat :=
  map_fold (λ _ adj n, length adj + n)%nat 0%nat g.

(** Every pushed entry is popped at most once and a node pushes its
    neighbours at most once, so this many iterations always suffice. *)
Definition dfs_path_iterative (g : Graph) (start goal : string)
  : result (option (list string)) :=
  dfs_path_iterative_fuel (S (S (degree_sum g))) g start goal.

(** ** Breadth-first search *)

(** The [for neighbor in neighbors:] loop of [bfs_path]: either the goal is
    met and the function returns ([inl]), or the loop ends with an updated
    queue and visited set ([inr]).  The queue's front is the list's head. *)
Fixpoint bfs_scan (goal : string) (path : list string) (nbrs : list string)
    (queue : list (string * list string)) (visited : gset string)
  : list string + (list (string * list string) * gset string) :=
  match nbrs with
  | [] => inr (queue, visited)
  | neighbor :: rest =>
      if decide (neighbor ∉ visited) then
        let new_path := path ++ [neighbor] in
        if decide (neighbor = goal) then inl new_path
        else bfs_scan goal path rest
               (queue ++ [(neighbor, new_path)]) (visited ∪ {[neighbor]})
      else bfs_scan goal path rest queue visited
  end.

Fixpoint bfs_loop (fuel : nat) (g : Graph) (goal : string)
    (queue : list (string * list string)) (visited : gset string)
  : result (option (list string)) :=
  match fuel with
  | 0 => Timeout
  | S fuel =>
      match queue with
      | [] => Ok None
      | (current, path) :: queue =>
          nbrs ← neighbors g current;
          match bfs_scan goal path (sorted nbrs) queue visited with
          | inl new_path => Ok (Some new_path)
          | inr (queue, visited) => bfs_loop fuel g goal queue visited
          end
      end
  end.

Definition bfs_path_fuel (fuel : nat) (g : Graph) (start goal : string)
  : result (option (list string)) :=
  if decide (start ∉ dom g ∨ goal ∉ dom g) then Ok None
  else if decide (start = goal) then Ok (Some [start])
  else bfs_loop fuel g goal [(start, [start])] {[start]}.

(** A node is enqueued at most once, so [size g] dequeues are followed by
    the test that finds the queue empty. *)
Definition bfs_path (g : Graph) (start goal : string)
  : result (option (list string)) :=
  bfs_path_fuel (S (size g)) g start goal.

(** Number of edges of a node sequence. *)
Definition edge_count (p : list string) : nat := length p - 1.

(** ** Dijkstra *)

(** A Python number as stored in [distances]: a finite value or
    [float('infinity')]. *)
Inductive num := Fin (q : Qc) | Infinity.

#[global] Instance num_eq_dec : EqDecision num.
Proof. solve_decision. Defined.

(** [a < b] on numbers. *)
Definition num_lt (a b : num) : bool :=
  match a, b with
  | Fin x, Fin y => bool_decide (x < y)
  | Fin _, Infinity => true
  | Infinity, _ => false
  end.

(** [d[k]] on a dictionary: [KeyError] when the key is missing. *)
Definition getitem {V} (d : gmap string V) (k : string) : result V :=
  match d !! k with
  | Some v => Ok v
  | None => Raise KeyError
  end.

(** Heap entries are the tuples [(distance, node)]; tuples compare
    lexicographically. *)
Definition entry : Type := Qc * string.

Definition entry_le (a b : entry) : bool :=
  if decide (a.1 < b.1) then true
  else if decide (a.1 = b.1) then String.leb a.2 b.2
  else false.

(** The heap is modelled by the bag of its items.  [heapq.heappush] adds an
    item; [heapq.heappop] removes and returns a least item.  Items that
    compare equal are equal tuples, so the array layout kept by [heapq] is
    not observable. *)
Definition heappush (h : list entry) (x : entry) : list entry := x :: h.

Definition heap_min (x : entry) (l : list entry) : entry :=
  foldl (λ m y, if entry_le m y then m else y) x l.

Fixpoint remove_first (x : entry) (l : list entry) : list entry :=
  match l with
  | [] => []
  | y :: l => if decide (y = x) then l else y :: remove_first x l
  end.

Definition heappop (h : list entry) : option (entry * list entry) :=
  match h with
  | [] => None
  | x :: l => let m := heap_min x l in Some (m, remove_first m h)
  end.

(** The mutable state of one [dijkstra] call. *)
Record dstate := mkState {
  distances : gmap string num;
  previous : gmap string (option string);
  priority_queue : list entry;
}.

(** Body of [for neighbor in graph.neighbors(current_node):]. *)
Definition relax (g : Graph) (visited : gset string) (current_node : string)
    (current_distance : Qc) (st : dstate) (neighbor : string) : result dstate :=
  if decide (neighbor ∈ visited) then Ok st
  else
    data ← edge_data g current_node neighbor;
    let weight := get_weight data in
    let distance := current_distance + weight in
    dn ← getitem (distances st) neighbor;
    if num_lt (Fin distance) dn then
      Ok (mkState (<[neighbor := Fin distance]> (distances st))
                  (<[neighbor := Some current_node]> (previous st))
                  (heappush (priority_queue st) (distance, neighbor)))
    else Ok st.

Fixpoint relax_all (g : Graph) (visited : gset string) (current_node : string)
    (current_distance : Qc) (st : dstate) (nbrs : list string) : result dstate :=
  match nbrs with
  | [] => Ok st
  | neighbor :: rest =>
      st ← relax g visited current_node current_distance st neighbor;
      relax_all g visited current_node current_distance st rest
  end.

(** One run of [while priority_queue:] per unit of [fuel]. *)
Fixpoint dijkstra_loop (fuel : nat) (g : Graph) (st : dstate)
    (visited : gset string)
  : result (gmap string num * gmap string (option string)) :=
  match fuel with
  | 0 => Timeout
  | S fuel =>
      match heappop (priority_queue st) with
      | None => Ok (distances st, previous st)
      | Some ((current_distance, current_node), pq) =>
          let st := mkState (distances st) (previous st) pq in
          if decide (current_node ∈ visited) then
            dijkstra_loop fuel g st visited
          else
            let visited := visited ∪ {[current_node]} in
            dc ← getitem (distances st) current_node;
            if num_lt dc (Fin current_distance) then
              dijkstra_loop fuel g st visited
            else
              nbrs ← neighbors g current_node;
              st ← relax_all g visited current_node current_distance st nbrs;
              dijkstra_loop fuel g st visited
      end
  end.

Definition dijkstra_init (g : Graph) (start : string) : dstate :=
  mkState (<[start := Fin 0]> (gset_to_gmap Infinity (dom g)))
          (gset_to_gmap None (dom g))
          [(0, start)].

Definition dijkstra_fuel (fuel : nat) (g : Graph) (start : string)
  : result (gmap string num * gmap string (option string)) :=
  dijkstra_loop fuel g (dijkstra_init g start) ∅.

(** A node pushes at most one entry per neighbour, once. *)
Definition dijkstra (g : Graph) (start : string)
  : result (gmap string num * gmap string (option string)) :=
  dijkstra_fuel (S (S (degree_sum g))) g start.

(** ** Path reconstruction *)

(** The loop [while current is not None:]; [fuel] bounds its iterations. *)
Fixpoint reconstruct_walk (fuel : nat) (previous : gmap string (option string))
    (current : option string) (path : list string) : result (list string) :=
  match current with
  | None => Ok path
  | Some c =>
      match fuel with
      | 0 => Timeout
      | S fuel =>
          nxt ← getitem previous c;
          reconstruct_walk fuel previous nxt (path ++ [c])
      end
  end.

Definition reconstruct_path_fuel (fuel : nat)
    (previous : gmap string (option string)) (start end_ : string)
  : result (list string) :=
  path ← reconstruct_walk fuel previous (Some end_) [];
  let path := reverse path in
  if decide (head path = Some start) then Ok path else Ok [].

(** Every iteration reads a key of [previous], and as long as the links do
    not cycle no key is read twice: within one iteration more than there
    are keys the loop has met [None] or the [KeyError] of a missing key.
    When the links cycle the Python loop never ends. *)
Definition reconstruct_path (previous : gmap string (option string))
    (start end_ : string) : result (list string) :=
  reconstruct_path_fuel (S (size previous)) previous start end_.

(** Weight of the edge [u - v] as [dijkstra] resolves it. *)
Definition edge_weight (g : Graph) (u v : string) : option Qc :=
  match edge_data g u v with
  | Ok d => Some (get_weight d)
  | _ => None
  end.

(** Cumulative weight of a node sequence: the sum of the weights of its
    consecutive edges. *)
Fixpoint path_weight (g : Graph) (p : list string) : option Qc :=
  match p with
  | x :: (y :: _) as t =>
      w ← edge_weight g x y; r ← path_weight g t; Some (w + r)
  | _ => Some 0
  end.

(** All resolved edge weights are nonnegative. *)
Definition nonneg_weights (g : Graph) : Prop :=
  ∀ u adj v d, g !! u = Some adj → (v, d) ∈ adj → 0 ≤ get_weight d.

(** ** Weight assignment *)

(** [round(x)] of Python: to the nearest integer, ties to the even one. *)
Definition round_half_even (x : Qc) : Z :=
  let n := Qfloor x in
  let r := x - Qc_of_Z n in
  if decide (r < Q2Qc (1 # 2)) then n
  else if decide (Q2Qc (1 # 2) < r) then (n + 1)%Z
  else if Z.even n then n else (n + 1)%Z.

(** [round(x, 1)] *)
Definition round1 (x : Qc) : Qc :=
  Qc_of_Z (round_half_even (x * Qc_of_Z 10)) / Qc_of_Z 10.

Section WeightAssigner.
(** The built-in [hash] on strings: an integer-valued function, fixed for
    the lifetime of the process. *)
Variable hash : string → Z.

(** [((hash(u) + hash(v)) % 10) / 10] *)
Definition variation (u v : string) : Qc :=
  Qc_of_Z ((hash u + hash v) `mod` 10) / Qc_of_Z 10.

(** The value stored under ['weight'] for the edge [(u, v, data)]. *)
Definition travel_time (u v : string) (data : EdgeData) : Qc :=
  let line := default "unknown" (line data) in
  if decide (line = "transfer") then Qc_of_Z 5
  else
    let base_time := Q2Qc (5 # 2) in
    round1 (base_time + variation u v).

(** [add_travel_times(G)].  An undirected edge is held by the two
    adjacency entries [G[u][v]] and [G[v][u]], which share one attribute
    dictionary; the loop over [G.edges(data=True)] meets the edge once,
    in one of its two orientations, and the value it stores does not
    depend on the orientation, so each entry receives the value computed
    from its own endpoints. *)
Definition add_travel_times (G : Graph) : Graph :=
  map_imap (M := gmap string)
    (λ (u : string) (adj : list (string * EdgeData)),
       Some ((λ vd : string * EdgeData,
                (vd.1, mkEdge (line vd.2) (Some (travel_time u vd.1 vd.2))))
             <$> adj))
    G.
End WeightAssigner.

(** ** Specification vocabulary *)

(** [scale_weights k g]: every resolved edge weight multiplied by [k]. *)
Definition scale_edge (k : Qc) (d : EdgeData) : EdgeData :=
  mkEdge (line d) (Some (k * get_weight d)).

Definition scale_weights (k : Qc) (g : Graph) : Graph :=
  fmap (M := gmap string) (fmap (M := list) (prod_map id (scale_edge k))) g.

Definition scale_num (k : Qc) (x : num) : num :=
  match x with
  | Fin q => Fin (k * q)
  | Infinity => Infinity
  end.

Definition scale_entry (k : Qc) (e : entry) : entry := (k * e.1, e.2).

Definition scale_state (k : Qc) (st : dstate) : dstate :=
  mkState (scale_num k <$> distances st) (previous st)
          (scale_entry k <$> priority_queue st).

Definition scale_result (k : Qc)
    (r : gmap string num * gmap string (option string))
  : gmap string num * gmap string (option string) :=
  (scale_num k <$> r.1, r.2).

Definition result_map {A B} (f : A → B) (r : result A) : result B :=
  match r with
  | Ok a => Ok (f a)
  | Raise e => Raise e
  | Timeout => Timeout
  end.

(** No edge carries a ['weight'] attribute. *)
Definition unweighted (g : Graph) : Prop :=
  ∀ u adj v d, g !! u = Some adj → (v, d) ∈ adj → weight d = None.

(** Every resolved edge weight is an integer.  On such weights (Python's
    [int], of unbounded size) every sum and comparison of [dijkstra] is
    exact in Python, as it is here. *)
Definition integer_weights (g : Graph) : Prop :=
  ∀ u adj v d, g !! u = Some adj → (v, d) ∈ adj →
               ∃ z : Z, get_weight d = Qc_of_Z z.

(** [r] is where the walk along predecessor links from [c] stops. *)
Inductive walk_ends (prev : gmap string (option string))
  : string → string → Prop :=
  | walk_ends_root c : prev !! c = Some None → walk_ends prev c c
  | walk_ends_step c u r :
      prev !! c = Some (Some u) → walk_ends prev u r → walk_ends prev c r.

(** The path rebuilt for target [t] from the maps of [dijkstra g s] weighs
    exactly the distance recorded for [t]. *)
Definition reconstructed_weight_is_distance (g : Graph) (s t : string)
  : Prop :=
  ∃ dist prev p W,
    dijkstra g s = Ok (dist, prev) ∧ reconstruct_path prev s t = Ok p ∧
    path_weight g p = Some W ∧ dist !! t = Some (Fin W).

(** ** Executable checks of the side conditions *)

Local Close Scope Qc_scope.

(** [P u v d] holds of every adjacency entry [graph[u][v] = d]. *)
Definition edges_forallb (P : string → string → EdgeData → bool) (g : Graph)
  : bool :=
  forallb (λ ua : string * list (string * EdgeData),
             forallb (λ vd : string * EdgeData, P ua.1 vd.1 vd.2) ua.2)
          (map_to_list g).

Definition nodes_closedb (g : Graph) : bool :=
  edges_forallb (λ _ v _, bool_decide (v ∈ dom g)) g.

Definition nonneg_weightsb (g : Graph) : bool :=
  edges_forallb (λ _ _ d, bool_decide (0 ≤ get_weight d)%Qc) g.

Definition unweightedb (g : Graph) : bool :=
  edges_forallb (λ _ _ d, bool_decide (weight d = None)) g.

Definition integer_weightsb (g : Graph) : bool :=
  edges_forallb (λ _ _ d, bool_decide (Qden (get_weight d) = 1%positive)) g.

Definition is_edgeb (g : Graph) (u v : string) : bool :=
  match g !! u with
  | Some adj => bool_decide (v ∈ adj.*1)
  | None => false
  end.

Fixpoint valid_pathb (g : Graph) (p : list string) : bool :=
  match p with
  | x :: (y :: _) as t => is_edgeb g x y && valid_pathb g t
  | _ => true
  end.

(** ** Invariants used in the proofs *)

(** Iterative DFS: a stack entry [(n, p)] holds a simple path of the graph
    from [start] to [n] whose nodes before [n] have all been expanded. *)
Definition dfs_entry_ok (g : Graph) (start : string) (visited : gset string)
    (e : string * list string) : Prop :=
  ∃ p', e.2 = p' ++ [e.1] ∧ head e.2 = Some start ∧ valid_path g e.2 ∧
        NoDup e.2 ∧ ∀ x, x ∈ p' → x ∈ visited.

(** [p] is a path of the graph from [a] to [b] with the fewest nodes. *)
Definition shortest_path (g : Graph) (a b : string) (p : list string) : Prop :=
  valid_path g p ∧ path_from_to p a b ∧
  ∀ q, valid_path g q → path_from_to q a b → length p ≤ length q.

(** BFS, while the neighbours [pend] of the dequeued node [u] are still to
    be looked at ([pend = []] between two dequeues).  [L] is the number of
    edges of the paths at the front of the queue. *)
Record bfs_inv (g : Graph) (start goal : string) (L : nat) (u : string)
    (pend : list string) (queue : list (string * list string))
    (visited : gset string) : Prop := mkBfsInv {
  bfs_queue_shortest :
    Forall (λ e, shortest_path g start e.1 e.2 ∧ e.1 ∈ visited) queue;
  bfs_queue_levels :
    ∃ q1 q2, queue = q1 ++ q2 ∧
      Forall (λ e, length e.2 = S L) q1 ∧
      Forall (λ e, length e.2 = S (S L)) q2;
  bfs_near_visited :
    ∀ q v, valid_path g q → path_from_to q start v → length q ≤ S L →
           v ∈ visited;
  bfs_expanded :
    ∀ v w, v ∈ visited → v ∉ queue.*1 → is_edge g v w →
           w ∈ visited ∨ (v = u ∧ w ∈ pend);
  bfs_start_visited : start ∈ visited;
  bfs_goal_fresh : goal ∉ visited;
  bfs_visited_nodes : visited ⊆ dom g;
}.

(** The recorded distance of [v] is finite and at most [d]. *)
Definition dist_le (dist : gmap string num) (v : string) (d : Qc) : Prop :=
  ∃ dv, dist !! v = Some (Fin dv) ∧ (dv ≤ d)%Qc.

(** [l] lists the nodes met by following predecessor links from [v] until a
    node without predecessor. *)
Inductive chain (prev : gmap string (option string))
  : string → list string → Prop :=
  | chain_root v : prev !! v = Some None → chain prev v [v]
  | chain_step v u l :
      prev !! v = Some (Some u) → chain prev u l → chain prev v (v :: l).

(** Dijkstra's loop, between two relaxations: [cur] is the node being
    expanded and [pend] its neighbours not yet relaxed ([pend = []] between
    two pops).  The last two fields are the ones that depend on the weights
    being nonnegative. *)
Record dijk_inv (g : Graph) (s cur : string) (pend : list string)
    (st : dstate) (visited : gset string) : Prop := mkDijkInv {
  dj_dom_dist : dom (distances st) = dom g;
  dj_dom_prev : dom (previous st) = dom g;
  dj_visited : visited ⊆ dom g;
  dj_source :
    distances st !! s = Some (Fin 0%Qc) ∧ previous st !! s = Some None ∧
    (s ∈ visited ∨ (visited = ∅ ∧ priority_queue st = [(0%Qc, s)]));
  dj_prev_some :
    ∀ v u, previous st !! v = Some (Some u) → u ∈ visited;
  dj_prev_edge :
    ∀ v u, previous st !! v = Some (Some u) →
      is_edge g u v ∧
      ∃ du w, distances st !! u = Some (Fin du) ∧
              edge_weight g u v = Some w ∧
              distances st !! v = Some (Fin (du + w)%Qc);
  dj_prev_none :
    ∀ v, previous st !! v = Some None →
      v = s ∨ distances st !! v = Some Infinity;
  dj_queued :
    ∀ v d, distances st !! v = Some (Fin d) → v ∉ visited →
      (d, v) ∈ priority_queue st;
  dj_entries :
    ∀ d v, (d, v) ∈ priority_queue st → dist_le (distances st) v d;
  dj_finite :
    ∀ v, v ∈ visited → ∃ d, distances st !! v = Some (Fin d);
  dj_tree :
    ∀ v d, v ∈ visited → distances st !! v = Some (Fin d) →
      ∃ l, chain (previous st) v l ∧ NoDup l ∧ (∀ x, x ∈ l → x ∈ visited) ∧
           last l = Some s ∧ valid_path g (reverse l) ∧
           path_weight g (reverse l) = Some d;
  dj_monotone :
    nonneg_weights g →
    ∀ u du d v, u ∈ visited → distances st !! u = Some (Fin du) →
      (d, v) ∈ priority_queue st → (du ≤ d)%Qc;
  dj_relaxed :
    nonneg_weights g →
    ∀ u v du w, u ∈ visited → distances st !! u = Some (Fin du) →
      is_edge g u v → edge_weight g u v = Some w →
      dist_le (distances st) v (du + w)%Qc ∨ (u = cur ∧ v ∈ pend);
}.

(** Iterations still to come: queued entries, plus one per adjacency entry
    of a node not yet expanded. *)
Definition remaining (g : Graph) (visited : gset string) : Graph :=
  filter (λ kv, kv.1 ∉ visited) g.

(** What holds of the maps returned by [dijkstra g s]. *)
Record dijkstra_post (g : Graph) (s : string) (dist : gmap string num)
    (prev : gmap string (option string)) : Prop := mkDijkPost {
  dp_dom_dist : dom dist = dom g;
  dp_dom_prev : dom prev = dom g;
  dp_source : dist !! s = Some (Fin 0%Qc);
  dp_finite :
    ∀ v d, dist !! v = Some (Fin d) →
      ∃ l, chain prev v l ∧ NoDup l ∧ last l = Some s ∧
           valid_path g (reverse l) ∧ path_weight g (reverse l) = Some d;
  dp_infinite :
    ∀ v, dist !! v = Some Infinity → prev !! v = Some None ∧ v ≠ s;
  dp_optimal :
    nonneg_weights g →
    ∀ q v W, valid_path g q → path_from_to q s v →
             path_weight g q = Some W → dist_le dist v W;
}.

(** ** Path comparison *)

(** The dictionary returned by [compare_paths]. *)
Record comparison := mkComparison {
  cmp_start : string;
  cmp_goal : string;
  cmp_dfs_path : option (list string);
  cmp_bfs_path : option (list string);
  dfs_length : nat;
  bfs_length : nat;
}.

(** [len(result) if result else 0] *)
Definition length_or_zero (r : option (list string)) : nat :=
  if truthy r then length (default [] r) else 0.

(** [compare_paths(graph, start, goal)]; [depth] is the recursion limit
    under which the recursive DFS runs. *)
Definition compare_paths (depth : nat) (g : Graph) (start goal : string)
  : result comparison :=
  dfs_result ← dfs_path depth g start goal;
  bfs_result ← bfs_path g start goal;
  Ok (mkComparison start goal dfs_result bfs_result
        (length_or_zero dfs_result) (length_or_zero bfs_result)).

(** ** All-pairs shortest paths *)

(** The value stored for a pair: [{'distance': ..., 'path': ...}]. *)
Record path_info := mkPathInfo {
  pi_distance : num;
  pi_path : list string;
}.

(** The loop [for target in nodes:] of [find_all_shortest_paths]. *)
Fixpoint all_paths_targets (source : string) (distances : gmap string num)
    (previous : gmap string (option string)) (targets : list string)
    (all_paths : gmap (string * string) path_info)
  : result (gmap (string * string) path_info) :=
  match targets with
  | [] => Ok all_paths
  | target :: rest =>
      if decide (source ≠ target) then
        path ← reconstruct_path previous source target;
        distance ← getitem distances target;
        all_paths_targets source distances previous rest
          (<[(source, target) := mkPathInfo distance path]> all_paths)
      else all_paths_targets source distances previous rest all_paths
  end.

(** The loop [for source in nodes:]. *)
Fixpoint all_paths_sources (g : Graph) (nodes : list string)
    (sources : list string) (all_paths : gmap (string * string) path_info)
  : result (gmap (string * string) path_info) :=
  match sources with
  | [] => Ok all_paths
  | source :: rest =>
      dp ← dijkstra g source;
      all_paths ← all_paths_targets source dp.1 dp.2 nodes all_paths;
      all_paths_sources g nodes rest all_paths
  end.

(** [find_all_shortest_paths] for a given enumeration [nodes] of
    [graph.nodes()]. *)
Definition find_all_shortest_paths_from (nodes : list string) (g : Graph)
  : result (gmap (string * string) path_info) :=
  all_paths_sources g nodes nodes ∅.

(** [list(graph.nodes())].  networkx lists the nodes in insertion order,
    which the adjacency map does not record; the results below hold for
    every enumeration of the node set. *)
Definition graph_nodes (g : Graph) : list string := (map_to_list g).*1.

Definition find_all_shortest_paths (g : Graph)
  : result (gmap (string * string) path_info) :=
  find_all_shortest_paths_from (graph_nodes g) g.

(** What one [dijkstra] run records for a target: its distance and the
    rebuilt path. *)
Definition info_of (dist : gmap string num)
    (prev : gmap string (option string)) (s t : string) : option path_info :=
  match dist !! t, reconstruct_path prev s t with
  | Some d, Ok p => Some (mkPathInfo d p)
  | _, _ => None
  end.

Definition pair_info (g : Graph) (s t : string) : option path_info :=
  match dijkstra g s with
  | Ok (dist, prev) => info_of dist prev s t
  | _ => None
  end.

(** The attribute dictionary of the edge [(u, v, data)] after
    [add_travel_times]: the same ['line'], the new ['weight']. *)
Definition with_travel_time (hash : string → Z) (u v : string)
    (data : EdgeData) : EdgeData :=
  mkEdge (line data) (Some (travel_time hash u v data)).

(** Following predecessor links from [c] meets, after [n] links, a node
    that is not a key of the map. *)
Inductive dangling (prev : gmap string (option string))
  : string → nat → Prop :=
  | dangling_here c : prev !! c = None → dangling prev c 0
  | dangling_step c u n :
      prev !! c = Some (Some u) → dangling prev u n →
      dangling prev c (S n).

(** An undirected graph: the two adjacency entries of an edge hold the same
    attribute dictionary. *)
Definition undirected (g : Graph) : Prop :=
  ∀ u v d, edge_data g u v = Ok d → edge_data g v u = Ok d.

Definition undirectedb (g : Graph) : bool :=
  edges_forallb
    (λ u v d, match edge_data g u v, edge_data g v u with
              | Ok d1, Ok d2 => bool_decide (line d1 = line d2 ∧ weight d1 = weight d2)
              | _, _ => false
              end) g.

(** Stack entries from which the goal can still be found: a simple path of
    unvisited nodes leads from the entry's node to the goal. *)
Definition dfs_white (g : Graph) (goal : string)
    (stack : list (string * list string)) (visited : gset string) : Prop :=
  ∃ n p W, (n, p) ∈ stack ∧ valid_path g W ∧ path_from_to W n goal ∧
           NoDup W ∧ ∀ x, x ∈ W → x ∉ visited.

(** ** [dijkstra] on float weights *)

(** With weights of type [float], such as [add_travel_times] stores, Python
    rounds every sum [current_distance + weight] to the nearest binary64
    value.  This module embeds [dijkstra] a second time, on the kernel's
    binary64 floats, whose arithmetic (IEEE 754, round to nearest, ties to
    even) is that of Python's [float]; a decimal literal denotes the nearest
    binary64 value, as in Python.  The integers [0] of
    [distances[start] = 0] and [1] of [data.get('weight', 1)] are the
    floats [0.0] and [1.0]: Python converts an [int] exactly when it meets a
    [float], and [float('infinity')] is the float [infinity]. *)
Module Float64.

Record EdgeData := mkEdge { line : option string; weight : option float }.

Abbreviation Graph := (gmap string (list (string * EdgeData))).

(** [graph.neighbors(n)] *)
Definition neighbors (g : Graph) (n : string) : result (list string) :=
  match g !! n with
  | Some adj => Ok (adj.*1)
  | None => Raise NetworkXError
  end.

(** [graph[u][v]] *)
Definition edge_data (g : Graph) (u v : string) : result EdgeData :=
  match g !! u with
  | Some adj =>
      match assoc v adj with
      | Some d => Ok d
      | None => Raise KeyError
      end
  | None => Raise KeyError
  end.

(** [data.get('weight', 1)] *)
Definition get_weight (d : EdgeData) : float := default 1%float (weight d).

(** Heap entries [(distance, node)], compared lexicographically. *)
Definition entry : Type := float * string.

Definition entry_le (a b : entry) : bool :=
  if PrimFloat.ltb a.1 b.1 then true
  else if PrimFloat.eqb a.1 b.1 then String.leb a.2 b.2
  else false.

Definition entry_eqb (a b : entry) : bool :=
  PrimFloat.eqb a.1 b.1 && String.eqb a.2 b.2.

(** The heap as the bag of its items, as above. *)
Definition heappush (h : list entry) (x : entry) : list entry := x :: h.

Definition heap_min (x : entry) (l : list entry) : entry :=
  foldl (λ m y, if entry_le m y then m else y) x l.

Fixpoint remove_first (x : entry) (l : list entry) : list entry :=
  match l with
  | [] => []
  | y :: l => if entry_eqb y x then l else y :: remove_first x l
  end.

Definition heappop (h : list entry) : option (entry * list entry) :=
  match h with
  | [] => None
  | x :: l => let m := heap_min x l in Some (m, remove_first m h)
  end.

Record dstate := mkState {
  distances : gmap string float;
  previous : gmap string (option string);
  priority_queue : list entry;
}.

(** Body of [for neighbor in graph.neighbors(current_node):]. *)
Definition relax (g : Graph) (visited : gset string) (current_node : string)
    (current_distance : float) (st : dstate) (neighbor : string)
  : result dstate :=
  if decide (neighbor ∈ visited) then Ok st
  else
    data ← edge_data g current_node neighbor;
    let weight := get_weight data in
    let distance := PrimFloat.add current_distance weight in
    dn ← getitem (distances st) neighbor;
    if PrimFloat.ltb distance dn then
      Ok (mkState (<[neighbor := distance]> (distances st))
                  (<[neighbor := Some current_node]> (previous st))
                  (heappush (priority_queue st) (distance, neighbor)))
    else Ok st.

Fixpoint relax_all (g : Graph) (visited : gset string) (current_node : string)
    (current_distance : float) (st : dstate) (nbrs : list string)
  : result dstate :=
  match nbrs with
  | [] => Ok st
  | neighbor :: rest =>
      st ← relax g visited current_node current_distance st neighbor;
      relax_all g visited current_node current_distance st rest
  end.

(** One run of [while priority_queue:] per unit of [fuel]. *)
Fixpoint dijkstra_loop (fuel : nat) (g : Graph) (st : dstate)
    (visited : gset string)
  : result (gmap string float * gmap string (option string)) :=
  match fuel with
  | 0 => Timeout
  | S fuel =>
      match heappop (priority_queue st) with
      | None => Ok (distances st, previous st)
      | Some ((current_distance, current_node), pq) =>
          let st := mkState (distances st) (previous st) pq in
          if decide (current_node ∈ visited) then
            dijkstra_loop fuel g st visited
          else
            let visited := visited ∪ {[current_node]} in
            dc ← getitem (distances st) current_node;
            if PrimFloat.ltb dc current_distance then
              dijkstra_loop fuel g st visited
            else
              nbrs ← neighbors g current_node;
              st ← relax_all g visited current_node current_distance st nbrs;
              dijkstra_loop fuel g st visited
      end
  end.

Definition dijkstra_init (g : Graph) (start : string) : dstate :=
  mkState (<[start := 0%float]> (gset_to_gmap infinity (dom g)))
          (gset_to_gmap None (dom g))
          [(0%float, start)].

Definition degree_sum (g : Graph) : nat :=
  map_fold (λ _ adj n, length adj + n)%nat 0%nat g.

Definition dijkstra (g : Graph) (start : string)
  : result (gmap string float * gmap string (option string)) :=
  dijkstra_loop (S (S (degree_sum g))) g (dijkstra_init g start) ∅.

(** Every resolved edge weight multiplied by [k], in float arithmetic. *)
Definition scale_edge (k : float) (d : EdgeData) : EdgeData :=
  mkEdge (line d) (Some (PrimFloat.mul k (get_weight d))).

Definition scale_weights (k : float) (g : Graph) : Graph :=
  fmap (M := gmap string) (fmap (M := list) (prod_map id (scale_edge k))) g.

End Float64.

(** ** Concrete graphs *)

(** A six-node network used to instantiate the statements: the chain
    A - B - C - D, the shortcut A - D, and the separate pair E - F. *)
Definition edge1 (w : Z) : EdgeData := mkEdge (Some "red") (Some (Qc_of_Z w)).

Definition demo_graph : Graph :=
  list_to_map
    [("A", [("B", edge1 1); ("D", edge1 5)]);
     ("B", [("A", edge1 1); ("C", edge1 1)]);
     ("C", [("B", edge1 1); ("D", edge1 1)]);
     ("D", [("C", edge1 1); ("A", edge1 5)]);
     ("E", [("F", edge1 2)]);
     ("F", [("E", edge1 2)])].

(** An unweighted network: the chain P - Q - R, the shortcut P - R and the
    isolated node S. *)
Definition edge0 : EdgeData := mkEdge (Some "blue") None.

Definition demo_unweighted : Graph :=
  list_to_map
    [("P", [("Q", edge0); ("R", edge0)]);
     ("Q", [("P", edge0); ("R", edge0)]);
     ("R", [("Q", edge0); ("P", edge0)]);
     ("S", [])].

(** A stand-in for the process-dependent [hash]: the length of the name. *)
Definition demo_hash (s : string) : Z := Z.of_nat (String.length s).

(** Three stations around one interchange. *)
Definition demo_lines : Graph :=
  list_to_map
    [("Teatralna",
      [("Khreshchatyk", mkEdge (Some "red") (Some 1%Qc));
       ("Zoloti Vorota", mkEdge (Some "transfer") (Some (Q2Qc (1 # 2))))]);
     ("Khreshchatyk", [("Teatralna", mkEdge (Some "red") (Some 1%Qc))]);
     ("Zoloti Vorota",
      [("Teatralna", mkEdge (Some "transfer") (Some (Q2Qc (1 # 2))))])].

(** The scenarios of the specification: the chain A - B - C - D, the star
    with centre X, and the weighted triangle. *)
Definition chain_graph : Graph :=
  list_to_map
    [("A", [("B", edge0)]);
     ("B", [("A", edge0); ("C", edge0)]);
     ("C", [("B", edge0); ("D", edge0)]);
     ("D", [("C", edge0)])].

Definition star_graph : Graph :=
  list_to_map
    [("X", [("P", edge0); ("Q", edge0); ("R", edge0)]);
     ("P", [("X", edge0)]);
     ("Q", [("X", edge0)]);
     ("R", [("X", edge0)])].

Definition triangle_graph : Graph :=
  list_to_map
    [("A", [("B", edge1 1); ("C", edge1 5)]);
     ("B", [("A", edge1 1); ("C", edge1 1)]);
     ("C", [("B", edge1 1); ("A", edge1 5)])].

(** A network with a negative weight on the edge B - C. *)
Definition demo_negative : Graph :=
  list_to_map
    [("A", [("B", edge1 2); ("C", edge1 1)]);
     ("B", [("A", edge1 2); ("C", edge1 (-3))]);
     ("C", [("A", edge1 1); ("B", edge1 (-3))])].

(** Chains with float weights that [add_travel_times] stores. *)
Definition fedge (w : float) : Float64.EdgeData :=
  Float64.mkEdge (Some "red") (Some w).

Definition float_chain (w1 w2 w3 : float) : Float64.Graph :=
  list_to_map
    [("A", [("B", fedge w1)]);
     ("B", [("A", fedge w1); ("C", fedge w2)]);
     ("C", [("B", fedge w2); ("D", fedge w3)]);
     ("D", [("C", fedge w3)])].

(** * Proofs *)

(** ** Generic facts *)

Lemma result_bind_Ok {A B} (f : A → result B) (m : result A) (b : B) :
  m ≫= f = Ok b → ∃ a, m = Ok a ∧ f a = Ok b.
Proof. destruct m as [a| |]; simpl; intros H; try discriminate. by exists a. Qed.

Lemma sorted_Permutation l : sorted l ≡ₚ l.
Proof. apply merge_sort_Permutation. Qed.

Lemma elem_of_sorted x l : x ∈ sorted l ↔ x ∈ l.
Proof. by rewrite sorted_Permutation. Qed.

Lemma elem_of_sorted_reverse x l : x ∈ sorted_reverse l ↔ x ∈ l.
Proof. unfold sorted_reverse. by rewrite elem_of_reverse, elem_of_sorted. Qed.

Lemma neighbors_Ok g u nbrs :
  neighbors g u = Ok nbrs → ∀ v, v ∈ nbrs ↔ is_edge g u v.
Proof.
  unfold neighbors, is_edge. destruct (g !! u) as [adj|] eqn:E; [|done].
  intros [= <-] v. split; [eauto|]. by intros (adj' & [= <-] & ?).
Qed.

Lemma neighbors_in_dom g u :
  u ∈ dom g → ∃ nbrs, neighbors g u = Ok nbrs.
Proof.
  intros [adj E]%elem_of_dom. unfold neighbors. rewrite E. eauto.
Qed.

Lemma is_edge_dom g u v : is_edge g u v → u ∈ dom g.
Proof. intros (adj & E & _). apply elem_of_dom. eauto. Qed.

Lemma valid_path_snoc g p v :
  valid_path g p → (∀ u, last p = Some u → is_edge g u v) →
  valid_path g (p ++ [v]).
Proof.
  induction p as [|x [|y p] IH]; simpl; intros Hp Hl; [done| |].
  - split; [|done]. by apply Hl.
  - destruct Hp as [Hxy Hp]. split; [done|]. apply IH; [done|].
    intros u Hu. apply Hl. exact Hu.
Qed.

Lemma valid_path_app_inv_l g p q : valid_path g (p ++ q) → valid_path g p.
Proof.
  induction p as [|x [|y p] IH]; simpl; [done..|].
  intros [? ?]. split; [done|]. by apply IH.
Qed.

Lemma NoDup_length_le_size (l : list string) (X : gset string) :
  NoDup l → (∀ x, x ∈ l → x ∈ X) → length l ≤ size X.
Proof.
  intros Hnd Hsub. rewrite <- (size_list_to_set (C := gset string) l) by done.
  apply subseteq_size. intros x Hx. apply Hsub. set_solver.
Qed.

Lemma size_difference_fresh (X V : gset string) (w : string) :
  w ∈ X → w ∉ V → size (X ∖ V) = S (size (X ∖ (V ∪ {[w]}))).
Proof.
  intros HX HV.
  assert (X ∖ V = {[w]} ∪ X ∖ (V ∪ {[w]})) as ->.
  { apply set_eq. intros x. destruct (decide (x = w)); set_solver. }
  rewrite size_union by set_solver. by rewrite size_singleton.
Qed.

Lemma edges_forallb_sound P g :
  edges_forallb P g = true →
  ∀ u adj v d, g !! u = Some adj → (v, d) ∈ adj → P u v d = true.
Proof.
  unfold edges_forallb. rewrite forallb_forall. intros H u adj v d Hu Hv.
  specialize (H (u, adj)). simpl in H. rewrite forallb_forall in H.
  apply (H ltac:(by apply list_elem_of_In, elem_of_map_to_list) (v, d)).
  by apply list_elem_of_In.
Qed.

Lemma nodes_closedb_sound g : nodes_closedb g = true → nodes_closed g.
Proof.
  intros H u v (adj & Hu & ([v' d] & -> & Hin)%list_elem_of_fmap).
  eapply bool_decide_eq_true, (edges_forallb_sound _ _ H); done.
Qed.

Lemma nonneg_weightsb_sound g : nonneg_weightsb g = true → nonneg_weights g.
Proof.
  intros H u adj v d Hu Hin.
  eapply bool_decide_eq_true, (edges_forallb_sound _ _ H); done.
Qed.

Lemma unweightedb_sound g : unweightedb g = true → unweighted g.
Proof.
  intros H u adj v d Hu Hin.
  eapply bool_decide_eq_true, (edges_forallb_sound _ _ H); done.
Qed.

Lemma integer_weightsb_sound g : integer_weightsb g = true → integer_weights g.
Proof.
  intros H u adj v d Hu Hin.
  pose proof (edges_forallb_sound _ _ H u adj v d Hu Hin) as Hd.
  cbv beta in Hd. apply bool_decide_eq_true in Hd.
  exists (Qnum (get_weight d)). apply Qc_is_canon. unfold Qc_of_Z, Q2Qc.
  cbn [this]. destruct (get_weight d) as [[n m] C]. simpl in *. by subst m.
Qed.

Lemma is_edgeb_sound g u v : is_edgeb g u v = true → is_edge g u v.
Proof.
  unfold is_edgeb, is_edge. destruct (g !! u) as [adj|]; [|done].
  intros H%bool_decide_eq_true. eauto.
Qed.

Lemma valid_pathb_sound g p : valid_pathb g p = true → valid_path g p.
Proof.
  induction p as [|x [|y p] IH]; [done..|].
  intros [H1 H2]%andb_prop. split; [by apply is_edgeb_sound|by apply IH].
Qed.

(** ** Recursive DFS *)

Lemma truthy_Some {A} (r : option (list A)) :
  truthy r = true → ∃ x l, r = Some (x :: l).
Proof. destruct r as [[|x l]|]; simpl; try discriminate. eauto. Qed.

(** What a returned path looks like: the accumulated prefix, followed by a
    walk from [start] that ends at [goal]; it is a valid simple path as soon
    as the prefix extended by [start] is one. *)
Lemma dfs_path_rec_Some depth g start goal path r :
  dfs_path_rec depth g start goal path = Ok (Some r) →
  ∃ rest, r = path ++ start :: rest ∧ last r = Some goal ∧
    (valid_path g (path ++ [start]) → valid_path g r) ∧
    (NoDup (path ++ [start]) → NoDup r).
Proof.
  revert start path r. induction depth as [|depth IH]; intros start path r; [done|].
  simpl. destruct (decide (start = goal)) as [->|Hne].
  { intros [= <-]. exists []. split_and!; auto. by rewrite last_snoc. }
  destruct (decide (start ∉ dom g)) as [|Hin]; [done|].
  intros (nbrs & Hn & Hloop)%result_bind_Ok.
  assert (Hall : ∀ x, x ∈ sorted nbrs → is_edge g start x).
  { intros x Hx. apply (neighbors_Ok _ _ _ Hn). by apply elem_of_sorted. }
  revert Hloop Hall. generalize (sorted nbrs) as l. clear Hn nbrs.
  induction l as [|nb l IHl]; intros Hloop Hall; [done|].
  destruct (decide (nb ∉ path ++ [start])) as [Hnb|]; last first.
  { apply IHl; [done|]. intros x Hx. apply Hall. by right. }
  apply result_bind_Ok in Hloop as (np & Hrec & Hret).
  destruct (truthy np) eqn:Ht; last first.
  { apply IHl; [done|]. intros x Hx. apply Hall. by right. }
  injection Hret as ->.
  apply IH in Hrec as (rest & -> & Hlast & Hv & Hnd).
  assert (E : (path ++ [start]) ++ nb :: rest = path ++ start :: nb :: rest)
    by (by rewrite <- app_assoc).
  rewrite E in *. clear E. exists (nb :: rest).
  split_and!; [done|done| |].
  - intros Hp. apply Hv. apply valid_path_snoc; [done|].
    intros u. rewrite last_snoc. intros [= <-]. apply Hall. by left.
  - intros Hp. apply Hnd. apply NoDup_app.
    split_and!; [done| |apply NoDup_singleton].
    intros x Hx ->%list_elem_of_singleton. done.
Qed.

(** The recursion never needs more frames than there are nodes left to put
    on the path, plus one. *)
Lemma dfs_path_rec_returns depth g start goal path :
  NoDup path → (∀ x, x ∈ path → x ∈ dom g) → start ∉ path →
  size g < depth + length path →
  ∃ r, dfs_path_rec depth g start goal path = Ok r.
Proof.
  revert start path. induction depth as [|depth IH]; intros start path Hnd Hsub Hs Hlt.
  { pose proof (NoDup_length_le_size path (dom g) Hnd Hsub) as Hle.
    rewrite size_dom in Hle. simpl in Hlt. lia. }
  simpl. destruct (decide (start = goal)); [eauto|].
  destruct (decide (start ∉ dom g)) as [|Hin]; [eauto|].
  apply dec_stable in Hin.
  destruct (neighbors_in_dom _ _ Hin) as [nbrs ->]. simpl.
  generalize (sorted nbrs) as l.
  induction l as [|nb l IHl]; [eauto|].
  destruct (decide (nb ∉ path ++ [start])) as [Hnb|]; [|done].
  destruct (IH nb (path ++ [start])) as [np ->]; [| | done | |].
  - apply NoDup_app. split_and!; [done| |apply NoDup_singleton].
    by intros x Hx ->%list_elem_of_singleton.
  - intros x [?| ->%list_elem_of_singleton]%elem_of_app; auto.
  - rewrite length_app. simpl. lia.
  - simpl. destruct (truthy np); eauto.
Qed.

(** ** Iterative DFS *)

Lemma dfs_entry_ok_mono g start visited visited' e :
  visited ⊆ visited' → dfs_entry_ok g start visited e →
  dfs_entry_ok g start visited' e.
Proof.
  intros Hsub (p' & ? & ? & ? & ? & Hv). exists p'. split_and!; auto.
Qed.

Lemma dfs_push_ok g start visited current path st nbrs :
  dfs_entry_ok g start visited (current, path) → current ∈ visited →
  (∀ x, x ∈ nbrs → is_edge g current x) →
  Forall (dfs_entry_ok g start visited) st →
  Forall (dfs_entry_ok g start visited)
    (foldl (λ st neighbor,
              if decide (neighbor ∉ visited)
              then (neighbor, path ++ [neighbor]) :: st else st) st nbrs).
Proof.
  intros (p' & Hp & Hhd & Hval & Hnd & Hvis) Hcur. simpl in *.
  assert (Hpath : ∀ x, x ∈ path → x ∈ visited).
  { subst path. intros x [?| ->%list_elem_of_singleton]%elem_of_app; auto. }
  revert st. induction nbrs as [|nb nbrs IH]; intros st Hedges Hst; [done|].
  simpl. apply IH; [intros x Hx; apply Hedges; by right|].
  destruct (decide (nb ∉ visited)) as [Hnb|]; [|done].
  constructor; [|done]. exists path. simpl. split_and!; [done| | | |done].
  - subst path. by destruct p'.
  - apply valid_path_snoc; [done|]. intros u. subst path.
    rewrite last_snoc. intros [= <-]. apply Hedges. by left.
  - apply NoDup_app. split_and!; [done| |apply NoDup_singleton].
    intros x Hx ->%list_elem_of_singleton. auto.
Qed.

Lemma dfs_iter_loop_Some fuel g goal start stack visited r :
  Forall (dfs_entry_ok g start visited) stack →
  dfs_iter_loop fuel g goal stack visited = Ok (Some r) →
  valid_path g r ∧ NoDup r ∧ path_from_to r start goal.
Proof.
  revert stack visited. induction fuel as [|fuel IH]; intros stack visited Hst; [done|].
  simpl. destruct stack as [|[current path] stack]; [done|].
  apply Forall_cons in Hst as [Hcur Hst].
  destruct (decide (current = goal)) as [->|Hne].
  { intros [= <-]. destruct Hcur as (p' & Hp & Hhd & Hval & Hnd & _).
    simpl in *. split_and!; [done..|]. split; [done|]. subst path. apply last_snoc. }
  destruct (decide (current ∈ visited)) as [Hin|Hnin]; [by apply IH|].
  intros (nbrs & Hn & Hloop)%result_bind_Ok. revert Hloop. apply IH.
  assert (Hsub : visited ⊆ visited ∪ {[current]}) by (clear; set_solver).
  apply (dfs_push_ok _ _ _ current).
  - by apply dfs_entry_ok_mono with visited.
  - clear; set_solver.
  - intros x Hx. rewrite elem_of_sorted_reverse in Hx.
    by apply (neighbors_Ok _ _ _ Hn).
  - eapply Forall_impl; [done|]. intros e. by apply dfs_entry_ok_mono.
Qed.

(** ** BFS *)

Lemma valid_path_snoc_inv g q v :
  valid_path g (q ++ [v]) →
  valid_path g q ∧ ∀ x, last q = Some x → is_edge g x v.
Proof.
  induction q as [|a [|b q] IH]; simpl.
  - intros _. split; [done|]. by intros x.
  - intros [He _]. split; [done|]. by intros x [= <-].
  - intros [He Hq]. destruct (IH Hq) as [Hv Hl]. split; [by split|].
    intros x Hx. by apply Hl.
Qed.

Lemma path_from_to_snoc p a u v :
  path_from_to p a u → path_from_to (p ++ [v]) a v.
Proof.
  intros [Hh _]. split; [|apply last_snoc]. by destruct p.
Qed.

Lemma path_from_to_nonempty p a b : path_from_to p a b → 0 < length p.
Proof. intros [Hh _]. destruct p; [done|simpl; lia]. Qed.

(** If no path with at most [S L] nodes reaches an unvisited [w], a path
    with [S L] nodes extended by [w] is a shortest one. *)
Lemma bfs_extend_shortest g start goal L u pend queue visited p w :
  bfs_inv g start goal L u pend queue visited →
  valid_path g p → path_from_to p start u → length p = S L →
  is_edge g u w → w ∉ visited →
  shortest_path g start w (p ++ [w]).
Proof.
  intros Inv Hv Hft Hlen He Hw. split_and!.
  - apply valid_path_snoc; [done|]. intros x Hx.
    destruct Hft as [_ Hl]. rewrite Hl in Hx. by injection Hx as <-.
  - by eapply path_from_to_snoc.
  - intros q Hq Hqft. rewrite length_app. simpl.
    destruct (decide (length q ≤ S L)) as [Hle|]; [|lia].
    destruct Hw. by eapply (bfs_near_visited _ _ _ _ _ _ _ _ Inv).
Qed.

Lemma bfs_scan_spec g start goal L u p pend queue visited :
  nodes_closed g →
  bfs_inv g start goal L u pend queue visited →
  valid_path g p → path_from_to p start u → length p = S L →
  (∀ w, w ∈ pend → is_edge g u w) →
  match bfs_scan goal p pend queue visited with
  | inl r => shortest_path g start goal r
  | inr (queue', visited') =>
      bfs_inv g start goal L u [] queue' visited' ∧
      size (dom g ∖ visited') + length queue'
      = size (dom g ∖ visited) + length queue
  end.
Proof.
  intros Hcl. revert queue visited.
  induction pend as [|w pend IH]; intros queue visited Inv Hv Hft Hlen Hedges.
  { simpl. done. }
  simpl. destruct (decide (w ∉ visited)) as [Hw|Hw]; last first.
  { apply dec_stable in Hw. apply IH; [|done..|intros; apply Hedges; by right].
    destruct Inv. constructor; try done.
    intros v w' H1 H2 H3. destruct (bfs_expanded0 v w' H1 H2 H3) as [?|[-> Hin]]; [by left|].
    apply elem_of_cons in Hin as [->|?]; [by left|by right]. }
  assert (Hew : is_edge g u w) by (apply Hedges; by left).
  pose proof (bfs_extend_shortest _ _ _ _ _ _ _ _ _ _ Inv Hv Hft Hlen Hew Hw) as Hsh.
  destruct (decide (w = goal)) as [->|Hne]; [done|].
  assert (Hwdom : w ∈ dom g) by (by eapply Hcl).
  assert (bfs_inv g start goal L u pend (queue ++ [(w, p ++ [w])])
            (visited ∪ {[w]})) as Inv'.
  { destruct Inv. constructor.
    + apply Forall_app. split.
      * eapply Forall_impl; [done|]. intros e [? ?]. split; [done|set_solver].
      * constructor; [|done]. split; [done|set_solver].
    + destruct bfs_queue_levels0 as (q1 & q2 & -> & H1 & H2).
      exists q1, (q2 ++ [(w, p ++ [w])]). rewrite app_assoc. split_and!; [done..|].
      apply Forall_app. split; [done|]. constructor; [|done].
      simpl. rewrite length_app. simpl. lia.
    + intros q v H1 H2 H3. apply elem_of_union_l. eauto.
    + intros v w' H1 H2 H3. rewrite fmap_app in H2. simpl in H2.
      assert (v ≠ w) by (intros ->; apply H2; set_solver).
      assert (v ∈ visited) by set_solver.
      assert (v ∉ queue.*1) by set_solver.
      destruct (bfs_expanded0 v w' ltac:(done) ltac:(done) H3) as [?|[-> Hin]].
      * left. set_solver.
      * apply elem_of_cons in Hin as [->|?]; [left; set_solver|by right].
    + set_solver.
    + set_solver.
    + set_solver. }
  specialize (IH _ _ Inv' Hv Hft Hlen).
  destruct (bfs_scan goal p pend (queue ++ [(w, p ++ [w])]) (visited ∪ {[w]}))
    as [r|[queue' visited']].
  { apply IH. intros; apply Hedges; by right. }
  destruct IH as [Inv'' Hsz]; [intros; apply Hedges; by right|].
  split; [done|]. rewrite Hsz, length_app. simpl.
  rewrite (size_difference_fresh (dom g) visited w) by done. lia.
Qed.

(** When every queued path has [S (S L)] nodes, all nodes within [S L]
    edges of [start] have been visited: the invariant holds one level up. *)
Lemma bfs_inv_next_level g start goal L u queue visited :
  bfs_inv g start goal L u [] queue visited →
  Forall (λ e, length e.2 = S (S L)) queue →
  bfs_inv g start goal (S L) u [] queue visited.
Proof.
  intros Inv Hlev. destruct Inv. constructor; try done.
  - exists queue, []. by rewrite app_nil_r.
  - intros q v Hq Hft Hlen.
    destruct (decide (length q ≤ S L)) as [|Hgt]; [eauto|].
    assert (length q = S (S L)) as Hlq by lia. clear Hlen Hgt.
    destruct q as [|a q _] using rev_ind; [done|].
    rewrite length_app in Hlq. simpl in Hlq.
    destruct Hft as [Hh Hl]. rewrite last_snoc in Hl. injection Hl as ->.
    apply valid_path_snoc_inv in Hq as [Hq Hlast].
    destruct (last q) as [x|] eqn:Hx; [|destruct q using rev_ind;
      [simpl in Hlq; lia|by rewrite last_snoc in Hx]].
    assert (path_from_to q start x) as Hqft.
    { split; [|done]. destruct q; [done|]. exact Hh. }
    assert (x ∈ visited) as Hxv by (eapply bfs_near_visited0; [done..|lia]).
    assert (x ∉ queue.*1) as Hxq.
    { intros ([x' px] & -> & Hin)%list_elem_of_fmap. simpl in *.
      rewrite Forall_forall in Hlev, bfs_queue_shortest0.
      specialize (Hlev _ Hin). destruct (bfs_queue_shortest0 _ Hin) as [(_ & _ & Hmin) _].
      simpl in *. specialize (Hmin q Hq Hqft). lia. }
    destruct (bfs_expanded0 x v Hxv Hxq (Hlast x eq_refl)) as [?|[_ ?%elem_of_nil]]; done.
Qed.

Lemma bfs_inv_head g start goal L u c p queue visited :
  bfs_inv g start goal L u [] ((c, p) :: queue) visited →
  ∃ L' q1 q2,
    bfs_inv g start goal L' u [] ((c, p) :: queue) visited ∧
    length p = S L' ∧ queue = q1 ++ q2 ∧
    Forall (λ e, length e.2 = S L') q1 ∧
    Forall (λ e, length e.2 = S (S L')) q2.
Proof.
  intros Inv.
  pose proof (bfs_queue_levels _ _ _ _ _ _ _ _ Inv) as (q1 & q2 & Hq & H1 & H2).
  destruct q1 as [|e q1]; simpl in Hq.
  - subst q2. exists (S L), queue, [].
    apply Forall_cons in H2 as H2'. destruct H2' as [Hp Hqs].
    split_and!; [by apply bfs_inv_next_level|done|by rewrite app_nil_r|done|done].
  - injection Hq as <- ->. apply Forall_cons in H1 as [Hp H1].
    exists L, q1, q2. done.
Qed.

(** With an empty queue the visited set is closed under edges. *)
Lemma bfs_inv_exhausted g start goal L u visited q v :
  bfs_inv g start goal L u [] [] visited →
  valid_path g q → path_from_to q start v → v ∈ visited.
Proof.
  intros Inv. revert v. induction q as [|a q IH] using rev_ind; intros v Hq [Hh Hl]; [done|].
  rewrite last_snoc in Hl. injection Hl as ->.
  apply valid_path_snoc_inv in Hq as [Hq Hlast].
  destruct (last q) as [x|] eqn:Hx.
  - assert (x ∈ visited) as Hxv.
    { apply IH; [done|]. split; [|done]. destruct q; [done|]. exact Hh. }
    destruct (bfs_expanded _ _ _ _ _ _ _ _ Inv x v Hxv) as [?|[_ ?%elem_of_nil]];
      [simpl; apply not_elem_of_nil|by apply Hlast|done|done].
  - destruct q using rev_ind; [|by rewrite last_snoc in Hx].
    simpl in Hh. injection Hh as ->. by destruct Inv.
Qed.

Lemma bfs_loop_spec fuel g start goal L u queue visited :
  nodes_closed g →
  bfs_inv g start goal L u [] queue visited →
  (∃ q, valid_path g q ∧ path_from_to q start goal) →
  size (dom g ∖ visited) + length queue < fuel →
  ∃ p, bfs_loop fuel g goal queue visited = Ok (Some p) ∧
       shortest_path g start goal p.
Proof.
  intros Hcl. revert L u queue visited.
  induction fuel as [|fuel IH]; intros L u queue visited Inv Hreach Hfuel; [lia|].
  simpl. destruct queue as [|[c p] queue].
  { destruct Hreach as (q & Hq & Hft).
    destruct (bfs_goal_fresh _ _ _ _ _ _ _ _ Inv).
    by eapply bfs_inv_exhausted. }
  apply bfs_inv_head in Inv as (L' & q1 & q2 & Inv & Hlp & Hq & H1 & H2).
  clear L. rename L' into L.
  pose proof (bfs_queue_shortest _ _ _ _ _ _ _ _ Inv) as Hsh.
  apply Forall_cons in Hsh as [[(Hpv & Hpft & Hpmin) Hcv] Hsh]. simpl in *.
  assert (c ∈ dom g) as Hcdom by (by apply (bfs_visited_nodes _ _ _ _ _ _ _ _ Inv)).
  destruct (neighbors_in_dom _ _ Hcdom) as [nbrs Hn]. rewrite Hn. simpl.
  assert (bfs_inv g start goal L c (sorted nbrs) queue visited) as Inv'.
  { destruct Inv. constructor; try done.
    - by exists q1, q2.
    - intros v w Hv Hvq He. destruct (decide (v = c)) as [->|Hvc].
      + right. split; [done|]. apply elem_of_sorted. by apply (neighbors_Ok _ _ _ Hn).
      + left. destruct (bfs_expanded0 v w Hv) as [?|[_ ?%elem_of_nil]]; [|done..].
        rewrite fmap_cons. simpl. by intros [?|?]%elem_of_cons. }
  assert (Hedges : ∀ w, w ∈ sorted nbrs → is_edge g c w).
  { intros w Hw. rewrite elem_of_sorted in Hw. by apply (neighbors_Ok _ _ _ Hn). }
  pose proof (bfs_scan_spec g start goal L c p (sorted nbrs) queue visited
                Hcl Inv' Hpv Hpft Hlp Hedges) as Hscan.
  destruct (bfs_scan goal p (sorted nbrs) queue visited) as [r|[queue' visited']].
  { by exists r. }
  destruct Hscan as [Inv'' Hsz].
  apply (IH L c); [done..|]. simpl in Hfuel. lia.
Qed.

(** ** Rational arithmetic *)

Lemma Qc_eq_Qeq (a b : Qc) : a = b → (this a == this b)%Q.
Proof. by intros ->. Qed.

Lemma Qc_neq_Qeq (a b : Qc) : a ≠ b → ¬ (this a == this b)%Q.
Proof. intros H E. by apply H, Qc_is_canon. Qed.

(** Linear arithmetic on [Qc]: move the facts about numbers to [Q], where
    [lra] applies. *)
Ltac qc_to_Q :=
  repeat match goal with
  | H : @eq Qc _ _ |- _ => apply Qc_eq_Qeq in H; revert H
  | H : not (@eq Qc _ _) |- _ => apply Qc_neq_Qeq in H; revert H
  | H : Qcle _ _ |- _ => revert H
  | H : Qclt _ _ |- _ => revert H
  | H : not (Qcle _ _) |- _ => revert H
  | H : not (Qclt _ _) |- _ => revert H
  end;
  repeat match goal with H : _ |- _ => clear H end;
  intros; try apply Qc_is_canon;
  unfold Qcle, Qclt, Qcplus, Qcmult, Qcminus, Qcopp, Q2Qc in *; simpl in *;
  rewrite ?Qred_correct in *.

Ltac qc_arith := qc_to_Q; lra.
Ltac qc_nra := qc_to_Q; nra.

Lemma Qc_le_add_nonneg (a b w : Qc) : (a ≤ b → 0 ≤ w → a ≤ b + w)%Qc.
Proof. intros. qc_arith. Qed.

Lemma Qc_not_lt_le (a b : Qc) : ¬ (a < b)%Qc → (b ≤ a)%Qc.
Proof. intros. qc_arith. Qed.

Lemma Qc_lt_le (a b : Qc) : (a < b)%Qc → (a ≤ b)%Qc.
Proof. intros. qc_arith. Qed.

Lemma Qc_lt_irrefl (a : Qc) : ¬ (a < a)%Qc.
Proof. intros H. qc_arith. Qed.

Lemma Qc_add_le_mono_r (a b w : Qc) : (a ≤ b → a + w ≤ b + w)%Qc.
Proof. intros. qc_arith. Qed.

(** ** The heap *)

Lemma entry_le_true a b : entry_le a b = true → (a.1 ≤ b.1)%Qc.
Proof.
  unfold entry_le. destruct (decide (a.1 < b.1)%Qc) as [?|?]; [intros _; by apply Qc_lt_le|].
  destruct (decide (a.1 = b.1)) as [->|]; [|done]. intros _. apply Qcle_refl.
Qed.

Lemma entry_le_false a b : entry_le a b = false → (b.1 ≤ a.1)%Qc.
Proof.
  unfold entry_le. destruct (decide (a.1 < b.1)%Qc) as [?|?]; [done|].
  intros _. by apply Qc_not_lt_le.
Qed.

Lemma heap_min_spec x l :
  heap_min x l ∈ x :: l ∧ ∀ y, y ∈ x :: l → ((heap_min x l).1 ≤ y.1)%Qc.
Proof.
  unfold heap_min. revert x. induction l as [|z l IH]; intros x; simpl.
  { split; [by left|]. intros y ->%list_elem_of_singleton. apply Qcle_refl. }
  destruct (entry_le x z) eqn:E.
  - destruct (IH x) as [Hin Hmin]. split.
    + apply elem_of_cons in Hin as [->|?]; [by left|by do 2 right].
    + intros y [->|[->|Hy]%elem_of_cons]%elem_of_cons.
      * apply Hmin. by left.
      * eapply Qcle_trans; [apply Hmin; by left|by apply entry_le_true].
      * apply Hmin. by right.
  - destruct (IH z) as [Hin Hmin]. split.
    + by right.
    + intros y [->|[->|Hy]%elem_of_cons]%elem_of_cons.
      * eapply Qcle_trans; [apply Hmin; by left|by apply entry_le_false].
      * apply Hmin. by left.
      * apply Hmin. by right.
Qed.

Lemma remove_first_Permutation x l : x ∈ l → l ≡ₚ x :: remove_first x l.
Proof.
  induction l as [|y l IH]; [by intros ?%elem_of_nil|].
  simpl. destruct (decide (y = x)) as [->|Hne]; [done|].
  intros [->|Hin]%elem_of_cons; [done|].
  rewrite (IH Hin) at 1. apply perm_swap.
Qed.

Lemma heappop_Some h m h' :
  heappop h = Some (m, h') →
  h ≡ₚ m :: h' ∧ ∀ y, y ∈ h → (m.1 ≤ y.1)%Qc.
Proof.
  destruct h as [|x l]; [done|]. unfold heappop. intros [= <- <-].
  destruct (heap_min_spec x l) as [Hin Hmin]. split; [|done].
  by apply remove_first_Permutation.
Qed.

Lemma heappop_None h : heappop h = None → h = [].
Proof. by destruct h. Qed.

(** ** Edge and path weights *)

Lemma assoc_Some_elem {A} k (l : list (string * A)) a :
  assoc k l = Some a → (k, a) ∈ l.
Proof.
  induction l as [|[k' a'] l IH]; simpl; [done|].
  destruct (decide (k' = k)) as [->|]; [intros [= ->]; by left|].
  intros ?. right. auto.
Qed.

Lemma assoc_is_Some {A} k (l : list (string * A)) :
  k ∈ l.*1 → ∃ a, assoc k l = Some a.
Proof.
  induction l as [|[k' a'] l IH]; simpl; [by intros ?%elem_of_nil|].
  destruct (decide (k' = k)) as [->|Hne]; [eauto|].
  intros [?|?]%elem_of_cons; [congruence|auto].
Qed.

Lemma edge_data_Ok g u v :
  is_edge g u v →
  ∃ adj d, g !! u = Some adj ∧ (v, d) ∈ adj ∧ edge_data g u v = Ok d ∧
           edge_weight g u v = Some (get_weight d).
Proof.
  intros (adj & Hu & Hv). destruct (assoc_is_Some _ _ Hv) as [d Hd].
  exists adj, d. split_and!; [done|by apply assoc_Some_elem|..];
    unfold edge_weight, edge_data; by rewrite Hu, Hd.
Qed.

Lemma edge_weight_Some g u v :
  is_edge g u v → ∃ w, edge_weight g u v = Some w.
Proof.
  intros (adj & d & _ & _ & _ & Hd)%edge_data_Ok. eauto.
Qed.

Lemma edge_weight_nonneg g u v w :
  nonneg_weights g → edge_weight g u v = Some w → (0 ≤ w)%Qc.
Proof.
  intros Hnn. unfold edge_weight, edge_data.
  destruct (g !! u) as [adj|] eqn:Hu; [|done].
  destruct (assoc v adj) as [d|] eqn:Hd; [|done].
  intros [= <-]. eapply Hnn; [done|]. by apply assoc_Some_elem.
Qed.

Lemma path_weight_cons g a b p :
  path_weight g (a :: b :: p)
  = w ← edge_weight g a b; r ← path_weight g (b :: p); Some (w + r)%Qc.
Proof. done. Qed.

Lemma path_weight_snoc g p x v W w :
  last p = Some x → path_weight g p = Some W → edge_weight g x v = Some w →
  path_weight g (p ++ [v]) = Some (W + w)%Qc.
Proof.
  revert W. induction p as [|a [|b p] IH]; intros W Hl HW Hw; [done| |].
  - simpl in *. injection Hl as ->. injection HW as <-. rewrite Hw. simpl.
    f_equal. ring.
  - rewrite path_weight_cons in HW.
    change ((a :: b :: p) ++ [v]) with (a :: b :: (p ++ [v])).
    rewrite path_weight_cons.
    destruct (edge_weight g a b) as [w'|]; [|done].
    destruct (path_weight g (b :: p)) as [r|] eqn:Hr; [|done].
    injection HW as <-.
    change (b :: (p ++ [v])) with ((b :: p) ++ [v]).
    rewrite (IH r Hl eq_refl Hw). simpl. f_equal. ring.
Qed.

Lemma path_weight_snoc_inv g p x v W :
  last p = Some x → path_weight g (p ++ [v]) = Some W →
  ∃ W' w, path_weight g p = Some W' ∧ edge_weight g x v = Some w ∧
          W = (W' + w)%Qc.
Proof.
  revert W. induction p as [|a [|b p] IH]; intros W Hl HW; [done| |].
  - simpl in *. injection Hl as ->.
    destruct (edge_weight g x v) as [w|]; [|done]. simpl in HW.
    injection HW as <-. exists 0%Qc, w. split_and!; [done..|ring].
  - change ((a :: b :: p) ++ [v]) with (a :: b :: (p ++ [v])) in HW.
    rewrite path_weight_cons in HW. rewrite path_weight_cons.
    destruct (edge_weight g a b) as [w'|]; [|done].
    change (b :: (p ++ [v])) with ((b :: p) ++ [v]) in HW.
    destruct (path_weight g ((b :: p) ++ [v])) as [r|] eqn:Hr; [|done].
    injection HW as <-. destruct (IH r Hl eq_refl) as (W' & w & -> & Hw & ->).
    exists (w' + W')%Qc, w. split_and!; [done..|ring].
Qed.

Lemma valid_path_weight g p : valid_path g p → ∃ W, path_weight g p = Some W.
Proof.
  induction p as [|a [|b p] IH]; [by exists 0%Qc..|].
  intros [He Hp]. destruct (IH Hp) as [r Hr].
  destruct (edge_weight_Some _ _ _ He) as [w Hw].
  exists (w + r)%Qc. by rewrite path_weight_cons, Hw, Hr.
Qed.

(** ** Predecessor chains *)

Lemma chain_head prev v l : chain prev v l → head l = Some v.
Proof. by destruct 1. Qed.

Lemma chain_insert prev v l x y :
  chain prev v l → x ∉ l → chain (<[x:=y]> prev) v l.
Proof.
  induction 1 as [v Hv|v u l Hv Hc IH]; intros Hx.
  - apply chain_root. rewrite lookup_insert_ne; [done|]. set_solver.
  - apply chain_step with u; [|apply IH; set_solver].
    rewrite lookup_insert_ne; [done|]. set_solver.
Qed.

Lemma chain_dom prev v l x : chain prev v l → x ∈ l → x ∈ dom prev.
Proof.
  induction 1 as [v Hv|v u l Hv Hc IH].
  - intros ->%list_elem_of_singleton. apply elem_of_dom. eauto.
  - intros [->|?]%elem_of_cons; [apply elem_of_dom; eauto|auto].
Qed.

Lemma chain_walk_ends prev v l :
  chain prev v l → ∃ r, last l = Some r ∧ walk_ends prev v r.
Proof.
  induction 1 as [v Hv|v u l Hv Hc (r & Hl & Hw)].
  - exists v. split; [done|]. by constructor.
  - exists r. split; [|by econstructor].
    destruct l; [done|]. exact Hl.
Qed.

Lemma walk_ends_unique prev v r r' :
  walk_ends prev v r → walk_ends prev v r' → r = r'.
Proof.
  induction 1 as [c Hc|c u r Hc Hw IH]; inversion 1; subst; try congruence.
  apply IH. congruence.
Qed.

Lemma reconstruct_walk_chain fuel prev v l acc :
  chain prev v l → length l ≤ fuel →
  reconstruct_walk fuel prev (Some v) acc = Ok (acc ++ l).
Proof.
  intros Hc. revert fuel acc.
  induction Hc as [v Hv|v u l Hv Hc IH]; intros fuel acc Hf;
    (destruct fuel as [|fuel]; [simpl in Hf; lia|]); simpl;
    unfold getitem; rewrite Hv; simpl.
  - by destruct fuel.
  - rewrite IH by (simpl in Hf; lia). by rewrite <- app_assoc.
Qed.

Lemma reconstruct_path_chain prev start v l :
  chain prev v l → NoDup l →
  reconstruct_path prev start v
  = Ok (if decide (last l = Some start) then reverse l else []).
Proof.
  intros Hc Hnd. unfold reconstruct_path, reconstruct_path_fuel.
  assert (length l ≤ size prev) as Hlen.
  { rewrite <- size_dom. apply NoDup_length_le_size; [done|].
    intros x. by apply (chain_dom prev v). }
  rewrite (reconstruct_walk_chain _ _ _ l); [|done|lia].
  simpl. rewrite head_reverse.
  destruct (decide (last l = Some start)); done.
Qed.

(** ** Dijkstra: one relaxation *)

Lemma num_lt_Fin_true d x :
  num_lt (Fin d) x = true → ∀ d', x = Fin d' → (d < d')%Qc.
Proof. intros H d' ->. simpl in H. by apply bool_decide_eq_true in H. Qed.

Lemma num_lt_Fin_false d x :
  num_lt (Fin d) x = false → ∃ d', x = Fin d' ∧ (d' ≤ d)%Qc.
Proof.
  destruct x as [d'|]; simpl; [|done]. intros H%bool_decide_eq_false.
  exists d'. split; [done|]. by apply Qc_not_lt_le.
Qed.

Lemma dist_le_trans dist v d d' :
  dist_le dist v d → (d ≤ d')%Qc → dist_le dist v d'.
Proof. intros (dv & ? & ?) ?. exists dv. split; [done|]. by eapply Qcle_trans. Qed.

(** The neighbour at the head of [pend] is done with as soon as its recorded
    distance is at most the candidate. *)
Lemma dijk_inv_skip g s cur v pend st visited :
  dijk_inv g s cur (v :: pend) st visited →
  (nonneg_weights g → ∀ du w,
     distances st !! cur = Some (Fin du) → edge_weight g cur v = Some w →
     dist_le (distances st) v (du + w)%Qc) →
  dijk_inv g s cur pend st visited.
Proof.
  intros Inv Hv. destruct Inv. constructor; try done.
  intros Hnn u v' du w Hu Hdu He Hw.
  destruct (dj_relaxed0 Hnn u v' du w Hu Hdu He Hw) as [?|[-> Hin]]; [by left|].
  apply elem_of_cons in Hin as [->|?]; [left; by apply Hv|by right].
Qed.

Lemma relax_spec g s cur cd pend st visited v :
  nodes_closed g →
  dijk_inv g s cur (v :: pend) st visited →
  cur ∈ visited → distances st !! cur = Some (Fin cd) → is_edge g cur v →
  (nonneg_weights g → ∀ u du,
     u ∈ visited → distances st !! u = Some (Fin du) → (du ≤ cd)%Qc) →
  ∃ st', relax g visited cur cd st v = Ok st' ∧
         dijk_inv g s cur pend st' visited ∧
         length (priority_queue st') ≤ S (length (priority_queue st)) ∧
         (∀ u, u ∈ visited → distances st' !! u = distances st !! u).
Proof.
  intros Hcl Inv Hcur Hcd He Hmax. unfold relax.
  destruct (decide (v ∈ visited)) as [Hv|Hv].
  { exists st. split_and!; [done| |lia|done].
    apply (dijk_inv_skip _ _ _ v); [done|].
    intros Hnn du w Hdu Hw. rewrite Hcd in Hdu. injection Hdu as <-.
    destruct (dj_finite _ _ _ _ _ _ Inv v Hv) as [dv Hdv].
    exists dv. split; [done|]. apply Qc_le_add_nonneg; [by eapply Hmax|].
    by eapply edge_weight_nonneg. }
  destruct (edge_data_Ok _ _ _ He) as (adj & data & Hadj & Hdata & -> & Hw).
  cbn [mbind result_mbind result_bind]. set (weight := get_weight data) in *.
  assert (v ∈ dom g) as Hvdom by (by eapply Hcl).
  assert (∃ dn, distances st !! v = Some dn) as [dn Hdn].
  { apply elem_of_dom. by rewrite (dj_dom_dist _ _ _ _ _ _ Inv). }
  unfold getitem. rewrite Hdn. cbn [mbind result_mbind result_bind].
  destruct (num_lt (Fin (cd + weight)%Qc) dn) eqn:Hlt; last first.
  { exists st. split_and!; [done| |lia|done].
    apply (dijk_inv_skip _ _ _ v); [done|].
    intros Hnn du w Hdu Hw'. rewrite Hcd in Hdu. injection Hdu as <-.
    rewrite Hw in Hw'. injection Hw' as <-.
    apply num_lt_Fin_false in Hlt as (dv & -> & Hle). by exists dv. }
  eexists. split; [reflexivity|].
  assert (s ∈ visited) as Hs.
  { destruct (dj_source _ _ _ _ _ _ Inv) as (_ & _ & [?|[-> _]]); [done|].
    by apply elem_of_empty in Hcur. }
  assert (v ≠ s) as Hvs by (by intros ->).
  assert (v ≠ cur) as Hvc by (by intros ->).
  assert (Hold : ∀ d' , dist_le (distances st) v d' → (cd + weight ≤ d')%Qc).
  { intros d' (dv & Hdv & Hle). rewrite Hdn in Hdv. injection Hdv as ->.
    eapply Qcle_trans; [|done]. apply Qc_lt_le. by eapply num_lt_Fin_true. }
  assert (Hkeep : ∀ v' d', dist_le (distances st) v' d' →
            dist_le (<[v:=Fin (cd + weight)%Qc]> (distances st)) v' d').
  { intros v' d' Hle. destruct (decide (v' = v)) as [->|Hne].
    - exists (cd + weight)%Qc. rewrite lookup_insert_eq. split; [done|]. by apply Hold.
    - destruct Hle as (dv & ? & ?). exists dv. by rewrite lookup_insert_ne. }
  split_and!; [|simpl; lia|simpl; intros u Hu; rewrite lookup_insert_ne; [done|by intros ->]].
  destruct Inv. constructor; simpl.
  - rewrite dom_insert_L, dj_dom_dist0. set_solver.
  - rewrite dom_insert_L, dj_dom_prev0. set_solver.
  - done.
  - destruct dj_source0 as (? & ? & _). rewrite !lookup_insert_ne by done. auto.
  - intros v' u'. destruct (decide (v' = v)) as [->|Hne].
    + rewrite lookup_insert_eq. by intros [= <-].
    + rewrite lookup_insert_ne by done. apply dj_prev_some0.
  - intros v' u'. destruct (decide (v' = v)) as [->|Hne].
    + rewrite lookup_insert_eq. intros [= <-]. split; [done|].
      exists cd, weight. rewrite lookup_insert_ne by done.
      rewrite lookup_insert_eq. done.
    + rewrite lookup_insert_ne by done. intros Hp.
      destruct (dj_prev_edge0 _ _ Hp) as (? & du & w & ? & ? & ?).
      split; [done|]. exists du, w.
      rewrite !lookup_insert_ne; [done..|].
      intros <-. apply Hv. by eapply dj_prev_some0.
  - intros v'. destruct (decide (v' = v)) as [->|Hne].
    + by rewrite lookup_insert_eq.
    + rewrite !lookup_insert_ne by done. apply dj_prev_none0.
  - intros v' d'. unfold heappush. destruct (decide (v' = v)) as [->|Hne].
    + rewrite lookup_insert_eq. intros [= <-] _. by left.
    + rewrite lookup_insert_ne by done. intros ? ?. right. by apply dj_queued0.
  - intros d' v'. unfold heappush. intros [[= -> ->]|Hin]%elem_of_cons.
    + exists (cd + weight)%Qc. rewrite lookup_insert_eq. split; [done|]. apply Qcle_refl.
    + apply Hkeep. by apply dj_entries0.
  - intros v' Hv'. rewrite lookup_insert_ne by (by intros ->). by apply dj_finite0.
  - intros v' d' Hv'. rewrite lookup_insert_ne by (by intros ->). intros Hd'.
    destruct (dj_tree0 v' d' Hv' Hd') as (l & Hc & ? & Hsub & ? & ? & ?).
    exists l. split_and!; [|done..]. apply chain_insert; [done|].
    intros ?. apply Hv. by apply Hsub.
  - intros Hnn u du d' v' Hu. rewrite lookup_insert_ne by (by intros ->).
    unfold heappush. intros Hdu [[= -> ->]|Hin]%elem_of_cons.
    + apply Qc_le_add_nonneg; [by eapply Hmax|]. by eapply edge_weight_nonneg.
    + by eapply dj_monotone0.
  - intros Hnn u v' du w Hu. rewrite lookup_insert_ne by (by intros ->).
    intros Hdu He' Hw'.
    destruct (dj_relaxed0 Hnn u v' du w Hu Hdu He' Hw') as [?|[-> Hin]].
    + left. by apply Hkeep.
    + apply elem_of_cons in Hin as [->|?]; [left|by right].
      rewrite Hcd in Hdu. injection Hdu as <-.
      rewrite Hw in Hw'. injection Hw' as <-.
      exists (cd + weight)%Qc. rewrite lookup_insert_eq. split; [done|]. apply Qcle_refl.
Qed.

Lemma relax_all_spec g s cur cd nbrs st visited :
  nodes_closed g →
  dijk_inv g s cur nbrs st visited →
  cur ∈ visited → distances st !! cur = Some (Fin cd) →
  (∀ v, v ∈ nbrs → is_edge g cur v) →
  (nonneg_weights g → ∀ u du,
     u ∈ visited → distances st !! u = Some (Fin du) → (du ≤ cd)%Qc) →
  ∃ st', relax_all g visited cur cd st nbrs = Ok st' ∧
         dijk_inv g s cur [] st' visited ∧
         length (priority_queue st')
         ≤ length nbrs + length (priority_queue st).
Proof.
  intros Hcl. revert st.
  induction nbrs as [|v nbrs IH]; intros st Inv Hcur Hcd Hedges Hmax.
  { exists st. simpl. split_and!; [done..|lia]. }
  destruct (relax_spec g s cur cd nbrs st visited v Hcl Inv Hcur Hcd)
    as (st1 & Hr & Inv1 & Hlen1 & Hsame); [apply Hedges; by left|done|].
  simpl. rewrite Hr. cbn [mbind result_mbind result_bind].
  destruct (IH st1) as (st2 & Hr2 & Inv2 & Hlen2); [done|done| | | |].
  - by rewrite Hsame.
  - intros v' ?. apply Hedges. by right.
  - intros Hnn u du Hu. rewrite Hsame by done. by apply Hmax.
  - exists st2. split_and!; [done..|lia].
Qed.

(** ** Dijkstra: the main loop *)

Lemma remaining_empty g : remaining g ∅ = g.
Proof. unfold remaining. apply map_filter_id. intros i x _. set_solver. Qed.

Lemma degree_sum_remaining g visited c adj :
  g !! c = Some adj → c ∉ visited →
  degree_sum (remaining g visited)
  = length adj + degree_sum (remaining g (visited ∪ {[c]})).
Proof.
  intros Hc Hv. unfold degree_sum.
  rewrite (map_fold_delete_L _ _ c adj (remaining g visited)).
  - f_equal. f_equal. unfold remaining. rewrite <- map_filter_delete.
    apply map_eq. intros i. rewrite !map_lookup_filter.
    destruct (decide (i = c)) as [->|Hne].
    + rewrite lookup_delete_eq, Hc. simpl.
      rewrite option_guard_False; [done|]. set_solver.
    + rewrite lookup_delete_ne by done. destruct (g !! i) as [x|]; [|done].
      simpl. destruct (decide (i ∈ visited)).
      * rewrite !option_guard_False; [done|set_solver..].
      * rewrite !option_guard_True; [done|set_solver..].
  - intros. lia.
  - unfold remaining. apply map_lookup_filter_Some. split; [done|]. done.
Qed.

Lemma dijk_inv_init g s :
  s ∈ dom g → dijk_inv g s s [] (dijkstra_init g s) ∅.
Proof.
  intros Hs. unfold dijkstra_init. constructor; simpl.
  - rewrite dom_insert_L, dom_gset_to_gmap. set_solver.
  - by rewrite dom_gset_to_gmap.
  - set_solver.
  - rewrite lookup_insert_eq. split_and!; [done| |by right].
    by apply lookup_gset_to_gmap_Some.
  - by intros v u [_ ?]%lookup_gset_to_gmap_Some.
  - by intros v u [_ ?]%lookup_gset_to_gmap_Some.
  - intros v [Hv _]%lookup_gset_to_gmap_Some.
    destruct (decide (v = s)) as [|Hne]; [by left|right].
    rewrite lookup_insert_ne by done. by apply lookup_gset_to_gmap_Some.
  - intros v d. destruct (decide (v = s)) as [->|Hne].
    + rewrite lookup_insert_eq. intros [= <-] _. by left.
    + rewrite lookup_insert_ne by done. by intros [_ ?]%lookup_gset_to_gmap_Some.
  - intros d v [= -> ->]%list_elem_of_singleton. exists 0%Qc.
    rewrite lookup_insert_eq. split; [done|]. apply Qcle_refl.
  - set_solver.
  - set_solver.
  - set_solver.
  - set_solver.
Qed.

(** Popping a stale entry (its node is already finalised). *)
Lemma dijk_inv_pop_stale g s cur st visited cd c pq :
  dijk_inv g s cur [] st visited →
  priority_queue st ≡ₚ (cd, c) :: pq → c ∈ visited →
  dijk_inv g s cur [] (mkState (distances st) (previous st) pq) visited.
Proof.
  intros Inv Hpq Hc. destruct Inv. constructor; simpl; try done.
  - destruct dj_source0 as (? & ? & [?|[-> _]]); [|set_solver]. auto.
  - intros v d Hd Hv. specialize (dj_queued0 v d Hd Hv). rewrite Hpq in dj_queued0.
    apply elem_of_cons in dj_queued0 as [[= -> ->]|?]; done.
  - intros d v Hin. apply dj_entries0. rewrite Hpq. by right.
  - intros Hnn u du d v Hu Hdu Hin. eapply dj_monotone0; [done..|].
    rewrite Hpq. by right.
Qed.

(** Popping the entry of a node that is not yet finalised: the popped key is
    the node's recorded distance. *)
Lemma dijk_pop_fresh_distance g s cur st visited cd c pq :
  dijk_inv g s cur [] st visited →
  priority_queue st ≡ₚ (cd, c) :: pq →
  (∀ y, y ∈ priority_queue st → (cd ≤ y.1)%Qc) → c ∉ visited →
  distances st !! c = Some (Fin cd).
Proof.
  intros Inv Hpq Hmin Hc.
  destruct (dj_entries _ _ _ _ _ _ Inv cd c) as (dc & Hdc & Hle).
  { rewrite Hpq. by left. }
  pose proof (dj_queued _ _ _ _ _ _ Inv c dc Hdc Hc) as Hin.
  apply Hmin in Hin. simpl in Hin. rewrite Hdc. do 2 f_equal.
  by apply Qcle_antisym.
Qed.

Lemma dijk_inv_pop_fresh g s cur st visited cd c pq nbrs :
  dijk_inv g s cur [] st visited →
  priority_queue st ≡ₚ (cd, c) :: pq →
  (∀ y, y ∈ priority_queue st → (cd ≤ y.1)%Qc) → c ∉ visited →
  neighbors g c = Ok nbrs →
  dijk_inv g s c nbrs (mkState (distances st) (previous st) pq)
    (visited ∪ {[c]}).
Proof.
  intros Inv Hpq Hmin Hc Hn.
  pose proof (dijk_pop_fresh_distance _ _ _ _ _ _ _ _ Inv Hpq Hmin Hc) as Hcd.
  assert (c ∈ dom g) as Hcdom.
  { rewrite <- (dj_dom_dist _ _ _ _ _ _ Inv). apply elem_of_dom. eauto. }
  destruct Inv. constructor; simpl; try done.
  - set_solver.
  - destruct dj_source0 as (? & ? & [?|[-> Hq]]); split_and!; [done|done| |done|done|].
    + left. set_solver.
    + left. rewrite Hq in Hpq. apply Permutation_singleton_l in Hpq.
      injection Hpq as _ ->. set_solver.
  - intros v u Hp. apply elem_of_union_l. by eapply dj_prev_some0.
  - intros v d Hd Hv. assert (v ∉ visited) as Hv' by set_solver.
    specialize (dj_queued0 v d Hd Hv'). rewrite Hpq in dj_queued0.
    apply elem_of_cons in dj_queued0 as [[= -> ->]|?]; [set_solver|done].
  - intros d v Hin. apply dj_entries0. rewrite Hpq. by right.
  - intros v [Hv| ->%elem_of_singleton]%elem_of_union; eauto.
  - intros v d [Hv| ->%elem_of_singleton]%elem_of_union Hd.
    { destruct (dj_tree0 v d Hv Hd) as (l & ? & ? & Hsub & ? & ? & ?).
      exists l. split_and!; [done..| |done|done|done]. intros x Hx.
      apply elem_of_union_l. by apply Hsub. }
    rewrite Hcd in Hd. injection Hd as <-.
    assert (∃ x, previous st !! c = Some x) as [[u|] Hp].
    { apply elem_of_dom. by rewrite dj_dom_prev0. }
    + pose proof (dj_prev_some0 _ _ Hp) as Hu.
      destruct (dj_prev_edge0 _ _ Hp) as (He & du & w & Hdu & Hw & Hdc).
      rewrite Hcd in Hdc. injection Hdc as ->.
      destruct (dj_tree0 u du Hu Hdu) as (l & Hch & Hnd & Hsub & Hl & Hval & Hpw).
      pose proof (chain_head _ _ _ Hch) as Hhd.
      exists (c :: l). split_and!.
      * by apply chain_step with u.
      * apply NoDup_cons. split; [|done]. intros ?. apply Hc. by apply Hsub.
      * intros x [->|Hx]%elem_of_cons; [set_solver|].
        apply elem_of_union_l. by apply Hsub.
      * destruct l; [done|]. exact Hl.
      * rewrite reverse_cons. apply valid_path_snoc; [done|].
        intros x. rewrite last_reverse, Hhd. by intros [= <-].
      * rewrite reverse_cons. apply path_weight_snoc with u; [|done..].
        by rewrite last_reverse.
    + destruct (dj_prev_none0 _ Hp) as [->|Hinf]; [|congruence].
      destruct dj_source0 as (Hs0 & _ & _). rewrite Hcd in Hs0.
      injection Hs0 as ->. exists [s]. split_and!; try done.
      * by apply chain_root.
      * apply NoDup_singleton.
      * intros x ->%list_elem_of_singleton. set_solver.
  - intros Hnn u du d v [Hu| ->%elem_of_singleton]%elem_of_union Hdu Hin.
    + eapply dj_monotone0; [done..|]. rewrite Hpq. by right.
    + rewrite Hcd in Hdu. injection Hdu as <-.
      apply (Hmin (d, v)). rewrite Hpq. by right.
  - intros Hnn u v du w [Hu| ->%elem_of_singleton]%elem_of_union Hdu He Hw.
    + destruct (dj_relaxed0 Hnn u v du w Hu Hdu He Hw) as [?|[_ ?%elem_of_nil]];
        [by left|done].
    + right. split; [done|]. by apply (neighbors_Ok _ _ _ Hn).
Qed.

Lemma dijkstra_loop_spec fuel g s cur st visited :
  nodes_closed g →
  dijk_inv g s cur [] st visited →
  length (priority_queue st) + degree_sum (remaining g visited) < fuel →
  ∃ dist prev cur' visited',
    dijkstra_loop fuel g st visited = Ok (dist, prev) ∧
    dijk_inv g s cur' [] (mkState dist prev []) visited'.
Proof.
  intros Hcl. revert cur st visited.
  induction fuel as [|fuel IH]; intros cur st visited Inv Hfuel; [lia|].
  simpl. destruct (heappop (priority_queue st)) as [[[cd c] pq]|] eqn:Hpop.
  2:{ apply heappop_None in Hpop. exists (distances st), (previous st), cur, visited.
      split; [done|]. destruct st as [d p q]. simpl in *. by subst q. }
  apply heappop_Some in Hpop as [Hpq Hmin]. simpl in Hmin.
  assert (length (priority_queue st) = S (length pq)) as Hlen
    by (by rewrite Hpq).
  destruct (decide (c ∈ visited)) as [Hc|Hc].
  { apply (IH cur); [by eapply dijk_inv_pop_stale|simpl; lia]. }
  pose proof (dijk_pop_fresh_distance _ _ _ _ _ _ _ _ Inv Hpq Hmin Hc) as Hcd.
  unfold getitem. cbn [distances]. rewrite Hcd.
  cbn [mbind result_mbind result_bind].
  assert (num_lt (Fin cd) (Fin cd) = false) as ->.
  { simpl. apply bool_decide_eq_false. apply Qc_lt_irrefl. }
  assert (c ∈ dom g) as Hcdom.
  { rewrite <- (dj_dom_dist _ _ _ _ _ _ Inv). apply elem_of_dom. eauto. }
  pose proof Hcdom as [adj Hadj]%elem_of_dom.
  assert (neighbors g c = Ok adj.*1) as Hn by (unfold neighbors; by rewrite Hadj).
  rewrite Hn. cbn [mbind result_mbind result_bind].
  pose proof (dijk_inv_pop_fresh _ _ _ _ _ _ _ _ _ Inv Hpq Hmin Hc Hn) as Inv1.
  destruct (relax_all_spec g s c cd adj.*1 _ _ Hcl Inv1)
    as (st2 & -> & Inv2 & Hlen2).
  - set_solver.
  - done.
  - intros v Hv. by apply (neighbors_Ok _ _ _ Hn).
  - intros Hnn u du [Hu| ->%elem_of_singleton]%elem_of_union; simpl; intros Hdu.
    + eapply (dj_monotone _ _ _ _ _ _ Inv Hnn u du cd c); [done..|].
      rewrite Hpq. by left.
    + rewrite Hcd in Hdu. injection Hdu as <-. apply Qcle_refl.
  - cbn [mbind result_mbind result_bind]. apply (IH c); [done|].
    rewrite (degree_sum_remaining g visited c adj) in Hfuel by done.
    simpl in Hlen2. rewrite length_fmap in Hlen2. lia.
Qed.

(** ** Dijkstra: the result *)

Lemma dijk_inv_final g s cur dist prev visited :
  dijk_inv g s cur [] (mkState dist prev []) visited →
  dijkstra_post g s dist prev.
Proof.
  intros Inv.
  assert (Hvis : ∀ v d, dist !! v = Some (Fin d) → v ∈ visited).
  { intros v d Hd. destruct (decide (v ∈ visited)) as [|Hv]; [done|].
    by pose proof (dj_queued _ _ _ _ _ _ Inv v d Hd Hv) as ?%elem_of_nil. }
  destruct Inv; cbn [distances previous priority_queue] in *.
  constructor; try done.
  - by destruct dj_source0.
  - intros v d Hd.
    destruct (dj_tree0 v d (Hvis _ _ Hd) Hd) as (l & ? & ? & _ & ? & ? & ?).
    by exists l.
  - intros v Hv. split; [|intros ->; destruct dj_source0 as [Hs0 _]; congruence].
    assert (∃ x, prev !! v = Some x) as [[u|] Hp]; [|exfalso|done].
    { apply elem_of_dom. rewrite dj_dom_prev0, <- dj_dom_dist0.
      apply elem_of_dom. eauto. }
    destruct (dj_prev_edge0 _ _ Hp) as (_ & ? & ? & _ & _ & ?). congruence.
  - intros Hnn q. induction q as [|x q IH] using rev_ind; intros v W Hq [Hh Hl] HW; [done|].
    rewrite last_snoc in Hl. injection Hl as ->.
    destruct (last q) as [y|] eqn:Hy.
    + apply valid_path_snoc_inv in Hq as [Hq He]. specialize (He y Hy).
      destruct (path_weight_snoc_inv _ _ _ _ _ Hy HW) as (W' & w & HW' & Hw & ->).
      destruct (IH y W' Hq) as (dy & Hdy & Hle); [|done|].
      { split; [|done]. destruct q; [done|]. exact Hh. }
      destruct (dj_relaxed0 Hnn y v dy w (Hvis _ _ Hdy) Hdy He Hw)
        as [Hd|[_ ?%elem_of_nil]]; [|done].
      eapply dist_le_trans; [done|]. by apply Qc_add_le_mono_r.
    + destruct q using rev_ind; [|by rewrite last_snoc in Hy].
      simpl in *. injection Hh as ->. injection HW as <-.
      exists 0%Qc. split; [by destruct dj_source0|apply Qcle_refl].
Qed.

(** [dijkstra] returns, and its result meets [dijkstra_post]. *)
Lemma dijkstra_run g s :
  nodes_closed g → s ∈ dom g →
  ∃ dist prev, dijkstra g s = Ok (dist, prev) ∧ dijkstra_post g s dist prev.
Proof.
  intros Hcl Hs. unfold dijkstra, dijkstra_fuel.
  destruct (dijkstra_loop_spec (S (S (degree_sum g))) g s s
              (dijkstra_init g s) ∅ Hcl (dijk_inv_init g s Hs))
    as (dist & prev & cur & visited & Hrun & Inv).
  { rewrite remaining_empty. simpl. lia. }
  exists dist, prev. split; [done|]. by eapply dijk_inv_final.
Qed.

(** A source that is not a node makes [graph.neighbors] raise. *)
Lemma dijkstra_loop_absent fuel g st visited cd c pq :
  heappop (priority_queue st) = Some ((cd, c), pq) → c ∉ visited →
  distances st !! c = Some (Fin cd) → g !! c = None →
  dijkstra_loop (S fuel) g st visited = Raise NetworkXError.
Proof.
  intros Hpop Hc Hd Hg. simpl. rewrite Hpop. rewrite decide_False by done.
  unfold getitem. cbn [distances]. rewrite Hd.
  cbn [mbind result_mbind result_bind].
  assert (num_lt (Fin cd) (Fin cd) = false) as ->.
  { simpl. apply bool_decide_eq_false. apply Qc_lt_irrefl. }
  unfold neighbors. by rewrite Hg.
Qed.

Lemma dijkstra_absent_source g s :
  s ∉ dom g → dijkstra g s = Raise NetworkXError.
Proof.
  intros Hs. unfold dijkstra, dijkstra_fuel.
  apply dijkstra_loop_absent with 0%Qc s [].
  - unfold dijkstra_init, heappop, heap_min. simpl. by rewrite decide_True.
  - set_solver.
  - unfold dijkstra_init. simpl. apply lookup_insert_eq.
  - by apply not_elem_of_dom.
Qed.

(** Every node has a predecessor chain in the returned map. *)
Lemma dijkstra_post_chain g s dist prev v :
  dijkstra_post g s dist prev → v ∈ dom g →
  ∃ l, chain prev v l ∧ NoDup l ∧
       (∀ d, dist !! v = Some (Fin d) →
          last l = Some s ∧ valid_path g (reverse l) ∧
          path_weight g (reverse l) = Some d) ∧
       (dist !! v = Some Infinity → l = [v] ∧ v ≠ s).
Proof.
  intros Post Hv. rewrite <- (dp_dom_dist _ _ _ _ Post) in Hv.
  apply elem_of_dom in Hv as [[d|] Hd].
  - destruct (dp_finite _ _ _ _ Post v d Hd) as (l & ? & ? & ? & ? & ?).
    exists l. split_and!; [done..| |congruence].
    intros d' Hd'. rewrite Hd in Hd'. by injection Hd' as <-.
  - destruct (dp_infinite _ _ _ _ Post v Hd) as [Hp Hne].
    exists [v]. split_and!; [by apply chain_root|apply NoDup_singleton| |done].
    intros d' Hd'. congruence.
Qed.

(** ** BFS from the initial state *)

Lemma bfs_inv_init g start goal :
  start ∈ dom g → start ≠ goal →
  bfs_inv g start goal 0 start [] [(start, [start])] {[start]}.
Proof.
  intros Hs Hne. constructor.
  - constructor; [|done]. simpl. split; [|set_solver]. split_and!; [done..|].
    intros q _ Hq%path_from_to_nonempty. simpl. lia.
  - exists [(start, [start])], []. split_and!; [done|by repeat constructor|constructor].
  - intros q v _ [Hh Hl] Hlen. destruct q as [|x [|y q]]; simpl in *; [done| |lia].
    injection Hh as ->. injection Hl as ->. set_solver.
  - intros v w ->%elem_of_singleton Hv. destruct Hv. simpl. by left.
  - set_solver.
  - set_solver.
  - set_solver.
Qed.

Lemma path_end_in_dom g q a b :
  nodes_closed g → a ∈ dom g → valid_path g q → path_from_to q a b →
  b ∈ dom g.
Proof.
  intros Hcl Ha Hq [Hh Hl]. destruct q as [|x q _] using rev_ind; [done|].
  rewrite last_snoc in Hl. injection Hl as ->.
  apply valid_path_snoc_inv in Hq as [_ He].
  destruct (last q) as [y|] eqn:Hy; [by eapply Hcl, He|].
  destruct q using rev_ind; [|by rewrite last_snoc in Hy].
  simpl in Hh. by injection Hh as ->.
Qed.

Lemma bfs_path_spec g start goal q :
  nodes_closed g → start ∈ dom g →
  valid_path g q → path_from_to q start goal →
  ∃ p, bfs_path g start goal = Ok (Some p) ∧ shortest_path g start goal p.
Proof.
  intros Hcl Hs Hq Hft.
  pose proof (path_end_in_dom _ _ _ _ Hcl Hs Hq Hft) as Hg.
  unfold bfs_path, bfs_path_fuel.
  rewrite decide_False by (by intros [?|?]).
  destruct (decide (start = goal)) as [->|Hne].
  { exists [goal]. split; [done|]. split_and!; [done..|].
    intros q' _ Hq'%path_from_to_nonempty. simpl. lia. }
  apply (bfs_loop_spec _ g start goal 0 start); [done| |by eauto|].
  - by apply bfs_inv_init.
  - pose proof (size_difference_fresh (dom g) ∅ start Hs) as Hsz.
    rewrite difference_empty_L, union_empty_l_L, size_dom in Hsz.
    rewrite Hsz by set_solver. simpl. lia.
Qed.

(** ** Recursive DFS with an absent endpoint *)

Lemma dfs_path_absent depth g start goal :
  nodes_closed g → start ∉ dom g ∨ goal ∉ dom g → start ≠ goal →
  size g < depth → dfs_path depth g start goal = Ok None.
Proof.
  intros Hcl Habs Hne Hd. unfold dfs_path.
  destruct (dfs_path_rec_returns depth g start goal [])
    as [[r|] Hr]; [apply NoDup_nil_2|set_solver|set_solver|simpl; lia| |done].
  exfalso. destruct (dfs_path_rec_Some _ _ _ _ _ _ Hr) as (rest & -> & Hl & Hv & _).
  simpl in *. specialize (Hv I).
  destruct depth as [|depth]; [done|]. simpl in Hr.
  rewrite decide_False in Hr by done.
  destruct (decide (start ∉ dom g)) as [|Hs]; [done|]. apply dec_stable in Hs.
  destruct Habs as [?|Hg]; [done|]. apply Hg.
  apply (path_end_in_dom g (start :: rest) start goal); done.
Qed.

Lemma dfs_path_iterative_absent g start goal :
  start ∉ dom g ∨ goal ∉ dom g → dfs_path_iterative g start goal = Ok None.
Proof.
  intros H. unfold dfs_path_iterative, dfs_path_iterative_fuel.
  by rewrite decide_True.
Qed.

(** ** Iterative DFS: the iteration budget suffices *)

Lemma dfs_push_length (visited : gset string) (path : list string)
    (st : list (string * list string)) (nbrs : list string) :
  length (foldl (λ st neighbor,
                   if decide (neighbor ∉ visited)
                   then (neighbor, path ++ [neighbor]) :: st else st) st nbrs)
  ≤ length st + length nbrs.
Proof.
  revert st. induction nbrs as [|nb nbrs IH]; intros st; simpl; [lia|].
  etrans; [apply IH|]. destruct (decide (nb ∉ visited)); simpl; lia.
Qed.

Lemma dfs_push_dom (X visited : gset string) (path : list string)
    (st : list (string * list string)) (nbrs : list string) :
  Forall (λ e, e.1 ∈ X) st → (∀ x, x ∈ nbrs → x ∈ X) →
  Forall (λ e, e.1 ∈ X)
    (foldl (λ st neighbor,
              if decide (neighbor ∉ visited)
              then (neighbor, path ++ [neighbor]) :: st else st) st nbrs).
Proof.
  revert st. induction nbrs as [|nb nbrs IH]; intros st Hst Hn; [done|].
  simpl. apply IH; [|intros x Hx; apply Hn; by right].
  destruct (decide (nb ∉ visited)); [|done].
  constructor; [|done]. apply Hn. by left.
Qed.

Lemma dfs_iter_loop_returns fuel g goal stack visited :
  nodes_closed g → Forall (λ e, e.1 ∈ dom g) stack →
  length stack + degree_sum (remaining g visited) < fuel →
  ∃ r, dfs_iter_loop fuel g goal stack visited = Ok r.
Proof.
  intros Hcl. revert stack visited.
  induction fuel as [|fuel IH]; intros stack visited Hst Hfuel; [lia|].
  simpl. destruct stack as [|[c p] stack]; [eauto|].
  apply Forall_cons in Hst as [Hc Hst]. simpl in Hc, Hfuel.
  destruct (decide (c = goal)); [eauto|].
  destruct (decide (c ∈ visited)) as [|Hv]; [apply IH; [done|lia]|].
  pose proof Hc as [adj Hadj]%elem_of_dom.
  unfold neighbors. rewrite Hadj. simpl. apply IH.
  - apply dfs_push_dom; [done|]. intros x Hx.
    rewrite elem_of_sorted_reverse in Hx. apply (Hcl c). by exists adj.
  - rewrite (degree_sum_remaining g visited c adj) in Hfuel by done.
    pose proof (dfs_push_length (visited ∪ {[c]}) p stack (sorted_reverse adj.*1)) as Hlen.
    assert (length (sorted_reverse adj.*1) = length adj) as E.
    { unfold sorted_reverse. rewrite length_reverse.
      rewrite (Permutation_length (sorted_Permutation _)). apply length_fmap. }
    rewrite E in Hlen. lia.
Qed.

Lemma dfs_path_iterative_returns g start goal :
  nodes_closed g → ∃ r, dfs_path_iterative g start goal = Ok r.
Proof.
  intros Hcl. unfold dfs_path_iterative, dfs_path_iterative_fuel.
  destruct (decide (start ∉ dom g ∨ goal ∉ dom g)) as [|Hn]; [eauto|].
  apply dfs_iter_loop_returns; [done| |].
  - constructor; [|done]. simpl. apply dec_stable. intros ?. apply Hn. by left.
  - rewrite remaining_empty. simpl. lia.
Qed.

(** ** Consequences of the post-condition *)

Lemma dijkstra_post_finite g s dist prev v d :
  dijkstra_post g s dist prev → dist !! v = Some (Fin d) →
  ∃ p, reconstruct_path prev s v = Ok p ∧ valid_path g p ∧
       path_from_to p s v ∧ path_weight g p = Some d.
Proof.
  intros Post Hd.
  destruct (dp_finite _ _ _ _ Post v d Hd) as (l & Hc & Hnd & Hl & Hv & Hw).
  exists (reverse l). split_and!; [|done| |done].
  - rewrite (reconstruct_path_chain _ _ _ l) by done. by rewrite decide_True.
  - split; [by rewrite head_reverse|].
    rewrite last_reverse. by eapply chain_head.
Qed.

Lemma dijkstra_post_reached g s dist prev q v :
  dijkstra_post g s dist prev → nonneg_weights g →
  valid_path g q → path_from_to q s v →
  ∃ d, dist !! v = Some (Fin d) ∧
       ∀ W, path_weight g q = Some W → (d ≤ W)%Qc.
Proof.
  intros Post Hnn Hq Hft. destruct (valid_path_weight _ _ Hq) as [W HW].
  destruct (dp_optimal _ _ _ _ Post Hnn q v W Hq Hft HW) as (d & Hd & Hle).
  exists d. split; [done|]. intros W' HW'. congruence.
Qed.

Lemma unweighted_nonneg g : unweighted g → nonneg_weights g.
Proof.
  intros Hu u adj v d Hadj Hin. unfold get_weight.
  rewrite (Hu u adj v d Hadj Hin). simpl. done.
Qed.

Lemma edge_weight_unweighted g u v :
  unweighted g → is_edge g u v → edge_weight g u v = Some 1%Qc.
Proof.
  intros Hu (adj & d & Hadj & Hin & _ & ->)%edge_data_Ok.
  unfold get_weight. by rewrite (Hu u adj v d Hadj Hin).
Qed.

Lemma path_weight_unweighted g p :
  unweighted g → valid_path g p →
  path_weight g p = Some (Qc_of_Z (Z.of_nat (edge_count p))).
Proof.
  intros Hu. induction p as [|a [|b p] IH]; intros Hp.
  - cbn [path_weight]. f_equal. symmetry. apply Z2Qc_inj_0.
  - cbn [path_weight]. f_equal. symmetry. apply Z2Qc_inj_0.
  - destruct Hp as [He Hp]. rewrite path_weight_cons.
    rewrite (edge_weight_unweighted _ _ _ Hu He), (IH Hp). simpl.
    f_equal. unfold edge_count. simpl length.
    replace (Z.of_nat (S (S (length p)) - 1)) with (1 + Z.of_nat (S (length p) - 1))%Z by lia.
    by rewrite Z2Qc_inj_add, Z2Qc_inj_1.
Qed.

(** ** Weight assignment *)

Lemma Qfloor_Qc_of_Z n : Qfloor (Qc_of_Z n) = n.
Proof. unfold Qc_of_Z. simpl. apply Qfloor_Z. Qed.

Lemma round_half_even_Z n : round_half_even (Qc_of_Z n) = n.
Proof.
  unfold round_half_even. rewrite Qfloor_Qc_of_Z.
  assert (Qc_of_Z n - Qc_of_Z n = 0)%Qc as -> by ring.
  rewrite decide_True; [done|]. apply (bool_decide_unpack _). by vm_compute.
Qed.

Lemma Qc_ten_nonzero : Qc_of_Z 10 ≠ 0%Qc.
Proof. intros H. rewrite <- Z2Qc_inj_0 in H. by apply Z2Qc_inj in H. Qed.

(** Rounding a number of tenths to one decimal place changes nothing. *)
Lemma round1_tenths (m : Z) :
  round1 (Q2Qc (5 # 2) + Qc_of_Z m / Qc_of_Z 10)%Qc
  = (Qc_of_Z (25 + m) / Qc_of_Z 10)%Qc.
Proof.
  unfold round1. f_equal.
  assert ((Q2Qc (5 # 2) + Qc_of_Z m / Qc_of_Z 10) * Qc_of_Z 10
          = Qc_of_Z (25 + m))%Qc as ->.
  { rewrite Z2Qc_inj_add.
    assert (Qc_of_Z 25 = Q2Qc (5 # 2) * Qc_of_Z 10)%Qc as ->
      by (apply Qc_is_canon; reflexivity).
    field. apply Qc_ten_nonzero. }
  by rewrite round_half_even_Z.
Qed.

Lemma tenths_le (a b : Z) :
  (a ≤ b)%Z → (Qc_of_Z a / Qc_of_Z 10 ≤ Qc_of_Z b / Qc_of_Z 10)%Qc.
Proof.
  intros H. unfold Qcdiv. apply Qcmult_le_compat_r.
  - exact (proj1 (Z2Qc_inj_le a b) H).
  - apply (bool_decide_unpack _). by vm_compute.
Qed.

Lemma tenths_lt (a b : Z) :
  (a < b)%Z → (Qc_of_Z a / Qc_of_Z 10 < Qc_of_Z b / Qc_of_Z 10)%Qc.
Proof.
  intros H. unfold Qcdiv. apply Qcmult_lt_compat_r.
  - apply (bool_decide_unpack _). by vm_compute.
  - exact (proj1 (Z2Qc_inj_lt a b) H).
Qed.

Lemma travel_time_transfer hash u v d :
  line d = Some "transfer" → travel_time hash u v d = Qc_of_Z 5.
Proof. intros H. unfold travel_time. rewrite H. reflexivity. Qed.

Lemma travel_time_other hash u v d :
  line d ≠ Some "transfer" →
  travel_time hash u v d = round1 (Q2Qc (5 # 2) + variation hash u v)%Qc ∧
  travel_time hash u v d
  = (Qc_of_Z (25 + (hash u + hash v) `mod` 10) / Qc_of_Z 10)%Qc.
Proof.
  intros H. unfold travel_time. rewrite decide_False.
  - split; [done|]. unfold variation. apply round1_tenths.
  - destruct (line d) as [l|]; simpl; [congruence|done].
Qed.

Lemma add_travel_times_lookup hash G u :
  add_travel_times hash G !! u
  = (fmap (λ vd : string * EdgeData,
             (vd.1, mkEdge (line vd.2) (Some (travel_time hash u vd.1 vd.2)))))
    <$> G !! u.
Proof.
  unfold add_travel_times. rewrite map_lookup_imap.
  by destruct (G !! u).
Qed.

Lemma add_travel_times_entry hash G u adj v d :
  add_travel_times hash G !! u = Some adj → (v, d) ∈ adj →
  ∃ adj0 d0, G !! u = Some adj0 ∧ (v, d0) ∈ adj0 ∧
             line d = line d0 ∧ weight d = Some (travel_time hash u v d0).
Proof.
  rewrite add_travel_times_lookup. destruct (G !! u) as [adj0|]; [|done].
  simpl. intros [= <-] ([v0 d0] & [= -> ->] & Hin)%list_elem_of_fmap.
  by exists adj0, d0.
Qed.


(** ** Scaling the weights *)

Section Scaling.
Variable k : Qc.
Hypothesis k_pos : (0 < k)%Qc.

Lemma Qc_scale_lt (a b : Qc) : (k * a < k * b)%Qc ↔ (a < b)%Qc.
Proof using k_pos. split; intros; qc_nra. Qed.

Lemma Qc_scale_inj (a b : Qc) : (k * a = k * b)%Qc ↔ a = b.
Proof using k_pos. split; [intros; qc_nra|by intros ->]. Qed.

Lemma scale_entry_inj a b : scale_entry k a = scale_entry k b ↔ a = b.
Proof using k_pos.
  destruct a as [a1 a2], b as [b1 b2]. unfold scale_entry. cbn [fst snd].
  split; [|by intros [= -> ->]]. intros H.
  pose proof (f_equal fst H) as H1. pose proof (f_equal snd H) as H2.
  cbn [fst snd] in H1, H2. subst b2. f_equal. by apply Qc_scale_inj.
Qed.

Lemma entry_le_scale a b :
  entry_le (scale_entry k a) (scale_entry k b) = entry_le a b.
Proof using k_pos.
  unfold entry_le, scale_entry. simpl.
  destruct (decide (a.1 < b.1)%Qc) as [Hlt|Hlt].
  - rewrite decide_True; [done|]. by apply Qc_scale_lt.
  - rewrite decide_False by (by rewrite Qc_scale_lt).
    destruct (decide (a.1 = b.1)) as [Heq|Hne].
    + rewrite decide_True; [done|]. by rewrite Heq.
    + rewrite decide_False; [done|]. by rewrite Qc_scale_inj.
Qed.

Lemma heap_min_scale x l :
  heap_min (scale_entry k x) (scale_entry k <$> l)
  = scale_entry k (heap_min x l).
Proof using k_pos.
  unfold heap_min. revert x. induction l as [|y l IH]; intros x; [done|].
  rewrite fmap_cons. cbn [foldl]. rewrite entry_le_scale.
  destruct (entry_le x y); apply IH.
Qed.

Lemma remove_first_scale m l :
  remove_first (scale_entry k m) (scale_entry k <$> l)
  = scale_entry k <$> remove_first m l.
Proof using k_pos.
  induction l as [|y l IH]; [done|]. rewrite fmap_cons. cbn [remove_first].
  destruct (decide (y = m)) as [->|Hne].
  - by rewrite decide_True.
  - rewrite decide_False by (by rewrite scale_entry_inj).
    rewrite fmap_cons. by rewrite IH.
Qed.

Lemma heappop_scale (h : list entry) :
  heappop (scale_entry k <$> h)
  = prod_map (scale_entry k) (fmap (M := list) (scale_entry k)) <$> heappop h.
Proof using k_pos.
  destruct h as [|x l]; [done|]. rewrite fmap_cons. cbn [heappop].
  rewrite heap_min_scale. rewrite <- fmap_cons.
  by rewrite remove_first_scale.
Qed.

Lemma neighbors_scale g u : neighbors (scale_weights k g) u = neighbors g u.
Proof.
  unfold neighbors, scale_weights. rewrite lookup_fmap.
  destruct (g !! u) as [adj|]; simpl; [|done]. f_equal.
  rewrite <- list_fmap_compose. apply list_fmap_ext. by intros i [v d].
Qed.

Lemma assoc_fmap {A B} (f : A → B) v (l : list (string * A)) :
  assoc v (prod_map id f <$> l) = f <$> assoc v l.
Proof.
  induction l as [|[v' a] l IH]; [done|]. simpl.
  destruct (decide (v' = v)); [done|apply IH].
Qed.

Lemma edge_data_scale g u v :
  edge_data (scale_weights k g) u v = result_map (scale_edge k) (edge_data g u v).
Proof.
  unfold edge_data, scale_weights. rewrite lookup_fmap.
  destruct (g !! u) as [adj|]; simpl; [|done]. rewrite assoc_fmap.
  by destruct (assoc v adj).
Qed.

Lemma getitem_scale (m : gmap string num) v :
  getitem (scale_num k <$> m) v = result_map (scale_num k) (getitem m v).
Proof. unfold getitem. rewrite lookup_fmap. by destruct (m !! v). Qed.

Lemma num_lt_scale a b : num_lt (scale_num k a) (scale_num k b) = num_lt a b.
Proof using k_pos.
  destruct a as [a|], b as [b|]; simpl; [|done..].
  apply bool_decide_ext, Qc_scale_lt.
Qed.

Lemma relax_scale g visited cur cd st v :
  relax (scale_weights k g) visited cur (k * cd)%Qc (scale_state k st) v
  = result_map (scale_state k) (relax g visited cur cd st v).
Proof using k_pos.
  unfold relax. destruct (decide (v ∈ visited)); [done|].
  rewrite edge_data_scale. destruct (edge_data g cur v) as [d| |]; [|done..].
  cbn [result_map mbind result_mbind result_bind].
  cbn [scale_state distances previous priority_queue].
  rewrite getitem_scale. destruct (getitem (distances st) v) as [dn| |]; [|done..].
  cbn [result_map mbind result_mbind result_bind].
  assert (k * cd + get_weight (scale_edge k d) = k * (cd + get_weight d))%Qc as ->.
  { unfold scale_edge, get_weight at 1. simpl. ring. }
  change (Fin (k * (cd + get_weight d))%Qc) with (scale_num k (Fin (cd + get_weight d)%Qc)).
  rewrite num_lt_scale. destruct (num_lt _ dn); [|done].
  cbn [result_map]. unfold scale_state. cbn [distances previous priority_queue].
  by rewrite fmap_insert.
Qed.

Lemma relax_all_scale g visited cur cd st nbrs :
  relax_all (scale_weights k g) visited cur (k * cd)%Qc (scale_state k st) nbrs
  = result_map (scale_state k) (relax_all g visited cur cd st nbrs).
Proof using k_pos.
  revert st. induction nbrs as [|v nbrs IH]; intros st; [done|].
  cbn [relax_all]. rewrite relax_scale.
  destruct (relax g visited cur cd st v) as [st'| |]; [|done..].
  cbn [result_map mbind result_mbind result_bind]. apply IH.
Qed.

Lemma dijkstra_loop_scale fuel g st visited :
  dijkstra_loop fuel (scale_weights k g) (scale_state k st) visited
  = result_map (scale_result k) (dijkstra_loop fuel g st visited).
Proof using k_pos.
  revert st visited. induction fuel as [|fuel IH]; intros st visited; [done|].
  cbn [dijkstra_loop]. cbn [scale_state distances previous priority_queue].
  rewrite heappop_scale.
  destruct (heappop (priority_queue st)) as [[[cd c] pq]|]; [|done].
  cbn [fmap option_fmap option_map prod_map fst snd scale_entry].
  change (mkState (scale_num k <$> distances st) (previous st) (scale_entry k <$> pq))
    with (scale_state k (mkState (distances st) (previous st) pq)).
  destruct (decide (c ∈ visited)); [apply IH|].
  cbn [scale_state distances previous priority_queue].
  rewrite getitem_scale. destruct (getitem (distances st) c) as [dc| |]; [|done..].
  cbn [result_map mbind result_mbind result_bind].
  change (Fin (k * cd)%Qc) with (scale_num k (Fin cd)). rewrite num_lt_scale.
  change (mkState (scale_num k <$> distances st) (previous st) (scale_entry k <$> pq))
    with (scale_state k (mkState (distances st) (previous st) pq)).
  destruct (num_lt dc (Fin cd)); [apply IH|].
  rewrite neighbors_scale. destruct (neighbors g c) as [nbrs| |]; [|done..].
  cbn [mbind result_mbind result_bind]. rewrite relax_all_scale.
  destruct (relax_all g _ c cd _ nbrs) as [st'| |]; [|done..].
  cbn [result_map mbind result_mbind result_bind]. apply IH.
Qed.

Lemma degree_sum_scale g : degree_sum (scale_weights k g) = degree_sum g.
Proof.
  unfold degree_sum, scale_weights. rewrite !map_fold_foldr, map_to_list_fmap.
  induction (map_to_list g) as [|[u adj] l IH]; [done|].
  rewrite fmap_cons. cbn [foldr uncurry prod_map fst snd id].
  by rewrite length_fmap, IH.
Qed.

Lemma dijkstra_init_scale g s :
  dijkstra_init (scale_weights k g) s = scale_state k (dijkstra_init g s).
Proof.
  unfold dijkstra_init, scale_state, scale_weights.
  cbn [distances previous priority_queue]. rewrite dom_fmap_L.
  rewrite fmap_insert, fmap_gset_to_gmap. simpl.
  assert (k * 0 = 0)%Qc as E by ring.
  unfold scale_entry. simpl. by rewrite E.
Qed.

Lemma dijkstra_scale_run g s :
  dijkstra (scale_weights k g) s = result_map (scale_result k) (dijkstra g s).
Proof using k_pos.
  unfold dijkstra, dijkstra_fuel.
  rewrite degree_sum_scale, dijkstra_init_scale. apply dijkstra_loop_scale.
Qed.

End Scaling.

(** ** The scenarios of the specification *)

Example chain_paths :
  bfs_path chain_graph "A" "D" = Ok (Some ["A"; "B"; "C"; "D"]) ∧
  dfs_path 5 chain_graph "A" "D" = Ok (Some ["A"; "B"; "C"; "D"]) ∧
  dfs_path_iterative chain_graph "A" "D" = Ok (Some ["A"; "B"; "C"; "D"]).
Proof. split_and!; reflexivity. Qed.

Example star_bfs : bfs_path star_graph "P" "Q" = Ok (Some ["P"; "X"; "Q"]).
Proof. reflexivity. Qed.

Example same_endpoint :
  bfs_path star_graph "X" "X" = Ok (Some ["X"]) ∧
  dfs_path 5 star_graph "X" "X" = Ok (Some ["X"]) ∧
  bfs_path star_graph "missing" "Q" = Ok None.
Proof. split_and!; reflexivity. Qed.

Example triangle_dijkstra :
  ∃ dist prev,
    dijkstra triangle_graph "A" = Ok (dist, prev) ∧
    dist !! "C" = Some (Fin (Qc_of_Z 2)) ∧
    reconstruct_path prev "A" "C" = Ok ["A"; "B"; "C"].
Proof.
  eexists _, _. split; [vm_compute; reflexivity|].
  split; [apply (bool_decide_unpack _); vm_compute; exact I|].
  vm_compute. reflexivity.
Qed.

(** * Main results *)

(** C2. Whenever some path of the graph leads from [start] to [goal],
    [bfs_path] returns a path from [start] to [goal] that has no more edges
    than any path of the graph between them. *)
Theorem bfs_path_shortest g start goal q :
  nodes_closed g → start ∈ dom g →
  valid_path g q → path_from_to q start goal →
  ∃ p, bfs_path g start goal = Ok (Some p) ∧
       valid_path g p ∧ path_from_to p start goal ∧
       ∀ q', valid_path g q' → path_from_to q' start goal →
             edge_count p ≤ edge_count q'.
Proof.
  intros Hcl Hs Hq Hft.
  destruct (bfs_path_spec g start goal q Hcl Hs Hq Hft)
    as (p & Hrun & Hv & Hp & Hmin).
  exists p. split_and!; [done..|]. intros q' Hq' Hft'.
  specialize (Hmin q' Hq' Hft'). unfold edge_count. lia.
Qed.

(** C3. A path returned by [dfs_path] or by [dfs_path_iterative] (whatever
    the recursion limit or iteration budget) runs along edges of the graph
    from [start] to [goal] and repeats no node. *)
Theorem dfs_returns_simple_path depth fuel g start goal p :
  dfs_path depth g start goal = Ok (Some p) ∨
  dfs_path_iterative_fuel fuel g start goal = Ok (Some p) →
  valid_path g p ∧ NoDup p ∧ path_from_to p start goal.
Proof.
  intros [Hrec|Hit].
  - apply dfs_path_rec_Some in Hrec as (rest & -> & Hl & Hv & Hnd). simpl in *.
    split_and!; [by apply Hv|apply Hnd, NoDup_singleton|done].
  - unfold dfs_path_iterative_fuel in Hit.
    destruct (decide (start ∉ dom g ∨ goal ∉ dom g)); [done|].
    apply (dfs_iter_loop_Some _ _ _ start) in Hit; [done|].
    constructor; [|done]. exists []. simpl.
    split_and!; [done..|apply NoDup_singleton|by intros x ?%elem_of_nil].
Qed.

(** C5 (the code departs from it). With [start == goal] and the node absent
    from the graph, the recursive [dfs_path] returns the one-node path, where
    [dfs_path_iterative] returns [None]. *)
Theorem dfs_path_absent_start_is_goal :
  dfs_path 1 demo_graph "X" "X" = Ok (Some ["X"]) ∧
  dfs_path_iterative demo_graph "X" "X" = Ok None.
Proof. split; reflexivity. Qed.

(** C9. The recursive DFS returns for every graph and pair of endpoints, and
    it never nests more calls below the initial one than the graph has
    nodes: a limit of [size g + 1] frames is never hit. *)
Theorem dfs_path_terminates g start goal depth :
  size g < depth → ∃ r, dfs_path depth g start goal = Ok r.
Proof.
  intros Hd. apply dfs_path_rec_returns;
    [apply NoDup_nil_2|set_solver|set_solver|simpl; lia].
Qed.

Lemma bfs_path_shortest_witness :
  ∃ p, bfs_path demo_graph "A" "D" = Ok (Some p) ∧
       valid_path demo_graph p ∧ path_from_to p "A" "D" ∧
       ∀ q', valid_path demo_graph q' → path_from_to q' "A" "D" →
             edge_count p ≤ edge_count q'.
Proof.
  apply (bfs_path_shortest demo_graph "A" "D" ["A"; "B"; "C"; "D"]).
  - apply nodes_closedb_sound. vm_compute. reflexivity.
  - apply (bool_decide_unpack _). vm_compute. exact I.
  - apply valid_pathb_sound. vm_compute. reflexivity.
  - split; reflexivity.
Defined.

Lemma dfs_returns_simple_path_witness :
  valid_path demo_graph ["A"; "B"; "C"; "D"] ∧
  NoDup ["A"; "B"; "C"; "D"] ∧
  path_from_to ["A"; "B"; "C"; "D"] "A" "D".
Proof.
  apply (dfs_returns_simple_path 4 0 demo_graph "A" "D").
  left. vm_compute. reflexivity.
Defined.

Lemma dfs_path_terminates_witness :
  size demo_graph < 7 ∧ ∃ r, dfs_path 7 demo_graph "A" "F" = Ok r.
Proof.
  assert (size demo_graph < 7) as H by (vm_compute; lia).
  split; [exact H|]. exact (dfs_path_terminates demo_graph "A" "F" 7 H).
Defined.

(** C1. On a graph with nonnegative weights and a source that is a node,
    [dijkstra] returns; the distance map covers the nodes; a node with a
    finite entry is reached by a path of exactly that weight, which
    [reconstruct_path] rebuilds from the predecessor map, and no path from
    the source to it weighs less; a node with entry infinity is reached by
    no path. *)
Theorem dijkstra_correct g s :
  nodes_closed g → nonneg_weights g → s ∈ dom g →
  ∃ dist prev,
    dijkstra g s = Ok (dist, prev) ∧ dom dist = dom g ∧
    ∀ v, v ∈ dom g →
      (∃ d p, dist !! v = Some (Fin d) ∧
              reconstruct_path prev s v = Ok p ∧
              valid_path g p ∧ path_from_to p s v ∧
              path_weight g p = Some d ∧
              ∀ q W, valid_path g q → path_from_to q s v →
                     path_weight g q = Some W → (d ≤ W)%Qc)
      ∨ (dist !! v = Some Infinity ∧
         ∀ q, valid_path g q → ¬ path_from_to q s v).
Proof.
  intros Hcl Hnn Hs.
  destruct (dijkstra_run g s Hcl Hs) as (dist & prev & Hrun & Post).
  exists dist, prev. split_and!; [done|by destruct Post|].
  intros v Hv. rewrite <- (dp_dom_dist _ _ _ _ Post) in Hv.
  apply elem_of_dom in Hv as [[d|] Hd].
  - left. destruct (dijkstra_post_finite _ _ _ _ _ _ Post Hd) as (p & ? & ? & ? & ?).
    exists d, p. split_and!; [done..|]. intros q W Hq Hft HW.
    destruct (dijkstra_post_reached _ _ _ _ _ _ Post Hnn Hq Hft) as (d' & Hd' & Hle).
    rewrite Hd in Hd'. injection Hd' as <-. by apply Hle.
  - right. split; [done|]. intros q Hq Hft.
    destruct (dijkstra_post_reached _ _ _ _ _ _ Post Hnn Hq Hft) as (d' & Hd' & _).
    congruence.
Qed.

Lemma dijkstra_correct_witness :
  ∃ dist prev,
    dijkstra demo_graph "A" = Ok (dist, prev) ∧ dom dist = dom demo_graph ∧
    ∀ v, v ∈ dom demo_graph →
      (∃ d p, dist !! v = Some (Fin d) ∧
              reconstruct_path prev "A" v = Ok p ∧
              valid_path demo_graph p ∧ path_from_to p "A" v ∧
              path_weight demo_graph p = Some d ∧
              ∀ q W, valid_path demo_graph q → path_from_to q "A" v →
                     path_weight demo_graph q = Some W → (d ≤ W)%Qc)
      ∨ (dist !! v = Some Infinity ∧
         ∀ q, valid_path demo_graph q → ¬ path_from_to q "A" v).
Proof.
  apply (dijkstra_correct demo_graph "A").
  - apply nodes_closedb_sound. vm_compute. reflexivity.
  - apply nonneg_weightsb_sound. vm_compute. reflexivity.
  - apply (bool_decide_unpack _). vm_compute. exact I.
Defined.

(** C4, as stated, fails for a target that the source does not reach: the
    rebuilt sequence is empty, of weight 0, while the recorded distance is
    infinity. *)
Lemma reconstruct_unreachable_counterexample :
  nodes_closed demo_graph ∧ nonneg_weights demo_graph ∧
  ∃ dist prev,
    dijkstra demo_graph "A" = Ok (dist, prev) ∧
    reconstruct_path prev "A" "E" = Ok [] ∧
    path_weight demo_graph [] = Some 0%Qc ∧
    dist !! "E" = Some Infinity.
Proof.
  split; [apply nodes_closedb_sound; vm_compute; reflexivity|].
  split; [apply nonneg_weightsb_sound; vm_compute; reflexivity|].
  eexists _, _. split; [vm_compute; reflexivity|].
  split_and!; vm_compute; reflexivity.
Qed.

(** C4, amended. On a graph with nonnegative weights, for a source [s] that
    is a node and a target [t] that some path from [s] reaches,
    [reconstruct_path] on the predecessor map of [dijkstra g s] yields a
    path whose cumulative weight is the distance recorded for [t]. *)
Theorem reconstruct_path_weight g s t q :
  nodes_closed g → nonneg_weights g → s ∈ dom g →
  valid_path g q → path_from_to q s t →
  reconstructed_weight_is_distance g s t.
Proof.
  intros Hcl Hnn Hs Hq Hft.
  destruct (dijkstra_run g s Hcl Hs) as (dist & prev & Hrun & Post).
  destruct (dijkstra_post_reached _ _ _ _ _ _ Post Hnn Hq Hft) as (d & Hd & _).
  destruct (dijkstra_post_finite _ _ _ _ _ _ Post Hd) as (p & ? & ? & ? & ?).
  by exists dist, prev, p, d.
Qed.

Lemma reconstruct_path_weight_witness :
  reconstructed_weight_is_distance demo_graph "A" "D".
Proof.
  apply (reconstruct_path_weight demo_graph "A" "D" ["A"; "D"]).
  - apply nodes_closedb_sound. vm_compute. reflexivity.
  - apply nonneg_weightsb_sound. vm_compute. reflexivity.
  - apply (bool_decide_unpack _). vm_compute. exact I.
  - apply valid_pathb_sound. vm_compute. reflexivity.
  - split; reflexivity.
Defined.

(** C6. For the predecessor map of a [dijkstra] run and a target that is a
    node, [reconstruct_path] returns (no exception, no endless loop), and it
    returns the empty list whenever the walk along predecessor links from
    the target does not stop at [start]; in particular when the target's
    recorded distance from the run's source is infinity. *)
Theorem reconstruct_path_unreachable g s dist prev start t :
  nodes_closed g → dijkstra g s = Ok (dist, prev) → t ∈ dom g →
  ¬ walk_ends prev t start ∨ (start = s ∧ dist !! t = Some Infinity) →
  reconstruct_path prev start t = Ok [].
Proof.
  intros Hcl Hrun Ht Hcase.
  assert (s ∈ dom g) as Hs.
  { destruct (decide (s ∈ dom g)) as [|Hs]; [done|].
    rewrite (dijkstra_absent_source _ _ Hs) in Hrun. done. }
  destruct (dijkstra_run g s Hcl Hs) as (dist' & prev' & Hrun' & Post).
  rewrite Hrun in Hrun'. injection Hrun' as <- <-.
  destruct (dijkstra_post_chain _ _ _ _ t Post Ht) as (l & Hc & Hnd & _ & Hinf).
  rewrite (reconstruct_path_chain _ _ _ l) by done.
  destruct (decide (last l = Some start)) as [Hl|]; [exfalso|done].
  destruct (chain_walk_ends _ _ _ Hc) as (r & Hr & Hw).
  rewrite Hl in Hr. injection Hr as <-.
  destruct Hcase as [Hn|[-> Hd]]; [done|].
  destruct (Hinf Hd) as [-> Hne]. simpl in Hl. congruence.
Qed.

Lemma reconstruct_path_unreachable_witness :
  ∃ dist prev,
    dijkstra demo_graph "A" = Ok (dist, prev) ∧
    dist !! "E" = Some Infinity ∧
    reconstruct_path prev "A" "E" = Ok [].
Proof.
  eexists _, _. split; [vm_compute; reflexivity|].
  split; [vm_compute; reflexivity|].
  eapply (reconstruct_path_unreachable demo_graph "A" _ _ "A" "E").
  - apply nodes_closedb_sound. vm_compute. reflexivity.
  - vm_compute. reflexivity.
  - apply (bool_decide_unpack _). vm_compute. exact I.
  - right. split; [reflexivity|]. vm_compute. reflexivity.
Defined.

(** C10. An edge without a ['weight'] attribute counts as weight 1; on a
    graph none of whose edges has the attribute, [dijkstra] returns, and the
    entry of a node is the least number of edges of a path from the source
    to it (infinity when there is no path). *)
Theorem dijkstra_unweighted_hops g s :
  nodes_closed g → unweighted g → s ∈ dom g →
  (∀ d, weight d = None → get_weight d = 1%Qc) ∧
  ∃ dist prev,
    dijkstra g s = Ok (dist, prev) ∧
    ∀ v, v ∈ dom g →
      (∃ p, dist !! v = Some (Fin (Qc_of_Z (Z.of_nat (edge_count p)))) ∧
            valid_path g p ∧ path_from_to p s v ∧
            ∀ q, valid_path g q → path_from_to q s v →
                 edge_count p ≤ edge_count q)
      ∨ (dist !! v = Some Infinity ∧
         ∀ q, valid_path g q → ¬ path_from_to q s v).
Proof.
  intros Hcl Hu Hs. split.
  { intros d Hd. unfold get_weight. by rewrite Hd. }
  pose proof (unweighted_nonneg _ Hu) as Hnn.
  destruct (dijkstra_run g s Hcl Hs) as (dist & prev & Hrun & Post).
  exists dist, prev. split; [done|].
  intros v Hv. rewrite <- (dp_dom_dist _ _ _ _ Post) in Hv.
  apply elem_of_dom in Hv as [[d|] Hd].
  - left. destruct (dijkstra_post_finite _ _ _ _ _ _ Post Hd) as (p & _ & Hp & Hft & Hw).
    rewrite (path_weight_unweighted _ _ Hu Hp) in Hw. injection Hw as <-.
    exists p. split_and!; [done..|]. intros q Hq Hftq.
    destruct (dijkstra_post_reached _ _ _ _ _ _ Post Hnn Hq Hftq) as (d' & Hd' & Hle).
    rewrite Hd in Hd'. injection Hd' as <-.
    specialize (Hle _ (path_weight_unweighted _ _ Hu Hq)).
    apply Z2Qc_inj_le in Hle. lia.
  - right. split; [done|]. intros q Hq Hft.
    destruct (dijkstra_post_reached _ _ _ _ _ _ Post Hnn Hq Hft) as (d' & Hd' & _).
    congruence.
Qed.

Lemma dijkstra_unweighted_hops_witness :
  (∀ d, weight d = None → get_weight d = 1%Qc) ∧
  ∃ dist prev,
    dijkstra demo_unweighted "P" = Ok (dist, prev) ∧
    ∀ v, v ∈ dom demo_unweighted →
      (∃ p, dist !! v = Some (Fin (Qc_of_Z (Z.of_nat (edge_count p)))) ∧
            valid_path demo_unweighted p ∧ path_from_to p "P" v ∧
            ∀ q, valid_path demo_unweighted q → path_from_to q "P" v →
                 edge_count p ≤ edge_count q)
      ∨ (dist !! v = Some Infinity ∧
         ∀ q, valid_path demo_unweighted q → ¬ path_from_to q "P" v).
Proof.
  apply (dijkstra_unweighted_hops demo_unweighted "P").
  - apply nodes_closedb_sound. vm_compute. reflexivity.
  - apply unweightedb_sound. vm_compute. reflexivity.
  - apply (bool_decide_unpack _). vm_compute. exact I.
Defined.

(** Every adjacency entry of the result carries the weight of its
    category. *)
Lemma add_travel_times_entry_weights (hash : string → Z) G u adj v d :
  add_travel_times hash G !! u = Some adj → (v, d) ∈ adj →
  (line d = Some "transfer" → weight d = Some (Qc_of_Z 5)) ∧
  (line d ≠ Some "transfer" →
     weight d = Some (round1 (Q2Qc (5 # 2) + variation hash u v)%Qc) ∧
     (0 ≤ variation hash u v ∧ variation hash u v ≤ Q2Qc (9 # 10))%Qc ∧
     (Q2Qc (5 # 2) ≤ get_weight d ∧ get_weight d ≤ Q2Qc (34 # 10))%Qc) ∧
  (0 ≤ get_weight d)%Qc ∧
  (∀ u' adj' v' d',
     add_travel_times hash G !! u' = Some adj' → (v', d') ∈ adj' →
     line d = Some "transfer" → line d' ≠ Some "transfer" →
     (get_weight d' < get_weight d)%Qc).
Proof.
  assert (Hother : ∀ u adj v d,
    add_travel_times hash G !! u = Some adj → (v, d) ∈ adj →
    line d ≠ Some "transfer" →
    ∃ m, (0 ≤ m ≤ 9)%Z ∧ variation hash u v = (Qc_of_Z m / Qc_of_Z 10)%Qc ∧
         weight d = Some (round1 (Q2Qc (5 # 2) + variation hash u v)%Qc) ∧
         get_weight d = (Qc_of_Z (25 + m) / Qc_of_Z 10)%Qc).
  { clear. intros u adj v d Hadj Hin Hl.
    destruct (add_travel_times_entry _ _ _ _ _ _ Hadj Hin) as (adj0 & d0 & _ & _ & Hline & Hw).
    rewrite Hline in Hl. destruct (travel_time_other hash u v d0 Hl) as [E1 E2].
    exists ((hash u + hash v) `mod` 10)%Z. split_and!.
    - apply Z.mod_pos_bound. lia.
    - pose proof (Z.mod_pos_bound (hash u + hash v) 10). lia.
    - done.
    - by rewrite Hw, E1.
    - unfold get_weight. by rewrite Hw, <- E2. }
  assert (Htr : ∀ u adj v d,
    add_travel_times hash G !! u = Some adj → (v, d) ∈ adj →
    line d = Some "transfer" →
    weight d = Some (Qc_of_Z 5) ∧
    get_weight d = (Qc_of_Z 50 / Qc_of_Z 10)%Qc).
  { clear. intros u adj v d Hadj Hin Hl.
    destruct (add_travel_times_entry _ _ _ _ _ _ Hadj Hin) as (adj0 & d0 & _ & _ & Hline & Hw).
    rewrite Hline in Hl. rewrite (travel_time_transfer _ _ _ _ Hl) in Hw.
    split; [done|]. unfold get_weight. rewrite Hw. simpl.
    apply Qc_is_canon. reflexivity. }
  assert (Hzero : (Qc_of_Z 0 / Qc_of_Z 10)%Qc = 0%Qc)
    by (apply Qc_is_canon; reflexivity).
  intros Hadj Hin. split_and!.
  - intros Hl. by destruct (Htr _ _ _ _ Hadj Hin Hl).
  - intros Hl. destruct (Hother _ _ _ _ Hadj Hin Hl) as (m & Hm & Hv & Hw & Hg).
    split_and!; [done| | | |].
    + rewrite Hv, <- Hzero. apply tenths_le. lia.
    + rewrite Hv. replace (Q2Qc (9 # 10)) with (Qc_of_Z 9 / Qc_of_Z 10)%Qc
        by (apply Qc_is_canon; reflexivity). apply tenths_le. lia.
    + rewrite Hg. replace (Q2Qc (5 # 2)) with (Qc_of_Z 25 / Qc_of_Z 10)%Qc
        by (apply Qc_is_canon; reflexivity). apply tenths_le. lia.
    + rewrite Hg. replace (Q2Qc (34 # 10)) with (Qc_of_Z 34 / Qc_of_Z 10)%Qc
        by (apply Qc_is_canon; reflexivity). apply tenths_le. lia.
  - destruct (decide (line d = Some "transfer")) as [Hl|Hl].
    + destruct (Htr _ _ _ _ Hadj Hin Hl) as [_ ->]. rewrite <- Hzero.
      apply tenths_le. lia.
    + destruct (Hother _ _ _ _ Hadj Hin Hl) as (m & Hm & _ & _ & ->).
      rewrite <- Hzero. apply tenths_le. lia.
  - intros u' adj' v' d' Hadj' Hin' Hl Hl'.
    destruct (Htr _ _ _ _ Hadj Hin Hl) as [_ ->].
    destruct (Hother _ _ _ _ Hadj' Hin' Hl') as (m & Hm & _ & _ & ->).
    apply tenths_lt. lia.
Qed.

(** C8. [add_travel_times] keeps the nodes and, for every node, the
    adjacency entries in their places; the entry of an input edge keeps the
    edge's label and receives a weight: 5 when the label is ["transfer"],
    otherwise 2.5 plus the variation [((hash(u) + hash(v)) % 10) / 10], a
    number between 0 and 0.9, rounded to one decimal place, hence a weight
    between 2.5 and 3.4.  Every weight of the result is nonnegative, and a
    transfer edge is strictly heavier than any other edge of the result. *)
Theorem add_travel_times_weights (hash : string → Z) G u adj0 i v d0 :
  G !! u = Some adj0 → adj0 !! i = Some (v, d0) →
  dom (add_travel_times hash G) = dom G ∧
  ∃ adj d,
    add_travel_times hash G !! u = Some adj ∧ length adj = length adj0 ∧
    adj !! i = Some (v, d) ∧ line d = line d0 ∧
    (line d0 = Some "transfer" → weight d = Some (Qc_of_Z 5)) ∧
    (line d0 ≠ Some "transfer" →
       weight d = Some (round1 (Q2Qc (5 # 2) + variation hash u v)%Qc) ∧
       (0 ≤ variation hash u v ∧ variation hash u v ≤ Q2Qc (9 # 10))%Qc ∧
       (Q2Qc (5 # 2) ≤ get_weight d ∧ get_weight d ≤ Q2Qc (34 # 10))%Qc) ∧
    nonneg_weights (add_travel_times hash G) ∧
    (∀ u' adj' v' d',
       add_travel_times hash G !! u' = Some adj' → (v', d') ∈ adj' →
       line d = Some "transfer" → line d' ≠ Some "transfer" →
       (get_weight d' < get_weight d)%Qc).
Proof.
  intros Hu Hi. split.
  { apply set_eq. intros x. rewrite !elem_of_dom, add_travel_times_lookup.
    by rewrite fmap_is_Some. }
  pose proof (add_travel_times_lookup hash G u) as Hout.
  rewrite Hu in Hout. cbn [fmap option_fmap option_map] in Hout.
  eexists _, (mkEdge (line d0) (Some (travel_time hash u v d0))).
  split; [exact Hout|]. split; [apply length_fmap|].
  split; [by rewrite list_lookup_fmap, Hi|]. split; [done|].
  assert (Hin : (v, mkEdge (line d0) (Some (travel_time hash u v d0)))
                ∈ (λ vd : string * EdgeData,
                     (vd.1, mkEdge (line vd.2)
                              (Some (travel_time hash u vd.1 vd.2))))
                  <$> adj0).
  { apply list_elem_of_fmap. exists (v, d0). split; [done|].
    by eapply list_elem_of_lookup_2. }
  destruct (add_travel_times_entry_weights hash G u _ v _ Hout Hin)
    as (Htr & Hother & _ & Hheavy).
  split; [exact Htr|]. split; [exact Hother|]. split; [|exact Hheavy].
  intros u' adj' v' d' Hadj' Hin'.
  by destruct (add_travel_times_entry_weights hash G u' adj' v' d' Hadj' Hin')
    as (_ & _ & ? & _).
Qed.

Lemma add_travel_times_weights_witness :
  ∃ adj0 d0,
    demo_lines !! "Teatralna" = Some adj0 ∧
    adj0 !! 1 = Some ("Zoloti Vorota", d0) ∧
    line d0 = Some "transfer" ∧
    dom (add_travel_times demo_hash demo_lines) = dom demo_lines ∧
    ∃ adj d,
      add_travel_times demo_hash demo_lines !! "Teatralna" = Some adj ∧
      length adj = length adj0 ∧
      adj !! 1 = Some ("Zoloti Vorota", d) ∧ line d = line d0 ∧
      (line d0 = Some "transfer" → weight d = Some (Qc_of_Z 5)) ∧
      (line d0 ≠ Some "transfer" →
         weight d
         = Some (round1 (Q2Qc (5 # 2)
                         + variation demo_hash "Teatralna" "Zoloti Vorota")%Qc) ∧
         (0 ≤ variation demo_hash "Teatralna" "Zoloti Vorota" ∧
          variation demo_hash "Teatralna" "Zoloti Vorota" ≤ Q2Qc (9 # 10))%Qc ∧
         (Q2Qc (5 # 2) ≤ get_weight d ∧ get_weight d ≤ Q2Qc (34 # 10))%Qc) ∧
      nonneg_weights (add_travel_times demo_hash demo_lines) ∧
      (∀ u' adj' v' d',
         add_travel_times demo_hash demo_lines !! u' = Some adj' →
         (v', d') ∈ adj' →
         line d = Some "transfer" → line d' ≠ Some "transfer" →
         (get_weight d' < get_weight d)%Qc).
Proof.
  eexists _, _. split; [vm_compute; reflexivity|].
  split; [reflexivity|]. split; [reflexivity|].
  eapply (add_travel_times_weights demo_hash demo_lines "Teatralna" _ 1).
  - vm_compute. reflexivity.
  - reflexivity.
Defined.

(** C7, as stated, fails on float weights: on the chain A - B - C - D with
    the weights 2.5, 2.6 and 2.6 and [k = 3], the scaled run stores
    [7.5 + 7.800000000000001 = 15.3] for C, while 3 times the distance
    [2.5 + 2.6 = 5.1] of the first run is [15.299999999999999]. *)
Lemma dijkstra_scale_float_counterexample :
  ∃ dist prev dist' prev',
    Float64.dijkstra (float_chain 2.5 2.6 2.6) "A" = Ok (dist, prev) ∧
    Float64.dijkstra (Float64.scale_weights 3 (float_chain 2.5 2.6 2.6)) "A"
    = Ok (dist', prev') ∧
    dist !! "C" = Some 5.1%float ∧
    dist' !! "C" = Some 15.3%float ∧
    PrimFloat.mul 3 5.1 = 15.299999999999999%float ∧
    PrimFloat.ltb 15.299999999999999 15.3 = true.
Proof.
  eexists _, _, _, _. split; [vm_compute; reflexivity|].
  split; [vm_compute; reflexivity|].
  split_and!; vm_compute; reflexivity.
Qed.

(** C7, amended. When the edge weights are integers, multiplying every
    edge weight by a positive integer [k] gives integer weights again and
    makes [dijkstra] end the same way, with the same predecessor map and
    with every entry of the distance map multiplied by [k] (infinity
    staying infinity). *)
Theorem dijkstra_scale (k : Z) g s :
  integer_weights g → (0 < k)%Z →
  integer_weights (scale_weights (Qc_of_Z k) g) ∧
  dijkstra (scale_weights (Qc_of_Z k) g) s
  = result_map (scale_result (Qc_of_Z k)) (dijkstra g s) ∧
  ∀ dist prev, dijkstra g s = Ok (dist, prev) →
    ∃ dist', dijkstra (scale_weights (Qc_of_Z k) g) s = Ok (dist', prev) ∧
             ∀ v, dist' !! v = scale_num (Qc_of_Z k) <$> dist !! v.
Proof.
  intros Hint Hk.
  assert (0 < Qc_of_Z k)%Qc as Hk'.
  { rewrite <- Z2Qc_inj_0. exact (proj1 (Z2Qc_inj_lt 0 k) Hk). }
  pose proof (dijkstra_scale_run (Qc_of_Z k) Hk' g s) as Hrun.
  split_and!; [|done|].
  - intros u adj v d Hadj Hin. unfold scale_weights in Hadj.
    rewrite lookup_fmap in Hadj.
    destruct (g !! u) as [adj0|] eqn:Hu; [|done].
    cbn [fmap option_fmap option_map] in Hadj.
    assert (adj = prod_map id (scale_edge (Qc_of_Z k)) <$> adj0) as ->
      by congruence.
    apply list_elem_of_fmap in Hin as ([v0 d0] & Heq & Hin0).
    assert (d = scale_edge (Qc_of_Z k) d0) as ->
      by (unfold prod_map in Heq; simpl in Heq; congruence).
    destruct (Hint u adj0 v0 d0 Hu Hin0) as [z Hz].
    exists (k * z)%Z. unfold scale_edge, get_weight at 1. cbn [weight default].
    by rewrite Hz, Z2Qc_inj_mul.
  - intros dist prev Hd. rewrite Hd in Hrun.
    exists (scale_num (Qc_of_Z k) <$> dist). split; [done|].
    intros v. apply lookup_fmap.
Qed.

Lemma dijkstra_scale_witness :
  integer_weights demo_graph ∧
  integer_weights (scale_weights (Qc_of_Z 3) demo_graph) ∧
  dijkstra (scale_weights (Qc_of_Z 3) demo_graph) "A"
  = result_map (scale_result (Qc_of_Z 3)) (dijkstra demo_graph "A") ∧
  ∀ dist prev, dijkstra demo_graph "A" = Ok (dist, prev) →
    ∃ dist', dijkstra (scale_weights (Qc_of_Z 3) demo_graph) "A"
             = Ok (dist', prev) ∧
             ∀ v, dist' !! v = scale_num (Qc_of_Z 3) <$> dist !! v.
Proof.
  assert (integer_weights demo_graph) as H
    by (apply integer_weightsb_sound; vm_compute; reflexivity).
  split; [exact H|]. apply (dijkstra_scale 3 demo_graph "A" H). lia.
Defined.

(** * Further results *)

(** ** BFS: every outcome *)

Lemma bfs_loop_total fuel g start goal L u queue visited :
  nodes_closed g →
  bfs_inv g start goal L u [] queue visited →
  size (dom g ∖ visited) + length queue < fuel →
  ∃ r, bfs_loop fuel g goal queue visited = Ok r ∧
       match r with
       | Some p => shortest_path g start goal p
       | None => ∀ q, valid_path g q → ¬ path_from_to q start goal
       end.
Proof.
  intros Hcl. revert L u queue visited.
  induction fuel as [|fuel IH]; intros L u queue visited Inv Hfuel; [lia|].
  simpl. destruct queue as [|[c p] queue].
  { exists None. split; [done|]. intros q Hq Hft.
    destruct (bfs_goal_fresh _ _ _ _ _ _ _ _ Inv).
    by eapply bfs_inv_exhausted. }
  apply bfs_inv_head in Inv as (L' & q1 & q2 & Inv & Hlp & Hq & H1 & H2).
  clear L. rename L' into L.
  pose proof (bfs_queue_shortest _ _ _ _ _ _ _ _ Inv) as Hsh.
  apply Forall_cons in Hsh as [[(Hpv & Hpft & Hpmin) Hcv] Hsh]. simpl in *.
  assert (c ∈ dom g) as Hcdom by (by apply (bfs_visited_nodes _ _ _ _ _ _ _ _ Inv)).
  destruct (neighbors_in_dom _ _ Hcdom) as [nbrs Hn]. rewrite Hn. simpl.
  assert (bfs_inv g start goal L c (sorted nbrs) queue visited) as Inv'.
  { destruct Inv. constructor; try done.
    - by exists q1, q2.
    - intros v w Hv Hvq He. destruct (decide (v = c)) as [->|Hvc].
      + right. split; [done|]. apply elem_of_sorted. by apply (neighbors_Ok _ _ _ Hn).
      + left. destruct (bfs_expanded0 v w Hv) as [?|[_ ?%elem_of_nil]]; [|done..].
        rewrite fmap_cons. simpl. by intros [?|?]%elem_of_cons. }
  assert (Hedges : ∀ w, w ∈ sorted nbrs → is_edge g c w).
  { intros w Hw. rewrite elem_of_sorted in Hw. by apply (neighbors_Ok _ _ _ Hn). }
  pose proof (bfs_scan_spec g start goal L c p (sorted nbrs) queue visited
                Hcl Inv' Hpv Hpft Hlp Hedges) as Hscan.
  destruct (bfs_scan goal p (sorted nbrs) queue visited) as [r|[queue' visited']].
  { by exists (Some r). }
  destruct Hscan as [Inv'' Hsz].
  apply (IH L c); [done|]. lia.
Qed.

Lemma bfs_path_total g start goal :
  nodes_closed g →
  ∃ r, bfs_path g start goal = Ok r ∧
       match r with
       | Some p => start ∈ dom g ∧ goal ∈ dom g ∧ shortest_path g start goal p
       | None => start ∉ dom g ∨ goal ∉ dom g ∨
                 ∀ q, valid_path g q → ¬ path_from_to q start goal
       end.
Proof.
  intros Hcl. unfold bfs_path, bfs_path_fuel.
  destruct (decide (start ∉ dom g ∨ goal ∉ dom g)) as [Habs|Hin].
  { exists None. split; [done|]. destruct Habs; auto. }
  assert (start ∈ dom g) as Hs by (apply dec_stable; intros ?; apply Hin; by left).
  assert (goal ∈ dom g) as Hg by (apply dec_stable; intros ?; apply Hin; by right).
  destruct (decide (start = goal)) as [->|Hne].
  { exists (Some [goal]). split; [done|]. split_and!; [done..|].
    split_and!; [done..|].
    intros q' _ Hq'%path_from_to_nonempty. simpl. lia. }
  destruct (bfs_loop_total (S (size g)) g start goal 0 start
              [(start, [start])] {[start]} Hcl (bfs_inv_init _ _ _ Hs Hne))
    as (r & Hr & Hspec).
  { pose proof (size_difference_fresh (dom g) ∅ start Hs) as Hsz.
    rewrite difference_empty_L, union_empty_l_L, size_dom in Hsz.
    rewrite Hsz by set_solver. simpl. lia. }
  exists r. split; [done|]. destruct r; auto.
Qed.

(** ** Simple paths *)

Lemma valid_path_app_inv_r g p q : valid_path g (p ++ q) → valid_path g q.
Proof.
  induction p as [|x [|y p] IH]; [done| |].
  - destruct q; [done|]. by intros [_ ?].
  - intros [_ ?]. by apply IH.
Qed.

Lemma valid_path_cons g a p :
  valid_path g p → (∀ b, head p = Some b → is_edge g a b) →
  valid_path g (a :: p).
Proof. destruct p as [|b p]; [done|]. intros Hp He. split; [by apply He|done]. Qed.

Lemma valid_path_cons_inv g a p : valid_path g (a :: p) → valid_path g p.
Proof. destruct p; [done|]. by intros [_ ?]. Qed.

Lemma last_app_cons {A} (l1 : list A) a l2 :
  last (l1 ++ a :: l2) = last (a :: l2).
Proof.
  induction l1 as [|x l1 IH]; [done|]. rewrite <- IH. by destruct l1.
Qed.

(** Cutting the loops out of a path. *)
Lemma simple_path_exists g q a b :
  valid_path g q → path_from_to q a b →
  ∃ q', valid_path g q' ∧ path_from_to q' a b ∧ NoDup q'.
Proof.
  revert a. induction q as [|x q IH]; intros a Hq [Hh Hl]; [done|].
  simpl in Hh. assert (x = a) as -> by congruence. clear Hh.
  destruct q as [|y q].
  { simpl in Hl. assert (b = a) as -> by congruence. exists [a].
    split_and!; [done..|apply NoDup_singleton]. }
  destruct Hq as [He Hq].
  destruct (IH y Hq) as (q' & Hq' & [Hh' Hl'] & Hnd); [by split|].
  destruct (decide (a ∈ q')) as [Hin|Hnin].
  - apply list_elem_of_split in Hin as (l1 & l2 & ->).
    exists (a :: l2). split_and!.
    + by apply valid_path_app_inv_r in Hq'.
    + split; [done|]. by rewrite last_app_cons in Hl'.
    + by apply NoDup_app in Hnd as (_ & _ & ?).
  - exists (a :: q'). split_and!.
    + apply valid_path_cons; [done|]. intros z Hz. rewrite Hh' in Hz. by injection Hz as <-.
    + split; [done|]. destruct q'; [done|]. exact Hl'.
    + by apply NoDup_cons.
Qed.

(** ** Recursive DFS: a path is found whenever there is one *)

Lemma dfs_path_rec_complete depth g start goal path q :
  valid_path g q → path_from_to q start goal → NoDup q →
  (∀ x, x ∈ q → x ∉ path) → NoDup path → (∀ x, x ∈ path → x ∈ dom g) →
  size g < depth + length path →
  ∃ p, dfs_path_rec depth g start goal path = Ok (Some p).
Proof.
  revert start path q.
  induction depth as [|depth IH]; intros start path q Hq [Hh Hl] Hndq Hdisj Hnd Hsub Hlt.
  { pose proof (NoDup_length_le_size path (dom g) Hnd Hsub) as Hle.
    rewrite size_dom in Hle. simpl in Hlt. lia. }
  simpl. destruct (decide (start = goal)) as [|Hne]; [eauto|].
  destruct q as [|x0 [|x1 rest]]; [done| |].
  { simpl in *. congruence. }
  simpl in Hh. assert (x0 = start) as -> by congruence. clear Hh.
  destruct Hq as [He Hq].
  pose proof (is_edge_dom _ _ _ He) as Hs.
  rewrite decide_False by (by intros ?).
  destruct (neighbors_in_dom _ _ Hs) as [nbrs Hn]. rewrite Hn. simpl.
  apply NoDup_cons in Hndq as [Hs1 Hnd1].
  assert (Hspath : start ∉ path) by (apply Hdisj; by left).
  assert (Hnd' : NoDup (path ++ [start])).
  { apply NoDup_app. split_and!; [done| |apply NoDup_singleton].
    by intros x Hx ->%list_elem_of_singleton. }
  assert (Hsub' : ∀ x, x ∈ path ++ [start] → x ∈ dom g).
  { intros x [?| ->%list_elem_of_singleton]%elem_of_app; auto. }
  assert (Hx1 : x1 ∈ sorted nbrs).
  { apply elem_of_sorted. by apply (neighbors_Ok _ _ _ Hn). }
  assert (Hx1p : x1 ∉ path ++ [start]).
  { intros [Hx| ->%list_elem_of_singleton]%elem_of_app.
    - by apply (Hdisj x1); [right; left|].
    - apply Hs1. by left. }
  assert (Hrec : ∃ p, dfs_path_rec depth g x1 goal (path ++ [start]) = Ok (Some p)).
  { apply (IH x1 (path ++ [start]) (x1 :: rest)); try done.
    - intros x Hx [Hp| ->%list_elem_of_singleton]%elem_of_app.
      + by apply (Hdisj x); [right|].
      + done.
    - rewrite length_app. simpl. lia. }
  revert Hx1. generalize (sorted nbrs) as l.
  induction l as [|nb l IHl]; intros Hin; [by apply elem_of_nil in Hin|].
  destruct (decide (nb ∉ path ++ [start])) as [Hnb|Hnb]; last first.
  { apply IHl. apply elem_of_cons in Hin as [->|?]; done. }
  destruct (dfs_path_rec_returns depth g nb goal (path ++ [start]))
    as [r Hr]; [done|done|done|rewrite length_app; simpl; lia|].
  rewrite Hr. simpl. destruct (truthy r) eqn:Ht.
  { apply truthy_Some in Ht as (z & zs & ->). eauto. }
  apply IHl. apply elem_of_cons in Hin as [->|?]; [|done].
  destruct Hrec as [p Hp]. rewrite Hp in Hr. injection Hr as <-.
  apply dfs_path_rec_Some in Hp as (rest' & -> & _).
  destruct path; done.
Qed.

(** ** Iterative DFS: a path is found whenever there is one *)

Lemma dfs_push_elem (visited : gset string) (path : list string)
    (st : list (string * list string)) (nbrs : list string) e :
  e ∈ st ∨ (∃ nb, nb ∈ nbrs ∧ (nb ∉ visited) ∧ e = (nb, path ++ [nb])) →
  e ∈ foldl (λ st neighbor,
               if decide (neighbor ∉ visited)
               then (neighbor, path ++ [neighbor]) :: st else st) st nbrs.
Proof.
  revert st. induction nbrs as [|x nbrs IH]; intros st H; simpl.
  { destruct H as [?|(nb & ?%elem_of_nil & _)]; done. }
  apply IH. destruct H as [H|(nb & [->|Hin]%elem_of_cons & Hv & ->)].
  - left. destruct (decide (x ∉ visited)); [by right|done].
  - left. rewrite decide_True by done. by left.
  - right. eauto.
Qed.

Lemma dfs_iter_loop_finds fuel g goal stack visited r :
  dfs_white g goal stack visited →
  dfs_iter_loop fuel g goal stack visited = Ok r → ∃ p, r = Some p.
Proof.
  revert stack visited.
  induction fuel as [|fuel IH]; intros stack visited Hw; [done|].
  simpl. destruct stack as [|[c p] stack].
  { by destruct Hw as (n & p & W & ?%elem_of_nil & _). }
  destruct (decide (c = goal)); [intros [= <-]; eauto|].
  destruct Hw as (n0 & p0 & W & Hin & HW & [Hh Hl] & Hnd & Hfresh).
  destruct (decide (c ∈ visited)) as [Hc|Hc].
  { apply IH. exists n0, p0, W. split_and!; try done.
    apply elem_of_cons in Hin as [[= -> ->]|?]; [|done].
    destruct W as [|w W]; [done|]. simpl in Hh.
    assert (w = c) as -> by congruence.
    destruct (Hfresh c); [by left|done]. }
  intros (nbrs & Hn & Hloop)%result_bind_Ok. revert Hloop. apply IH.
  destruct (decide (c ∈ W)) as [HcW|HcW].
  - apply list_elem_of_split in HcW as (l1 & l2 & ->).
    destruct l2 as [|x l2].
    { rewrite last_snoc in Hl. congruence. }
    apply valid_path_app_inv_r in HW as HW'. destruct HW' as [He HW'].
    apply NoDup_app in Hnd as (_ & Hd & Hnd2).
    apply NoDup_cons in Hnd2 as [Hc2 Hnd2].
    assert (Hxv : x ∉ visited ∪ {[c]}).
    { intros [Hx| ->%elem_of_singleton]%elem_of_union.
      - apply (Hfresh x); [|done]. apply elem_of_app. right. right. by left.
      - apply Hc2. by left. }
    exists x, (p ++ [x]), (x :: l2). split_and!.
    + apply dfs_push_elem. right. exists x. split_and!; [|done..].
      apply elem_of_sorted_reverse. by apply (neighbors_Ok _ _ _ Hn).
    + done.
    + split; [done|]. rewrite last_app_cons in Hl.
      destruct l2; exact Hl.
    + done.
    + intros y Hy [Hyv| ->%elem_of_singleton]%elem_of_union.
      * apply (Hfresh y); [|done]. apply elem_of_app. right. by right.
      * done.
  - exists n0, p0, W. split_and!; try done.
    + apply dfs_push_elem. left.
      apply elem_of_cons in Hin as [[= -> ->]|?]; [|done].
      destruct HcW. destruct W as [|w W]; [done|]. simpl in Hh.
      assert (w = c) as -> by congruence. by left.
    + intros y Hy [Hyv| ->%elem_of_singleton]%elem_of_union; [|done].
      by apply (Hfresh y).
Qed.

(** ** The three searches agree on whether a path exists *)

(** X1. Whenever some path of the graph leads from [start] to [goal], the
    recursive DFS, run with a recursion limit above the number of nodes,
    returns a simple path of the graph from [start] to [goal]. *)
Theorem dfs_path_complete depth g start goal q :
  valid_path g q → path_from_to q start goal → size g < depth →
  ∃ p, dfs_path depth g start goal = Ok (Some p) ∧
       valid_path g p ∧ NoDup p ∧ path_from_to p start goal.
Proof.
  intros Hq Hft Hd.
  destruct (simple_path_exists _ _ _ _ Hq Hft) as (q' & Hq' & Hft' & Hnd).
  destruct (dfs_path_rec_complete depth g start goal [] q') as [p Hp];
    [done|done|done|set_solver|apply NoDup_nil_2|set_solver|simpl; lia|].
  exists p. split; [done|].
  apply dfs_path_rec_Some in Hp as (rest & -> & Hl & Hv & Hndp). simpl in *.
  split_and!; [by apply Hv|apply Hndp, NoDup_singleton|done].
Qed.

Lemma dfs_path_complete_witness :
  ∃ p, dfs_path 7 demo_graph "A" "D" = Ok (Some p) ∧
       valid_path demo_graph p ∧ NoDup p ∧ path_from_to p "A" "D".
Proof.
  apply (dfs_path_complete 7 demo_graph "A" "D" ["A"; "D"]).
  - apply valid_pathb_sound. vm_compute. reflexivity.
  - split; reflexivity.
  - vm_compute. lia.
Defined.

(** X2. Whenever some path of the graph leads from [start] to [goal] and
    [start] is a node, the iterative DFS returns a simple path of the graph
    from [start] to [goal]. *)
Theorem dfs_path_iterative_complete g start goal q :
  nodes_closed g → start ∈ dom g →
  valid_path g q → path_from_to q start goal →
  ∃ p, dfs_path_iterative g start goal = Ok (Some p) ∧
       valid_path g p ∧ NoDup p ∧ path_from_to p start goal.
Proof.
  intros Hcl Hs Hq Hft.
  pose proof (path_end_in_dom _ _ _ _ Hcl Hs Hq Hft) as Hg.
  destruct (dfs_path_iterative_returns g start goal Hcl) as [r Hr].
  destruct (simple_path_exists _ _ _ _ Hq Hft) as (q' & Hq' & Hft' & Hnd).
  assert (dfs_white g goal [(start, [start])] ∅) as Hw.
  { exists start, [start], q'. split_and!; [by left|done..|].
    intros x _. apply not_elem_of_empty. }
  pose proof Hr as Hr'. unfold dfs_path_iterative, dfs_path_iterative_fuel in Hr'.
  destruct (decide (start ∉ dom g ∨ goal ∉ dom g)) as [[?|?]|_]; [done..|].
  destruct (dfs_iter_loop_finds _ _ _ _ _ _ Hw Hr') as [p ->].
  exists p. split; [done|].
  apply (dfs_iter_loop_Some _ _ _ start) in Hr'; [done|].
  constructor; [|done]. exists []. simpl.
  split_and!; [done..|apply NoDup_singleton|by intros x ?%elem_of_nil].
Qed.

Lemma dfs_path_iterative_complete_witness :
  ∃ p, dfs_path_iterative demo_graph "A" "D" = Ok (Some p) ∧
       valid_path demo_graph p ∧ NoDup p ∧ path_from_to p "A" "D".
Proof.
  apply (dfs_path_iterative_complete demo_graph "A" "D" ["A"; "D"]).
  - apply nodes_closedb_sound. vm_compute. reflexivity.
  - apply (bool_decide_unpack _). vm_compute. exact I.
  - apply valid_pathb_sound. vm_compute. reflexivity.
  - split; reflexivity.
Defined.

(** X3. When no path of the graph leads from [start] to [goal], the
    recursive DFS, the iterative DFS and BFS all return [None]. *)
Theorem searches_unreachable_none depth g start goal :
  nodes_closed g → size g < depth →
  (∀ q, valid_path g q → path_from_to q start goal → False) →
  dfs_path depth g start goal = Ok None ∧
  dfs_path_iterative g start goal = Ok None ∧
  bfs_path g start goal = Ok None.
Proof.
  intros Hcl Hd Hno. split_and!.
  - destruct (dfs_path_rec_returns depth g start goal [])
      as [[p|] Hr]; [apply NoDup_nil_2|set_solver|set_solver|simpl; lia| |done].
    exfalso. apply dfs_path_rec_Some in Hr as (rest & -> & Hl & Hv & _).
    simpl in *. by apply (Hno (start :: rest)); [apply Hv|].
  - destruct (dfs_path_iterative_returns g start goal Hcl) as [[p|] Hr]; [|done].
    exfalso. unfold dfs_path_iterative, dfs_path_iterative_fuel in Hr.
    destruct (decide (start ∉ dom g ∨ goal ∉ dom g)); [done|].
    apply (dfs_iter_loop_Some _ _ _ start) in Hr as (Hv & _ & Hft).
    + by apply (Hno p).
    + constructor; [|done]. exists []. simpl.
      split_and!; [done..|apply NoDup_singleton|by intros x ?%elem_of_nil].
  - destruct (bfs_path_total g start goal Hcl) as ([p|] & Hr & Hspec); [|done].
    exfalso. destruct Hspec as (_ & _ & Hv & Hft & _). by apply (Hno p).
Qed.

Lemma searches_unreachable_none_witness :
  dfs_path 7 demo_graph "A" "E" = Ok None ∧
  dfs_path_iterative demo_graph "A" "E" = Ok None ∧
  bfs_path demo_graph "A" "E" = Ok None.
Proof.
  apply (searches_unreachable_none 7 demo_graph "A" "E").
  - apply nodes_closedb_sound. vm_compute. reflexivity.
  - vm_compute. lia.
  - intros q Hq Hft.
    assert (nodes_closed demo_graph) as Hcl
      by (apply nodes_closedb_sound; vm_compute; reflexivity).
    destruct (bfs_path_total demo_graph "A" "E" Hcl) as (r & Hr & Hspec).
    vm_compute in Hr. injection Hr as <-.
    destruct Hspec as [H|[H|H]]; [| |by apply (H q)].
    + apply H. apply (bool_decide_unpack _). vm_compute. exact I.
    + apply H. apply (bool_decide_unpack _). vm_compute. exact I.
Defined.

(** X4. On a networkx graph [bfs_path] always returns: a shortest path
    between two nodes of the graph when one exists (and then only), and
    [None] when an endpoint is missing or no path connects them. *)
Theorem bfs_path_outcome g start goal :
  nodes_closed g →
  ∃ r, bfs_path g start goal = Ok r ∧
       match r with
       | Some p =>
           start ∈ dom g ∧ goal ∈ dom g ∧ valid_path g p ∧
           path_from_to p start goal ∧
           ∀ q, valid_path g q → path_from_to q start goal →
                edge_count p ≤ edge_count q
       | None =>
           start ∉ dom g ∨ goal ∉ dom g ∨
           ∀ q, valid_path g q → ¬ path_from_to q start goal
       end.
Proof.
  intros Hcl. destruct (bfs_path_total g start goal Hcl) as (r & Hr & Hspec).
  exists r. split; [done|]. destruct r as [p|]; [|done].
  destruct Hspec as (? & ? & ? & ? & Hmin). split_and!; [done..|].
  intros q Hq Hft. specialize (Hmin q Hq Hft). unfold edge_count. lia.
Qed.

Lemma bfs_path_outcome_witness :
  ∃ r, bfs_path demo_graph "A" "Z" = Ok r ∧
       match r with
       | Some p =>
           "A" ∈ dom demo_graph ∧ "Z" ∈ dom demo_graph ∧
           valid_path demo_graph p ∧ path_from_to p "A" "Z" ∧
           ∀ q, valid_path demo_graph q → path_from_to q "A" "Z" →
                edge_count p ≤ edge_count q
       | None =>
           "A" ∉ dom demo_graph ∨ "Z" ∉ dom demo_graph ∨
           ∀ q, valid_path demo_graph q → ¬ path_from_to q "A" "Z"
       end.
Proof.
  apply (bfs_path_outcome demo_graph "A" "Z").
  apply nodes_closedb_sound. vm_compute. reflexivity.
Defined.

(** ** Path comparison *)

Lemma length_or_zero_Some p : p ≠ [] → length_or_zero (Some p) = length p.
Proof. by destruct p. Qed.

(** X5. On a networkx graph, with a recursion limit above the number of
    nodes, [compare_paths] returns; its two paths are the results of
    [dfs_path] and [bfs_path]; a length is 0 exactly when the corresponding
    search found no path; and the BFS length never exceeds the DFS length. *)
Theorem compare_paths_lengths depth g start goal :
  nodes_closed g → size g < depth →
  ∃ c, compare_paths depth g start goal = Ok c ∧
       cmp_start c = start ∧ cmp_goal c = goal ∧
       dfs_path depth g start goal = Ok (cmp_dfs_path c) ∧
       bfs_path g start goal = Ok (cmp_bfs_path c) ∧
       bfs_length c ≤ dfs_length c ∧
       (dfs_length c = 0 ↔ cmp_dfs_path c = None) ∧
       (bfs_length c = 0 ↔ cmp_bfs_path c = None).
Proof.
  intros Hcl Hd.
  destruct (dfs_path_rec_returns depth g start goal [])
    as [rd Hrd]; [apply NoDup_nil_2|set_solver|set_solver|simpl; lia|].
  destruct (bfs_path_total g start goal Hcl) as (rb & Hrb & Hspec).
  unfold compare_paths, dfs_path. rewrite Hrd, Hrb. simpl.
  eexists. split; [reflexivity|]. simpl.
  assert (Hdne : ∀ p, rd = Some p → p ≠ []).
  { intros p ->. apply dfs_path_rec_Some in Hrd as (rest & -> & _). done. }
  assert (Hbne : ∀ p, rb = Some p → p ≠ []).
  { intros p ->. destruct Hspec as (_ & _ & _ & [Hh _] & _). by intros ->. }
  split_and!; [done..| | |].
  - destruct rb as [pb|]; [|unfold length_or_zero at 1; simpl; lia].
    destruct Hspec as (Hs & _ & Hv & Hft & Hmin).
    destruct (simple_path_exists _ _ _ _ Hv Hft) as (q' & Hq' & Hft' & Hnd).
    destruct (dfs_path_rec_complete depth g start goal [] q') as [pd Hpd];
      [done|done|done|set_solver|apply NoDup_nil_2|set_solver|simpl; lia|].
    rewrite Hpd in Hrd. injection Hrd as <-.
    rewrite !length_or_zero_Some by eauto.
    apply dfs_path_rec_Some in Hpd as (rest & -> & Hl & Hvd & _). simpl in *.
    apply (Hmin (start :: rest)); [by apply Hvd|done].
  - destruct rd as [pd|]; [|done]. rewrite length_or_zero_Some by eauto.
    specialize (Hdne pd eq_refl). split; [|done]. by destruct pd.
  - destruct rb as [pb|]; [|done]. rewrite length_or_zero_Some by eauto.
    specialize (Hbne pb eq_refl). split; [|done]. by destruct pb.
Qed.

Lemma compare_paths_lengths_witness :
  ∃ c, compare_paths 7 demo_graph "A" "D" = Ok c ∧
       cmp_start c = "A" ∧ cmp_goal c = "D" ∧
       dfs_path 7 demo_graph "A" "D" = Ok (cmp_dfs_path c) ∧
       bfs_path demo_graph "A" "D" = Ok (cmp_bfs_path c) ∧
       bfs_length c ≤ dfs_length c ∧
       (dfs_length c = 0 ↔ cmp_dfs_path c = None) ∧
       (bfs_length c = 0 ↔ cmp_bfs_path c = None).
Proof.
  apply (compare_paths_lengths 7 demo_graph "A" "D").
  - apply nodes_closedb_sound. vm_compute. reflexivity.
  - vm_compute. lia.
Defined.

(** ** Dijkstra for arbitrary weights *)

Lemma dijkstra_run_inv g s :
  nodes_closed g → s ∈ dom g →
  ∃ dist prev cur visited,
    dijkstra g s = Ok (dist, prev) ∧
    dijk_inv g s cur [] (mkState dist prev []) visited.
Proof.
  intros Hcl Hs. unfold dijkstra, dijkstra_fuel.
  destruct (dijkstra_loop_spec (S (S (degree_sum g))) g s s
              (dijkstra_init g s) ∅ Hcl (dijk_inv_init g s Hs))
    as (dist & prev & cur & visited & Hrun & Inv).
  { rewrite remaining_empty. simpl. lia. }
  by exists dist, prev, cur, visited.
Qed.

Lemma dijkstra_Ok_source g s dist prev :
  dijkstra g s = Ok (dist, prev) → s ∈ dom g.
Proof.
  intros Hrun. destruct (decide (s ∈ dom g)) as [|Hs]; [done|].
  by rewrite (dijkstra_absent_source _ _ Hs) in Hrun.
Qed.

Lemma edge_weight_is_edge g u v w : edge_weight g u v = Some w → is_edge g u v.
Proof.
  unfold edge_weight, edge_data, is_edge.
  destruct (g !! u) as [adj|]; [|done].
  destruct (assoc v adj) as [d|] eqn:Hd; [|done]. intros _.
  exists adj. split; [done|]. apply list_elem_of_fmap.
  exists (v, d). split; [done|]. by apply assoc_Some_elem.
Qed.

Lemma path_weight_nonneg g p W :
  nonneg_weights g → path_weight g p = Some W → (0 ≤ W)%Qc.
Proof.
  intros Hnn. revert W. induction p as [|a [|b p] IH]; intros W.
  - intros [= <-]. apply Qcle_refl.
  - intros [= <-]. apply Qcle_refl.
  - rewrite path_weight_cons.
    destruct (edge_weight g a b) as [w|] eqn:Hw; [|done].
    destruct (path_weight g (b :: p)) as [r|]; [|done].
    intros [= <-]. pose proof (edge_weight_nonneg _ _ _ _ Hnn Hw).
    specialize (IH r eq_refl). rewrite Qcplus_comm.
    by apply Qc_le_add_nonneg.
Qed.

(** X6. Whatever the weights (negative ones included), on a networkx graph
    with the source a node, [dijkstra] returns without exception: both maps
    cover exactly the nodes, the source has distance 0 and no predecessor,
    every finite distance is the weight of the simple path from the source
    that [reconstruct_path] rebuilds, and a node at distance infinity has no
    predecessor and an empty rebuilt path. *)
Theorem dijkstra_sound_any_weights g s :
  nodes_closed g → s ∈ dom g →
  ∃ dist prev,
    dijkstra g s = Ok (dist, prev) ∧
    dom dist = dom g ∧ dom prev = dom g ∧
    dist !! s = Some (Fin 0%Qc) ∧ prev !! s = Some None ∧
    (∀ v d, dist !! v = Some (Fin d) →
       ∃ p, reconstruct_path prev s v = Ok p ∧ valid_path g p ∧ NoDup p ∧
            path_from_to p s v ∧ path_weight g p = Some d) ∧
    (∀ v, dist !! v = Some Infinity →
       prev !! v = Some None ∧ reconstruct_path prev s v = Ok []).
Proof.
  intros Hcl Hs.
  destruct (dijkstra_run_inv g s Hcl Hs) as (dist & prev & cur & vis & Hrun & Inv).
  pose proof (dijk_inv_final _ _ _ _ _ _ Inv) as Post.
  exists dist, prev. split_and!; [done|by destruct Post..| | |].
  - by destruct (dj_source _ _ _ _ _ _ Inv) as (_ & ? & _).
  - intros v d Hd.
    destruct (dp_finite _ _ _ _ Post v d Hd) as (l & Hc & Hnd & Hl & Hv & Hw).
    exists (reverse l). split_and!; [|done|by rewrite reverse_Permutation| |done].
    + rewrite (reconstruct_path_chain _ _ _ l) by done. by rewrite decide_True.
    + split; [by rewrite head_reverse|].
      rewrite last_reverse. by eapply chain_head.
  - intros v Hv. destruct (dp_infinite _ _ _ _ Post v Hv) as [Hp Hne].
    split; [done|].
    rewrite (reconstruct_path_chain _ _ _ [v]);
      [|by apply chain_root|apply NoDup_singleton].
    rewrite decide_False; [done|]. simpl. congruence.
Qed.

Lemma dijkstra_sound_any_weights_witness :
  ∃ dist prev,
    dijkstra demo_negative "A" = Ok (dist, prev) ∧
    dom dist = dom demo_negative ∧ dom prev = dom demo_negative ∧
    dist !! "A" = Some (Fin 0%Qc) ∧ prev !! "A" = Some None ∧
    (∀ v d, dist !! v = Some (Fin d) →
       ∃ p, reconstruct_path prev "A" v = Ok p ∧
            valid_path demo_negative p ∧ NoDup p ∧
            path_from_to p "A" v ∧ path_weight demo_negative p = Some d) ∧
    (∀ v, dist !! v = Some Infinity →
       prev !! v = Some None ∧ reconstruct_path prev "A" v = Ok []).
Proof.
  apply (dijkstra_sound_any_weights demo_negative "A").
  - apply nodes_closedb_sound. vm_compute. reflexivity.
  - apply (bool_decide_unpack _). vm_compute. exact I.
Defined.

(** X7. The maps of a [dijkstra] run certify themselves: a node's distance
    is its predecessor's distance plus the weight of the edge between them;
    and, when the weights are nonnegative, no distance is negative and no
    edge leaving a node at finite distance could still lower a distance. *)
Theorem dijkstra_certificate g s dist prev :
  nodes_closed g → dijkstra g s = Ok (dist, prev) →
  (∀ v u, prev !! v = Some (Some u) →
     is_edge g u v ∧
     ∃ du w, dist !! u = Some (Fin du) ∧ edge_weight g u v = Some w ∧
             dist !! v = Some (Fin (du + w)%Qc)) ∧
  (nonneg_weights g →
     (∀ v d, dist !! v = Some (Fin d) → (0 ≤ d)%Qc) ∧
     (∀ u v du w, dist !! u = Some (Fin du) → edge_weight g u v = Some w →
        ∃ dv, dist !! v = Some (Fin dv) ∧ (dv ≤ du + w)%Qc)).
Proof.
  intros Hcl Hrun. pose proof (dijkstra_Ok_source _ _ _ _ Hrun) as Hs.
  destruct (dijkstra_run_inv g s Hcl Hs) as (dist' & prev' & cur & vis & Hrun' & Inv).
  rewrite Hrun in Hrun'. injection Hrun' as <- <-.
  pose proof (dijk_inv_final _ _ _ _ _ _ Inv) as Post.
  split.
  { intros v u Hp. exact (dj_prev_edge _ _ _ _ _ _ Inv v u Hp). }
  intros Hnn. split.
  - intros v d Hd.
    destruct (dp_finite _ _ _ _ Post v d Hd) as (l & _ & _ & _ & _ & Hw).
    by eapply path_weight_nonneg.
  - intros u v du w Hdu Hw.
    assert (u ∈ vis) as Hu.
    { destruct (decide (u ∈ vis)) as [|Hn]; [done|].
      by pose proof (dj_queued _ _ _ _ _ _ Inv u du Hdu Hn) as ?%elem_of_nil. }
    destruct (dj_relaxed _ _ _ _ _ _ Inv Hnn u v du w Hu Hdu
                (edge_weight_is_edge _ _ _ _ Hw) Hw)
      as [Hle|[_ ?%elem_of_nil]]; done.
Qed.

Lemma dijkstra_certificate_witness :
  ∃ dist prev,
    dijkstra demo_graph "A" = Ok (dist, prev) ∧
    (∀ v u, prev !! v = Some (Some u) →
       is_edge demo_graph u v ∧
       ∃ du w, dist !! u = Some (Fin du) ∧
               edge_weight demo_graph u v = Some w ∧
               dist !! v = Some (Fin (du + w)%Qc)) ∧
    (nonneg_weights demo_graph →
       (∀ v d, dist !! v = Some (Fin d) → (0 ≤ d)%Qc) ∧
       (∀ u v du w, dist !! u = Some (Fin du) →
          edge_weight demo_graph u v = Some w →
          ∃ dv, dist !! v = Some (Fin dv) ∧ (dv ≤ du + w)%Qc)).
Proof.
  eexists _, _. split; [vm_compute; reflexivity|].
  eapply (dijkstra_certificate demo_graph "A").
  - apply nodes_closedb_sound. vm_compute. reflexivity.
  - vm_compute. reflexivity.
Defined.

(** X8. [dijkstra] called with a source that is not a node of the graph
    raises the [NetworkXError] of [graph.neighbors]. *)
Theorem dijkstra_source_absent_raises g s :
  s ∉ dom g → dijkstra g s = Raise NetworkXError.
Proof. apply dijkstra_absent_source. Qed.

Lemma dijkstra_source_absent_raises_witness :
  dijkstra demo_graph "Z" = Raise NetworkXError.
Proof.
  apply (dijkstra_source_absent_raises demo_graph "Z").
  apply (bool_decide_unpack _). vm_compute. exact I.
Defined.

(** ** All-pairs shortest paths *)

Lemma elem_of_graph_nodes g x : x ∈ graph_nodes g ↔ x ∈ dom g.
Proof.
  unfold graph_nodes. rewrite list_elem_of_fmap, elem_of_dom. split.
  - intros ([k a] & -> & Hin%elem_of_map_to_list). eauto.
  - intros [a Ha]. exists (x, a). split; [done|]. by apply elem_of_map_to_list.
Qed.

Lemma info_of_is_Some g s dist prev t :
  dijkstra_post g s dist prev → t ∈ dom g →
  ∃ d p, dist !! t = Some d ∧ reconstruct_path prev s t = Ok p ∧
         info_of dist prev s t = Some (mkPathInfo d p).
Proof.
  intros Post Ht.
  destruct (dijkstra_post_chain _ _ _ _ t Post Ht) as (l & Hc & Hnd & _).
  pose proof (reconstruct_path_chain prev s t l Hc Hnd) as Hrec.
  rewrite <- (dp_dom_dist _ _ _ _ Post) in Ht.
  apply elem_of_dom in Ht as [d Hd].
  eexists d, _. split_and!; [done|exact Hrec|].
  unfold info_of. by rewrite Hd, Hrec.
Qed.

Lemma all_paths_targets_spec g s dist prev targets M :
  dijkstra_post g s dist prev → (∀ t, t ∈ targets → t ∈ dom g) →
  ∃ M', all_paths_targets s dist prev targets M = Ok M' ∧
        ∀ a b, M' !! (a, b)
               = if decide (a = s ∧ b ∈ targets ∧ b ≠ a)
                 then info_of dist prev s b else M !! (a, b).
Proof.
  intros Post. revert M.
  induction targets as [|t targets IH]; intros M Hsub.
  { exists M. split; [done|]. intros a b. rewrite decide_False; [done|].
    by intros (_ & ?%elem_of_nil & _). }
  simpl. destruct (decide (s ≠ t)) as [Hne|Heq].
  - destruct (info_of_is_Some g s dist prev t Post) as (d & p & Hd & Hp & Hi);
      [apply Hsub; by left|].
    rewrite Hp. simpl. unfold getitem. rewrite Hd. simpl.
    destruct (IH (<[(s, t):=mkPathInfo d p]> M)) as (M' & -> & HM');
      [intros; apply Hsub; by right|].
    exists M'. split; [done|]. intros a b. rewrite HM'.
    destruct (decide (a = s ∧ b ∈ targets ∧ b ≠ a)) as [(-> & Hb & Hba)|Hn].
    + rewrite decide_True; [done|]. split_and!; [done| by right|done].
    + destruct (decide ((s, t) = (a, b))) as [[= <- <-]|Hst].
      * rewrite lookup_insert_eq.
        rewrite decide_True; [done|]. split_and!; [done|by left|done].
      * rewrite lookup_insert_ne by done.
        destruct (decide (a = s ∧ b ∈ t :: targets ∧ b ≠ a))
          as [(-> & [->|Hb]%elem_of_cons & Hba)|]; [done| |done].
        destruct Hn. done.
  - apply dec_stable in Heq. subst t.
    destruct (IH M) as (M' & -> & HM'); [intros; apply Hsub; by right|].
    exists M'. split; [done|]. intros a b. rewrite HM'.
    destruct (decide (a = s ∧ b ∈ targets ∧ b ≠ a)) as [(-> & Hb & Hba)|Hn].
    + rewrite decide_True; [done|]. split_and!; [done|by right|done].
    + rewrite decide_False; [done|].
      intros (-> & [->|Hb]%elem_of_cons & Hba); [done|]. by apply Hn.
Qed.

Lemma all_paths_sources_spec g nodes sources M :
  nodes_closed g → (∀ t, t ∈ nodes → t ∈ dom g) →
  (∀ t, t ∈ sources → t ∈ dom g) →
  ∃ M', all_paths_sources g nodes sources M = Ok M' ∧
        ∀ a b, M' !! (a, b)
               = if decide (a ∈ sources ∧ b ∈ nodes ∧ b ≠ a)
                 then pair_info g a b else M !! (a, b).
Proof.
  intros Hcl Hnodes. revert M.
  induction sources as [|s sources IH]; intros M Hsub.
  { exists M. split; [done|]. intros a b. rewrite decide_False; [done|].
    by intros (?%elem_of_nil & _). }
  simpl. destruct (dijkstra_run g s Hcl) as (dist & prev & Hrun & Post);
    [apply Hsub; by left|].
  rewrite Hrun. simpl.
  destruct (all_paths_targets_spec g s dist prev nodes M Post Hnodes)
    as (M1 & -> & HM1). simpl.
  destruct (IH M1) as (M' & -> & HM'); [intros; apply Hsub; by right|].
  exists M'. split; [done|]. intros a b. rewrite HM', HM1.
  destruct (decide (a ∈ sources ∧ b ∈ nodes ∧ b ≠ a)) as [(Ha & Hb & Hba)|Hn].
  { rewrite decide_True; [done|]. split_and!; [by right|done..]. }
  destruct (decide (a = s ∧ b ∈ nodes ∧ b ≠ a)) as [(-> & Hb & Hba)|Hn'].
  - rewrite decide_True by (split_and!; [by left|done..]).
    unfold pair_info. by rewrite Hrun.
  - rewrite decide_False; [done|].
    intros ([->|Ha]%elem_of_cons & Hb & Hba); [by apply Hn'|by apply Hn].
Qed.

Lemma find_all_shortest_paths_lookup nodes g :
  nodes_closed g → (∀ x, x ∈ nodes ↔ x ∈ dom g) →
  ∃ all_paths,
    find_all_shortest_paths_from nodes g = Ok all_paths ∧
    ∀ s t, all_paths !! (s, t)
           = if decide (s ∈ dom g ∧ t ∈ dom g ∧ s ≠ t)
             then pair_info g s t else None.
Proof.
  intros Hcl Hnodes. unfold find_all_shortest_paths_from.
  destruct (all_paths_sources_spec g nodes nodes ∅ Hcl) as (M & HM & Hl);
    [by intros t ?%Hnodes..|].
  exists M. split; [done|]. intros s t. rewrite Hl, lookup_empty.
  destruct (decide (s ∈ nodes ∧ t ∈ nodes ∧ t ≠ s)) as [(Hs & Ht & Hne)|Hn].
  - rewrite decide_True; [done|]. split_and!; [by apply Hnodes..|done].
  - rewrite decide_False; [done|]. intros (Hs & Ht & Hne). apply Hn.
    split_and!; [by apply Hnodes..|done].
Qed.

Lemma pair_info_Some g s t info :
  pair_info g s t = Some info →
  ∃ dist prev, dijkstra g s = Ok (dist, prev) ∧
               dist !! t = Some (pi_distance info) ∧
               reconstruct_path prev s t = Ok (pi_path info).
Proof.
  unfold pair_info.
  destruct (dijkstra g s) as [[dist prev]| |] eqn:Hrun; [|done..].
  unfold info_of. destruct (dist !! t) as [d|] eqn:Hd; [|done].
  destruct (reconstruct_path prev s t) as [p| |] eqn:Hp; [|done..].
  intros [= <-]. by exists dist, prev.
Qed.

(** X9. On a networkx graph [find_all_shortest_paths] returns a dictionary
    whose keys are exactly the ordered pairs of distinct nodes; the entry of
    [(s, t)] holds the distance of [t] in the run [dijkstra g s] and the
    path rebuilt from that run's predecessor map. *)
Theorem find_all_shortest_paths_entries nodes g :
  nodes_closed g → (∀ x, x ∈ nodes ↔ x ∈ dom g) →
  ∃ all_paths,
    find_all_shortest_paths_from nodes g = Ok all_paths ∧
    ∀ s t,
      match all_paths !! (s, t) with
      | Some info =>
          s ∈ dom g ∧ t ∈ dom g ∧ s ≠ t ∧
          ∃ dist prev, dijkstra g s = Ok (dist, prev) ∧
                       dist !! t = Some (pi_distance info) ∧
                       reconstruct_path prev s t = Ok (pi_path info)
      | None => ¬ (s ∈ dom g ∧ t ∈ dom g ∧ s ≠ t)
      end.
Proof.
  intros Hcl Hnodes.
  destruct (find_all_shortest_paths_lookup nodes g Hcl Hnodes) as (M & HM & Hl).
  exists M. split; [done|]. intros s t. rewrite Hl.
  destruct (decide (s ∈ dom g ∧ t ∈ dom g ∧ s ≠ t)) as [(Hs & Ht & Hne)|Hn]; [|done].
  destruct (dijkstra_run g s Hcl Hs) as (dist & prev & Hrun & Post).
  destruct (info_of_is_Some g s dist prev t Post Ht) as (d & p & Hd & Hp & Hi).
  unfold pair_info. rewrite Hrun, Hi. split_and!; [done..|].
  by exists dist, prev.
Qed.

Lemma find_all_shortest_paths_entries_witness :
  ∃ all_paths,
    find_all_shortest_paths demo_graph = Ok all_paths ∧
    ∀ s t,
      match all_paths !! (s, t) with
      | Some info =>
          s ∈ dom demo_graph ∧ t ∈ dom demo_graph ∧ s ≠ t ∧
          ∃ dist prev, dijkstra demo_graph s = Ok (dist, prev) ∧
                       dist !! t = Some (pi_distance info) ∧
                       reconstruct_path prev s t = Ok (pi_path info)
      | None => ¬ (s ∈ dom demo_graph ∧ t ∈ dom demo_graph ∧ s ≠ t)
      end.
Proof.
  apply (find_all_shortest_paths_entries (graph_nodes demo_graph) demo_graph).
  - apply nodes_closedb_sound. vm_compute. reflexivity.
  - apply elem_of_graph_nodes.
Defined.

(** ** Paths in an undirected graph; joining paths *)

Lemma undirectedb_sound g : undirectedb g = true → undirected g.
Proof.
  intros H u v d Hd.
  assert (∃ adj, g !! u = Some adj ∧ (v, d) ∈ adj) as (adj & Hadj & Hin).
  { unfold edge_data in Hd. destruct (g !! u) as [adj|]; [|done].
    destruct (assoc v adj) as [d'|] eqn:Ha; [|done].
    assert (d' = d) as -> by congruence.
    exists adj. split; [done|]. by apply assoc_Some_elem. }
  pose proof (edges_forallb_sound _ _ H u adj v d Hadj Hin) as Hc.
  simpl in Hc. rewrite Hd in Hc.
  destruct (edge_data g v u) as [d2| |]; [|done..].
  apply bool_decide_eq_true in Hc as [Hl Hw].
  destruct d, d2. simpl in *. by subst.
Qed.

Lemma edge_data_is_edge g u v d : edge_data g u v = Ok d → is_edge g u v.
Proof.
  intros Hd. apply (edge_weight_is_edge g u v (get_weight d)).
  unfold edge_weight. by rewrite Hd.
Qed.

Lemma is_edge_sym g u v : undirected g → is_edge g u v → is_edge g v u.
Proof.
  intros Hu (adj & d & _ & _ & Hd & _)%edge_data_Ok.
  by eapply edge_data_is_edge, Hu.
Qed.

Lemma edge_weight_sym g u v w :
  undirected g → edge_weight g u v = Some w → edge_weight g v u = Some w.
Proof.
  intros Hu. unfold edge_weight.
  destruct (edge_data g u v) as [d| |] eqn:Hd; [|done..].
  by rewrite (Hu _ _ _ Hd).
Qed.

Lemma valid_path_reverse g p :
  undirected g → valid_path g p → valid_path g (reverse p).
Proof.
  intros Hu. induction p as [|a p IH]; [done|]. intros Hp.
  rewrite reverse_cons. apply valid_path_snoc.
  - apply IH. by eapply valid_path_cons_inv.
  - intros b. rewrite last_reverse. destruct p as [|b' p]; [done|].
    simpl. intros [= <-]. apply is_edge_sym; [done|]. by destruct Hp.
Qed.

Lemma path_weight_reverse g p W :
  undirected g → path_weight g p = Some W →
  path_weight g (reverse p) = Some W.
Proof.
  intros Hu. revert W. induction p as [|a [|b p] IH]; intros W; [done..|].
  rewrite path_weight_cons.
  destruct (edge_weight g a b) as [w|] eqn:Hw; [|done].
  destruct (path_weight g (b :: p)) as [r|] eqn:Hr; [|done].
  intros HW. assert (W = (w + r)%Qc) as -> by (simpl in HW; congruence).
  rewrite reverse_cons.
  rewrite (path_weight_snoc g (reverse (b :: p)) b a r w).
  - f_equal. ring.
  - by rewrite last_reverse.
  - by apply IH.
  - by apply edge_weight_sym.
Qed.

Lemma path_from_to_reverse p a b :
  path_from_to p a b → path_from_to (reverse p) b a.
Proof. intros [Hh Hl]. split; [by rewrite head_reverse|by rewrite last_reverse]. Qed.

(** A path ending in [u] followed by a path starting at [u]. *)
Lemma path_join g p1 u p2 W1 W2 :
  valid_path g p1 → last p1 = Some u → valid_path g (u :: p2) →
  path_weight g p1 = Some W1 → path_weight g (u :: p2) = Some W2 →
  valid_path g (p1 ++ p2) ∧ head (p1 ++ p2) = head p1 ∧
  last (p1 ++ p2) = last (u :: p2) ∧
  path_weight g (p1 ++ p2) = Some (W1 + W2)%Qc.
Proof.
  revert W1. induction p1 as [|a [|b p1] IH]; intros W1 Hv1 Hl Hv2 HW1 HW2; [done| |].
  - simpl in Hl. assert (a = u) as -> by congruence.
    simpl in HW1. assert (W1 = 0%Qc) as -> by congruence.
    split_and!; [done..|]. simpl app. rewrite HW2. f_equal. ring.
  - destruct Hv1 as [He Hv1]. rewrite path_weight_cons in HW1.
    destruct (edge_weight g a b) as [w|] eqn:Hw; [|done].
    destruct (path_weight g (b :: p1)) as [r|] eqn:Hr; [|done].
    assert (W1 = (w + r)%Qc) as -> by (simpl in HW1; congruence).
    destruct (IH r Hv1 Hl Hv2 eq_refl HW2) as (Hv & Hh & Hla & Hpw).
    change ((a :: b :: p1) ++ p2) with (a :: b :: (p1 ++ p2)).
    change ((b :: p1) ++ p2) with (b :: (p1 ++ p2)) in Hv, Hla, Hpw.
    split_and!.
    + by split.
    + done.
    + exact Hla.
    + rewrite path_weight_cons, Hw, Hpw. simpl. f_equal. ring.
Qed.

(** ** All-pairs shortest paths: the entries are a metric *)

Lemma all_paths_entry_inv nodes g all_paths s t info :
  nodes_closed g → (∀ x, x ∈ nodes ↔ x ∈ dom g) →
  find_all_shortest_paths_from nodes g = Ok all_paths →
  all_paths !! (s, t) = Some info →
  s ∈ dom g ∧ t ∈ dom g ∧ s ≠ t ∧
  ∃ dist prev, dijkstra g s = Ok (dist, prev) ∧
               dijkstra_post g s dist prev ∧
               dist !! t = Some (pi_distance info) ∧
               reconstruct_path prev s t = Ok (pi_path info).
Proof.
  intros Hcl Hnodes Hrun Hl.
  destruct (find_all_shortest_paths_lookup nodes g Hcl Hnodes) as (M & HM & HlM).
  rewrite Hrun in HM. assert (M = all_paths) as -> by congruence.
  rewrite HlM in Hl.
  destruct (decide (s ∈ dom g ∧ t ∈ dom g ∧ s ≠ t)) as [(Hs & Ht & Hne)|]; [|done].
  split_and!; [done..|].
  apply pair_info_Some in Hl as (dist & prev & Hd & Hdt & Hp).
  destruct (dijkstra_run g s Hcl Hs) as (dist' & prev' & Hd' & Post).
  rewrite Hd in Hd'. assert (dist' = dist ∧ prev' = prev) as [-> ->]
    by (split; congruence).
  by exists dist, prev.
Qed.

(** X10. With nonnegative weights, the entry that [find_all_shortest_paths]
    stores for a pair is either a finite distance with a path of the graph
    of exactly that weight, no path between the pair weighing less, or
    infinity with the empty path, and then no path joins the pair. *)
Theorem all_pairs_shortest nodes g all_paths s t info :
  nodes_closed g → nonneg_weights g → (∀ x, x ∈ nodes ↔ x ∈ dom g) →
  find_all_shortest_paths_from nodes g = Ok all_paths →
  all_paths !! (s, t) = Some info →
  match pi_distance info with
  | Fin d =>
      valid_path g (pi_path info) ∧ path_from_to (pi_path info) s t ∧
      path_weight g (pi_path info) = Some d ∧
      ∀ q W, valid_path g q → path_from_to q s t →
             path_weight g q = Some W → (d ≤ W)%Qc
  | Infinity =>
      pi_path info = [] ∧ ∀ q, valid_path g q → ¬ path_from_to q s t
  end.
Proof.
  intros Hcl Hnn Hnodes Hrun Hl.
  destruct (all_paths_entry_inv _ _ _ _ _ _ Hcl Hnodes Hrun Hl)
    as (Hs & Ht & Hne & dist & prev & Hd & Post & Hdt & Hp).
  destruct (pi_distance info) as [d|].
  - destruct (dijkstra_post_finite _ _ _ _ _ _ Post Hdt) as (p & Hp' & Hv & Hft & Hw).
    rewrite Hp in Hp'. assert (pi_path info = p) as -> by congruence.
    split_and!; [done..|]. intros q W Hq Hftq HW.
    destruct (dijkstra_post_reached _ _ _ _ _ _ Post Hnn Hq Hftq) as (d' & Hd' & Hle).
    rewrite Hdt in Hd'. assert (d' = d) as -> by congruence. by apply Hle.
  - split.
    + destruct (dp_infinite _ _ _ _ Post t Hdt) as [Hpt _].
      rewrite (reconstruct_path_chain _ _ _ [t]) in Hp;
        [|by apply chain_root|apply NoDup_singleton].
      rewrite decide_False in Hp by (simpl; congruence). congruence.
    + intros q Hq Hftq.
      destruct (dijkstra_post_reached _ _ _ _ _ _ Post Hnn Hq Hftq) as (d' & Hd' & _).
      congruence.
Qed.

(** The entry of a pair of distinct nodes, read off the runs of
    [dijkstra]. *)
Lemma find_all_shortest_paths_pairs g :
  nodes_closed g →
  ∃ all_paths,
    find_all_shortest_paths g = Ok all_paths ∧
    ∀ s t, s ∈ dom g → t ∈ dom g → s ≠ t →
           all_paths !! (s, t) = pair_info g s t.
Proof.
  intros Hcl.
  destruct (find_all_shortest_paths_lookup (graph_nodes g) g
              Hcl (elem_of_graph_nodes _)) as (M & HM & Hl).
  exists M. split; [exact HM|]. intros s t Hs Ht Hne.
  rewrite Hl. apply decide_True. auto.
Qed.

Lemma demo_graph_closed : nodes_closed demo_graph.
Proof. apply nodes_closedb_sound. vm_compute. reflexivity. Qed.

Lemma demo_graph_node x :
  bool_decide (x ∈ dom demo_graph) = true → x ∈ dom demo_graph.
Proof. apply bool_decide_eq_true. Qed.

Lemma all_pairs_shortest_witness :
  ∃ all_paths info,
    find_all_shortest_paths demo_graph = Ok all_paths ∧
    all_paths !! ("A", "D") = Some info ∧
    match pi_distance info with
    | Fin d =>
        valid_path demo_graph (pi_path info) ∧
        path_from_to (pi_path info) "A" "D" ∧
        path_weight demo_graph (pi_path info) = Some d ∧
        ∀ q W, valid_path demo_graph q → path_from_to q "A" "D" →
               path_weight demo_graph q = Some W → (d ≤ W)%Qc
    | Infinity =>
        pi_path info = [] ∧
        ∀ q, valid_path demo_graph q → ¬ path_from_to q "A" "D"
    end.
Proof.
  destruct (find_all_shortest_paths_pairs demo_graph demo_graph_closed)
    as (M & HM & Hl).
  assert (∃ info, M !! ("A", "D") = Some info) as [info Hinfo].
  { rewrite Hl; [vm_compute; eauto|by apply demo_graph_node..|done]. }
  exists M, info. split; [exact HM|]. split; [exact Hinfo|].
  apply (all_pairs_shortest (graph_nodes demo_graph) demo_graph M "A" "D").
  - apply nodes_closedb_sound. vm_compute. reflexivity.
  - apply nonneg_weightsb_sound. vm_compute. reflexivity.
  - apply elem_of_graph_nodes.
  - exact HM.
  - exact Hinfo.
Defined.

Lemma all_pairs_distance_le nodes g all_paths s t info q W :
  nodes_closed g → nonneg_weights g → (∀ x, x ∈ nodes ↔ x ∈ dom g) →
  find_all_shortest_paths_from nodes g = Ok all_paths →
  all_paths !! (s, t) = Some info →
  valid_path g q → path_from_to q s t → path_weight g q = Some W →
  ∃ d, pi_distance info = Fin d ∧ (d ≤ W)%Qc.
Proof.
  intros Hcl Hnn Hnodes Hrun Hl Hq Hft HW.
  destruct (all_paths_entry_inv _ _ _ _ _ _ Hcl Hnodes Hrun Hl)
    as (Hs & Ht & Hne & dist & prev & Hd & Post & Hdt & Hp).
  destruct (dijkstra_post_reached _ _ _ _ _ _ Post Hnn Hq Hft) as (d & Hd' & Hle).
  exists d. split; [congruence|by apply Hle].
Qed.

Lemma all_pairs_distance_path nodes g all_paths s t info d :
  nodes_closed g → (∀ x, x ∈ nodes ↔ x ∈ dom g) →
  find_all_shortest_paths_from nodes g = Ok all_paths →
  all_paths !! (s, t) = Some info → pi_distance info = Fin d →
  ∃ p, valid_path g p ∧ path_from_to p s t ∧ path_weight g p = Some d.
Proof.
  intros Hcl Hnodes Hrun Hl Hd.
  destruct (all_paths_entry_inv _ _ _ _ _ _ Hcl Hnodes Hrun Hl)
    as (Hs & Ht & Hne & dist & prev & Hdj & Post & Hdt & Hp).
  rewrite Hd in Hdt.
  destruct (dijkstra_post_finite _ _ _ _ _ _ Post Hdt) as (p & _ & ? & ? & ?).
  by exists p.
Qed.

(** On float weights the two directions of a pair can be summed in
    different orders and differ in the last bit: on the chain
    A - B - C - D with the weights 2.5, 2.6 and 2.6 the run from A stores
    [(2.5 + 2.6) + 2.6 = 7.699999999999999] for D and the run from D stores
    [(2.6 + 2.6) + 2.5 = 7.7] for A. *)
Example float_distances_asymmetric :
  ∃ distA prevA distD prevD,
    Float64.dijkstra (float_chain 2.5 2.6 2.6) "A" = Ok (distA, prevA) ∧
    Float64.dijkstra (float_chain 2.5 2.6 2.6) "D" = Ok (distD, prevD) ∧
    distA !! "D" = Some 7.699999999999999%float ∧
    distD !! "A" = Some 7.7%float ∧
    PrimFloat.ltb 7.699999999999999 7.7 = true.
Proof.
  eexists _, _, _, _. split; [vm_compute; reflexivity|].
  split; [vm_compute; reflexivity|].
  split_and!; vm_compute; reflexivity.
Qed.

(** X11. On an undirected graph with nonnegative integer weights the
    distances that [find_all_shortest_paths] stores are symmetric: the
    pairs [(s, t)] and [(t, s)] receive the same distance. *)
Theorem all_pairs_symmetric nodes g all_paths s t i1 i2 :
  nodes_closed g → nonneg_weights g → integer_weights g → undirected g →
  (∀ x, x ∈ nodes ↔ x ∈ dom g) →
  find_all_shortest_paths_from nodes g = Ok all_paths →
  all_paths !! (s, t) = Some i1 → all_paths !! (t, s) = Some i2 →
  pi_distance i1 = pi_distance i2.
Proof.
  intros Hcl Hnn _ Hu Hnodes Hrun H1 H2.
  assert (Hhalf : ∀ a b ia ib d,
    all_paths !! (a, b) = Some ia → all_paths !! (b, a) = Some ib →
    pi_distance ia = Fin d → ∃ d', pi_distance ib = Fin d' ∧ (d' ≤ d)%Qc).
  { intros a b ia ib d Ha Hb Hd.
    destruct (all_pairs_distance_path _ _ _ _ _ _ _ Hcl Hnodes Hrun Ha Hd)
      as (p & Hp & Hft & Hw).
    apply (all_pairs_distance_le nodes g all_paths b a ib (reverse p) d);
      try done.
    - by apply valid_path_reverse.
    - by apply path_from_to_reverse.
    - by apply path_weight_reverse. }
  destruct (pi_distance i1) as [d1|] eqn:E1.
  - destruct (Hhalf s t i1 i2 d1 H1 H2 E1) as (d2 & E2 & Hle).
    destruct (Hhalf t s i2 i1 d2 H2 H1 E2) as (d1' & E1' & Hle').
    rewrite E1 in E1'. assert (d1' = d1) as -> by congruence.
    rewrite E2. f_equal. by apply Qcle_antisym.
  - destruct (pi_distance i2) as [d2|] eqn:E2; [|done].
    destruct (Hhalf t s i2 i1 d2 H2 H1 E2) as (d1' & E1' & _). congruence.
Qed.

Lemma all_pairs_symmetric_witness :
  ∃ all_paths i1 i2,
    find_all_shortest_paths demo_graph = Ok all_paths ∧
    all_paths !! ("A", "C") = Some i1 ∧ all_paths !! ("C", "A") = Some i2 ∧
    pi_distance i1 = pi_distance i2.
Proof.
  destruct (find_all_shortest_paths_pairs demo_graph demo_graph_closed)
    as (M & HM & Hl).
  assert (∃ info, M !! ("A", "C") = Some info) as [i1 H1].
  { rewrite Hl; [vm_compute; eauto|by apply demo_graph_node..|done]. }
  assert (∃ info, M !! ("C", "A") = Some info) as [i2 H2].
  { rewrite Hl; [vm_compute; eauto|by apply demo_graph_node..|done]. }
  exists M, i1, i2. split; [exact HM|]. split; [exact H1|]. split; [exact H2|].
  apply (all_pairs_symmetric (graph_nodes demo_graph) demo_graph M "A" "C").
  - apply nodes_closedb_sound. vm_compute. reflexivity.
  - apply nonneg_weightsb_sound. vm_compute. reflexivity.
  - apply integer_weightsb_sound. vm_compute. reflexivity.
  - apply undirectedb_sound. vm_compute. reflexivity.
  - apply elem_of_graph_nodes.
  - exact HM.
  - exact H1.
  - exact H2.
Defined.

(** On float weights a distance can exceed the sum of two others by one
    bit: on the chain A - B - C - D with the weights 2.5, 2.9 and 2.7 the
    run from A stores [(2.5 + 2.9) + 2.7 = 8.100000000000001] for D, while
    the distances of B from A and of D from B add up to
    [2.5 + (2.9 + 2.7) = 8.1]. *)
Example float_distances_triangle :
  ∃ distA prevA distB prevB,
    Float64.dijkstra (float_chain 2.5 2.9 2.7) "A" = Ok (distA, prevA) ∧
    Float64.dijkstra (float_chain 2.5 2.9 2.7) "B" = Ok (distB, prevB) ∧
    distA !! "D" = Some 8.100000000000001%float ∧
    distA !! "B" = Some 2.5%float ∧
    distB !! "D" = Some 5.6%float ∧
    PrimFloat.ltb (PrimFloat.add 2.5 5.6) 8.100000000000001 = true.
Proof.
  eexists _, _, _, _. split; [vm_compute; reflexivity|].
  split; [vm_compute; reflexivity|].
  split_and!; vm_compute; reflexivity.
Qed.

(** X12. With nonnegative integer weights the stored distances obey the
    triangle inequality: if [u] is at finite distance from [s] and [t] at
    finite distance from [u], the distance stored for [(s, t)] is finite
    and at most the sum of the two. *)
Theorem all_pairs_triangle nodes g all_paths s u t i1 i2 i3 d1 d2 :
  nodes_closed g → nonneg_weights g → integer_weights g →
  (∀ x, x ∈ nodes ↔ x ∈ dom g) →
  find_all_shortest_paths_from nodes g = Ok all_paths →
  all_paths !! (s, u) = Some i1 → all_paths !! (u, t) = Some i2 →
  all_paths !! (s, t) = Some i3 →
  pi_distance i1 = Fin d1 → pi_distance i2 = Fin d2 →
  ∃ d3, pi_distance i3 = Fin d3 ∧ (d3 ≤ d1 + d2)%Qc.
Proof.
  intros Hcl Hnn _ Hnodes Hrun H1 H2 H3 E1 E2.
  destruct (all_pairs_distance_path _ _ _ _ _ _ _ Hcl Hnodes Hrun H1 E1)
    as (p1 & Hp1 & [Hh1 Hl1] & Hw1).
  destruct (all_pairs_distance_path _ _ _ _ _ _ _ Hcl Hnodes Hrun H2 E2)
    as (p2 & Hp2 & [Hh2 Hl2] & Hw2).
  destruct p2 as [|u' p2]; [done|]. simpl in Hh2.
  assert (u' = u) as -> by congruence.
  destruct (path_join g p1 u p2 d1 d2 Hp1 Hl1 Hp2 Hw1 Hw2)
    as (Hv & Hh & Hl & Hw).
  apply (all_pairs_distance_le nodes g all_paths s t i3 (p1 ++ p2)); try done.
  split; [by rewrite Hh|by rewrite Hl].
Qed.

Lemma all_pairs_triangle_witness :
  ∃ all_paths i1 i2 i3 d1 d2,
    find_all_shortest_paths demo_graph = Ok all_paths ∧
    all_paths !! ("A", "B") = Some i1 ∧ all_paths !! ("B", "D") = Some i2 ∧
    all_paths !! ("A", "D") = Some i3 ∧
    pi_distance i1 = Fin d1 ∧ pi_distance i2 = Fin d2 ∧
    ∃ d3, pi_distance i3 = Fin d3 ∧ (d3 ≤ d1 + d2)%Qc.
Proof.
  destruct (find_all_shortest_paths_pairs demo_graph demo_graph_closed)
    as (M & HM & Hl).
  assert (∃ info d, M !! ("A", "B") = Some info ∧ pi_distance info = Fin d)
    as (i1 & d1 & H1 & E1).
  { rewrite Hl; [vm_compute; eauto|by apply demo_graph_node..|done]. }
  assert (∃ info d, M !! ("B", "D") = Some info ∧ pi_distance info = Fin d)
    as (i2 & d2 & H2 & E2).
  { rewrite Hl; [vm_compute; eauto|by apply demo_graph_node..|done]. }
  assert (∃ info, M !! ("A", "D") = Some info) as [i3 H3].
  { rewrite Hl; [vm_compute; eauto|by apply demo_graph_node..|done]. }
  exists M, i1, i2, i3, d1, d2.
  split; [exact HM|]. split; [exact H1|]. split; [exact H2|].
  split; [exact H3|]. split; [exact E1|]. split; [exact E2|].
  apply (all_pairs_triangle (graph_nodes demo_graph) demo_graph M
           "A" "B" "D" i1 i2 i3 d1 d2).
  - apply nodes_closedb_sound. vm_compute. reflexivity.
  - apply nonneg_weightsb_sound. vm_compute. reflexivity.
  - apply integer_weightsb_sound. vm_compute. reflexivity.
  - apply elem_of_graph_nodes.
  - exact HM.
  - exact H1.
  - exact H2.
  - exact H3.
  - exact E1.
  - exact E2.
Defined.

(** ** Weight assignment: structure of the result *)

Lemma add_travel_times_lookup' hash G u :
  add_travel_times hash G !! u
  = fmap (M := list)
      (λ vd : string * EdgeData, (vd.1, with_travel_time hash u vd.1 vd.2))
    <$> G !! u.
Proof. apply add_travel_times_lookup. Qed.

Lemma assoc_fmap_key {A B} (f : string → A → B) v (l : list (string * A)) :
  assoc v ((λ vd : string * A, (vd.1, f vd.1 vd.2)) <$> l)
  = f v <$> assoc v l.
Proof.
  induction l as [|[v' a] l IH]; [done|]. simpl.
  destruct (decide (v' = v)) as [->|]; [done|apply IH].
Qed.

Lemma edge_data_add_travel_times hash G u v :
  edge_data (add_travel_times hash G) u v
  = result_map (with_travel_time hash u v) (edge_data G u v).
Proof.
  unfold edge_data. rewrite add_travel_times_lookup'.
  destruct (G !! u) as [adj|]; [|done]. simpl.
  rewrite (assoc_fmap_key (with_travel_time hash u)).
  by destruct (assoc v adj).
Qed.


Lemma is_edge_add_travel_times hash G u v :
  is_edge (add_travel_times hash G) u v ↔ is_edge G u v.
Proof.
  unfold is_edge. rewrite add_travel_times_lookup'.
  destruct (G !! u) as [adj|]; simpl.
  - assert (((λ vd : string * EdgeData,
                (vd.1, with_travel_time hash u vd.1 vd.2)) <$> adj).*1 = adj.*1) as E.
    { rewrite <- list_fmap_compose. by apply list_fmap_ext. }
    split; intros (adj' & [= <-] & Hin); eexists; (split; [done|]).
    + by rewrite E in Hin.
    + by rewrite E.
  - split; by intros (? & ? & _).
Qed.

Lemma dom_add_travel_times hash G : dom (add_travel_times hash G) = dom G.
Proof.
  apply set_eq. intros u. rewrite !elem_of_dom, add_travel_times_lookup'.
  by rewrite fmap_is_Some.
Qed.



Lemma travel_time_bounds hash u v d :
  (Q2Qc (5 # 2) ≤ travel_time hash u v d)%Qc.
Proof.
  assert (H25 : Q2Qc (5 # 2) = (Qc_of_Z 25 / Qc_of_Z 10)%Qc)
    by (apply Qc_is_canon; reflexivity).
  destruct (decide (line d = Some "transfer")) as [Hl|Hl].
  - rewrite (travel_time_transfer _ _ _ _ Hl).
    apply (bool_decide_unpack _). by vm_compute.
  - destruct (travel_time_other hash u v d Hl) as [_ ->]. rewrite H25.
    apply tenths_le. pose proof (Z.mod_pos_bound (hash u + hash v) 10). lia.
Qed.

Lemma add_travel_times_edge_weight hash G u v w :
  edge_weight (add_travel_times hash G) u v = Some w →
  (Q2Qc (5 # 2) ≤ w)%Qc.
Proof.
  unfold edge_weight. rewrite edge_data_add_travel_times.
  destruct (edge_data G u v) as [d| |]; [|done..]. simpl.
  intros H. assert (w = travel_time hash u v d) as ->
    by (unfold get_weight in H; simpl in H; congruence).
  apply travel_time_bounds.
Qed.

Lemma add_travel_times_nonneg hash G :
  nonneg_weights (add_travel_times hash G).
Proof.
  intros u adj v d Hadj Hin.
  destruct (add_travel_times_entry _ _ _ _ _ _ Hadj Hin)
    as (adj0 & d0 & _ & _ & _ & Hw).
  unfold get_weight. rewrite Hw. simpl.
  eapply Qcle_trans; [|apply travel_time_bounds].
  apply (bool_decide_unpack _). by vm_compute.
Qed.

(** X14. The weights stored by [add_travel_times] always meet the
    precondition of [dijkstra]: for every networkx graph [G], whatever its
    own weights, and every node [s], [dijkstra(add_travel_times(G), s)]
    returns the least total travel time to every node that a path reaches
    (with such a path rebuilt by [reconstruct_path]) and infinity for the
    others; a node other than [s] is at distance 2.5 at least. *)
Theorem dijkstra_on_travel_times (hash : string → Z) G s :
  nodes_closed G → s ∈ dom G →
  ∃ dist prev,
    dijkstra (add_travel_times hash G) s = Ok (dist, prev) ∧
    ∀ v, v ∈ dom G →
      (∃ d p, dist !! v = Some (Fin d) ∧
              reconstruct_path prev s v = Ok p ∧
              valid_path G p ∧ path_from_to p s v ∧
              path_weight (add_travel_times hash G) p = Some d ∧
              (v ≠ s → (Q2Qc (5 # 2) ≤ d)%Qc) ∧
              ∀ q W, valid_path G q → path_from_to q s v →
                     path_weight (add_travel_times hash G) q = Some W →
                     (d ≤ W)%Qc)
      ∨ (dist !! v = Some Infinity ∧
         ∀ q, valid_path G q → ¬ path_from_to q s v).
Proof.
  intros Hcl Hs. set (G' := add_travel_times hash G).
  assert (Hvp : ∀ q, valid_path G' q ↔ valid_path G q).
  { induction q as [|a [|b q] IH]; [done..|].
    change (is_edge G' a b ∧ valid_path G' (b :: q)
            ↔ is_edge G a b ∧ valid_path G (b :: q)).
    unfold G' at 1. by rewrite IH, is_edge_add_travel_times. }
  assert (Hcl' : nodes_closed G').
  { intros u v He%is_edge_add_travel_times.
    unfold G'. rewrite dom_add_travel_times. by eapply Hcl. }
  pose proof (add_travel_times_nonneg hash G) as Hnn. fold G' in Hnn.
  assert (Hs' : s ∈ dom G') by (unfold G'; by rewrite dom_add_travel_times).
  destruct (dijkstra_run G' s Hcl' Hs') as (dist & prev & Hrun & Post).
  exists dist, prev. split; [done|]. intros v Hv.
  assert (v ∈ dom dist) as [[d|] Hd]%elem_of_dom.
  { rewrite (dp_dom_dist _ _ _ _ Post). unfold G'.
    by rewrite dom_add_travel_times. }
  - left. destruct (dijkstra_post_finite _ _ _ _ _ _ Post Hd)
      as (p & Hp & Hvp' & Hft & Hw).
    exists d, p. split_and!; [done|done|by apply Hvp|done|done| |].
    + intros Hne. destruct p as [|a [|b p]].
      * by destruct Hft.
      * destruct Hft as [Hh Hl]. simpl in *. congruence.
      * rewrite path_weight_cons in Hw.
        destruct (edge_weight G' a b) as [w|] eqn:Hwab; [|done].
        destruct (path_weight G' (b :: p)) as [r|] eqn:Hr; [|done].
        assert (d = (w + r)%Qc) as -> by (simpl in Hw; congruence).
        apply Qc_le_add_nonneg.
        -- by eapply add_travel_times_edge_weight.
        -- by eapply path_weight_nonneg.
    + intros q W Hq Hftq HW. apply Hvp in Hq.
      destruct (dijkstra_post_reached _ _ _ _ _ _ Post Hnn Hq Hftq)
        as (d' & Hd' & Hle).
      rewrite Hd in Hd'. assert (d' = d) as -> by congruence. by apply Hle.
  - right. split; [done|]. intros q Hq Hftq. apply Hvp in Hq.
    destruct (dijkstra_post_reached _ _ _ _ _ _ Post Hnn Hq Hftq)
      as (d' & Hd' & _). congruence.
Qed.

Lemma dijkstra_on_travel_times_witness :
  ∃ dist prev,
    dijkstra (add_travel_times demo_hash demo_negative) "A"
    = Ok (dist, prev) ∧
    ∀ v, v ∈ dom demo_negative →
      (∃ d p, dist !! v = Some (Fin d) ∧
              reconstruct_path prev "A" v = Ok p ∧
              valid_path demo_negative p ∧ path_from_to p "A" v ∧
              path_weight (add_travel_times demo_hash demo_negative) p
              = Some d ∧
              (v ≠ "A" → (Q2Qc (5 # 2) ≤ d)%Qc) ∧
              ∀ q W, valid_path demo_negative q → path_from_to q "A" v →
                     path_weight (add_travel_times demo_hash demo_negative) q
                     = Some W →
                     (d ≤ W)%Qc)
      ∨ (dist !! v = Some Infinity ∧
         ∀ q, valid_path demo_negative q → ¬ path_from_to q "A" v).
Proof.
  apply (dijkstra_on_travel_times demo_hash demo_negative "A").
  - apply nodes_closedb_sound. vm_compute. reflexivity.
  - apply (bool_decide_unpack _). vm_compute. exact I.
Defined.

(** ** Path reconstruction on an arbitrary predecessor map *)

Lemma reconstruct_walk_Ok fuel prev v acc r :
  reconstruct_walk fuel prev (Some v) acc = Ok r →
  ∃ l, r = acc ++ l ∧ chain prev v l.
Proof.
  revert v acc. induction fuel as [|fuel IH]; intros v acc; [done|].
  simpl. unfold getitem. destruct (prev !! v) as [[u|]|] eqn:Hv; [| |done].
  - simpl. intros (l & -> & Hc)%IH. exists (v :: l).
    split; [by rewrite <- app_assoc|]. by apply chain_step with u.
  - simpl. intros Hr. exists [v]. split; [|by apply chain_root].
    destruct fuel; simpl in Hr; congruence.
Qed.

(** X15. Whatever the predecessor map and the iteration budget, a list
    returned by [reconstruct_path] is either empty or leads from [start] to
    the target along predecessor links: read backwards it is the chain of
    predecessors of the target, ending at a node without predecessor, which
    is [start]. *)
Theorem reconstruct_path_sound fuel prev start t p :
  reconstruct_path_fuel fuel prev start t = Ok p →
  p = [] ∨ (path_from_to p start t ∧ chain prev t (reverse p) ∧
            prev !! start = Some None).
Proof.
  unfold reconstruct_path_fuel.
  destruct (reconstruct_walk fuel prev (Some t) []) as [r| |] eqn:Hw; [|done..].
  simpl. apply reconstruct_walk_Ok in Hw as (l & -> & Hc). simpl.
  destruct (decide (head (reverse l) = Some start)) as [Hh|]; intros [= <-];
    [right|by left].
  rewrite reverse_involutive. split_and!; [|done|].
  - split; [done|]. rewrite last_reverse. by eapply chain_head.
  - rewrite head_reverse in Hh. clear -Hc Hh.
    induction Hc as [v Hv|v u l Hv Hc IH].
    + simpl in Hh. congruence.
    + apply IH. destruct l; [inversion Hc|]. exact Hh.
Qed.

Lemma reconstruct_path_sound_witness :
  ["A"; "B"] = [] ∨
  (path_from_to ["A"; "B"] "A" "B" ∧
   chain (<["B" := Some "A"]> {["A" := None]}) "B" (reverse ["A"; "B"]) ∧
   (<["B" := Some "A"]> {["A" := None]} : gmap string (option string))
     !! "A" = Some None).
Proof.
  apply (reconstruct_path_sound 5 (<["B" := Some "A"]> {["A" := None]}) "A" "B").
  vm_compute. reflexivity.
Defined.

(** X16. When the predecessor links from the target lead, after [n] links,
    to a node that is not a key of the map, [reconstruct_path] raises
    [KeyError] (given an iteration budget above [n]); in particular when the
    target itself is not a key. *)
Theorem reconstruct_path_dangling fuel prev start t n :
  dangling prev t n → n < fuel →
  reconstruct_path_fuel fuel prev start t = Raise KeyError.
Proof.
  intros Hd Hn. unfold reconstruct_path_fuel.
  assert (∀ acc, reconstruct_walk fuel prev (Some t) acc = Raise KeyError) as ->;
    [|done].
  revert fuel Hn. induction Hd as [c Hc|c u n Hc Hd IH]; intros fuel Hn acc;
    (destruct fuel as [|fuel]; [lia|]); simpl; unfold getitem; rewrite Hc; simpl.
  - done.
  - apply IH. lia.
Qed.

Lemma reconstruct_path_dangling_witness :
  dangling (<["B" := Some "A"]> ∅) "B" 1 ∧
  reconstruct_path_fuel 2 (<["B" := Some "A"]> ∅) "A" "B" = Raise KeyError.
Proof.
  assert (dangling (<["B" := Some "A"]> ∅) "B" 1) as H.
  { apply dangling_step with "A"; [reflexivity|].
    apply dangling_here. reflexivity. }
  split; [exact H|].
  apply (reconstruct_path_dangling 2 _ "A" "B" 1 H). lia.
Defined.

(** ** Path reconstruction: every outcome *)

Lemma chain_functional prev v l l' : chain prev v l → chain prev v l' → l = l'.
Proof.
  intros Hc. revert l'. induction Hc as [v Hv|v u l Hv Hc IH]; intros l' Hc'.
  - inversion Hc' as [? Hv'|? u' ? Hv']; subst; [done|congruence].
  - inversion Hc' as [? Hv'|? u' l0 Hv' Hc0]; subst; [congruence|].
    assert (u' = u) as -> by congruence. f_equal. by apply IH.
Qed.

Lemma chain_suffix prev v l x :
  chain prev v l → x ∈ l → ∃ l', chain prev x l' ∧ length l' ≤ length l.
Proof.
  induction 1 as [v Hv|v u l Hv Hc IH].
  - intros ->%list_elem_of_singleton. exists [v]. split; [by constructor|done].
  - intros [->|Hx]%elem_of_cons.
    + exists (v :: l). split; [by econstructor|done].
    + destruct (IH Hx) as (l' & Hl' & Hlen). exists l'. split; [done|].
      simpl. lia.
Qed.

(** The links that end at a node without predecessor never meet a node
    twice. *)
Lemma chain_NoDup prev v l : chain prev v l → NoDup l.
Proof.
  induction 1 as [v Hv|v u l Hv Hc IH]; [apply NoDup_singleton|].
  apply NoDup_cons. split; [|done]. intros Hin.
  destruct (chain_suffix _ _ _ _ Hc Hin) as (l' & Hl' & Hlen).
  assert (l' = v :: l) as -> by (eapply chain_functional; [done|by econstructor]).
  simpl in Hlen. lia.
Qed.

Lemma dangling_functional prev c n m :
  dangling prev c n → dangling prev c m → n = m.
Proof.
  intros Hd. revert m. induction Hd as [c Hc|c u n Hc Hd IH]; intros m Hm.
  - inversion Hm; subst; [done|congruence].
  - inversion Hm as [|? u' m' Hc' Hd']; subst; [congruence|].
    assert (u' = u) as -> by congruence. f_equal. by apply IH.
Qed.

(** The [n] links that lead to a missing key read [n] different keys. *)
Lemma dangling_size prev c n : dangling prev c n → n ≤ size prev.
Proof.
  intros Hd.
  assert (∃ l, length l = n ∧ NoDup l ∧
               ∀ x, x ∈ l → x ∈ dom prev ∧ ∃ m, m ≤ n ∧ 0 < m ∧ dangling prev x m)
    as (l & <- & Hnd & Hl).
  { induction Hd as [c Hc|c u n Hc Hd (l & Hlen & Hnd & Hl)].
    - exists []. split_and!; [done|apply NoDup_nil_2|by intros x ?%elem_of_nil].
    - exists (c :: l). split_and!; [by rewrite <- Hlen| |].
      + apply NoDup_cons. split; [|done]. intros Hin.
        destruct (Hl c Hin) as (_ & m & Hm & _ & Hdm).
        pose proof (dangling_functional _ _ _ _ Hdm
                      (dangling_step _ _ _ _ Hc Hd)). lia.
      + intros x [->|Hx]%elem_of_cons.
        * split; [apply elem_of_dom; eauto|].
          exists (S n). split_and!; [lia..|by econstructor].
        * destruct (Hl x Hx) as (? & m & ? & ? & ?). split; [done|].
          exists m. split_and!; [lia|done..]. }
  rewrite <- size_dom. apply NoDup_length_le_size; [done|].
  intros x Hx. by destruct (Hl x Hx).
Qed.

Lemma reconstruct_walk_dangling fuel prev c n acc :
  dangling prev c n → n < fuel →
  reconstruct_walk fuel prev (Some c) acc = Raise KeyError.
Proof.
  intros Hd. revert fuel acc.
  induction Hd as [c Hc|c u n Hc Hd IH]; intros fuel acc Hn;
    (destruct fuel as [|fuel]; [lia|]); simpl; unfold getitem; rewrite Hc; simpl.
  - done.
  - apply IH. lia.
Qed.

Lemma reconstruct_walk_Raise fuel prev c acc e :
  reconstruct_walk fuel prev (Some c) acc = Raise e →
  e = KeyError ∧ ∃ n, dangling prev c n.
Proof.
  revert c acc. induction fuel as [|fuel IH]; intros c acc; [done|].
  simpl. unfold getitem. destruct (prev !! c) as [[u|]|] eqn:Hc; simpl.
  - intros (-> & n & Hn)%IH. split; [done|]. exists (S n). by econstructor.
  - by destruct fuel.
  - intros [= <-]. split; [done|]. exists 0. by constructor.
Qed.

(** X17. [reconstruct_path] on any predecessor map: when the links from
    the target end at a node whose predecessor is [None] it returns (the
    nodes met, first to last reversed, if they start at [start], and the
    empty list otherwise); when they reach a node that is not a key it
    raises [KeyError]; and its loop fails to end in exactly the remaining
    case, where the links neither end nor leave the map: they cycle. *)
Theorem reconstruct_path_outcome prev start t :
  (∀ l, chain prev t l →
        reconstruct_path prev start t
        = Ok (if decide (last l = Some start) then reverse l else [])) ∧
  (∀ n, dangling prev t n →
        reconstruct_path prev start t = Raise KeyError) ∧
  (reconstruct_path prev start t = Timeout
   ↔ (∀ l, ¬ chain prev t l) ∧ (∀ n, ¬ dangling prev t n)).
Proof.
  assert (Hchain : ∀ l, chain prev t l →
    reconstruct_path prev start t
    = Ok (if decide (last l = Some start) then reverse l else [])).
  { intros l Hc. apply reconstruct_path_chain; [done|by eapply chain_NoDup]. }
  assert (Hdang : ∀ n, dangling prev t n →
    reconstruct_path prev start t = Raise KeyError).
  { intros n Hd. unfold reconstruct_path, reconstruct_path_fuel.
    rewrite (reconstruct_walk_dangling _ _ _ n); [done..|].
    pose proof (dangling_size _ _ _ Hd). lia. }
  split_and!; [done..|]. split.
  - intros Ht. split.
    + intros l Hc. rewrite (Hchain l Hc) in Ht. done.
    + intros n Hd. rewrite (Hdang n Hd) in Ht. done.
  - intros [Hnc Hnd]. unfold reconstruct_path, reconstruct_path_fuel.
    destruct (reconstruct_walk (S (size prev)) prev (Some t) [])
      as [r|e|] eqn:Hw; [| |done].
    + apply reconstruct_walk_Ok in Hw as (l & _ & Hc). by destruct (Hnc l).
    + apply reconstruct_walk_Raise in Hw as (_ & n & Hd). by destruct (Hnd n).
Qed.

(** The three outcomes, on a map whose links leave it, on the empty map,
    on a cycle and on a chain. *)
Example reconstruct_path_outcomes :
  reconstruct_path {["B" := Some "A"]} "A" "B" = Raise KeyError ∧
  reconstruct_path ∅ "A" "B" = Raise KeyError ∧
  reconstruct_path (<["A" := Some "B"]> {["B" := Some "A"]}) "A" "B" = Timeout ∧
  reconstruct_path (<["B" := Some "A"]> {["A" := None]}) "A" "B"
  = Ok ["A"; "B"].
Proof. split_and!; vm_compute; reflexivity. Qed.
